(** * thinshell / vmil19 regularization: sensitivity lists, flock
    factorization and operand formulas.

    A shallow embedding of [senslist.py] and of the analysis part of
    [vexshape.py], together with the properties of the analysis that the
    design document states.

    Conventions.
    - Python integers are [Z]; list positions that only ever index a list
      are [nat].
    - A call that can leave by an exception returns a [result].
    - Z3 terms are data of the Python program (they are built, stored and
      handed to a solver), so the few term constructors the code uses are
      a small datatype here, with the well-formedness checks that z3py
      performs when a term is built.
    - [bitstring.Bits] values are [list bool], most significant bit first,
      which is the order in which Python iterates and indexes them. *)

From Stdlib Require Import ZArith Lia List Bool Ascii String.
From stdpp Require Import base option list gmap strings sorting.

Local Open Scope Z_scope.

(** ** Exceptions and the error monad *)

Inductive exn : Type :=
| Z3Exception      (* raised by z3py when a term is ill-formed *)
| IndexError
| KeyError
| TypeError
| AttributeError
| RecursionError
| WrongCountOfBits (* Exception("wrong count of bits") in mingle *)
| ErrorRaised.     (* [raise Error()] and [error(...)]: the name is bound in
                      neither file, so either the intended Error or a
                      NameError leaves the function; both are this case *)

Inductive result (A : Type) : Type :=
| Ok (a : A)
| Raise (e : exn).
Arguments Ok {A} a.
Arguments Raise {A} e.

#[global] Instance result_bind : MBind result := fun A B k r =>
  match r with
  | Ok a => k a
  | Raise e => Raise e
  end.

#[global] Instance result_ret : MRet result := fun A a => Ok a.

(** [for x in xs: acc = body(acc, x)], leaving at the first exception. *)
Fixpoint rfold {A S} (body : S -> A -> result S) (xs : list A) (acc : S)
  : result S :=
  match xs with
  | [] => Ok acc
  | x :: rest => acc' ← body acc x; rfold body rest acc'
  end.

(** [[f(x) for x in xs]], leaving at the first exception. *)
Fixpoint rmap {A B} (f : A -> result B) (xs : list A) : result (list B) :=
  match xs with
  | [] => Ok []
  | x :: rest => y ← f x; ys ← rmap f rest; Ok (y :: ys)
  end.

(** [range(n)] and [range(lo, hi)] as Python integers. *)
Definition range (n : Z) : list Z := map Z.of_nat (seq 0 (Z.to_nat n)).
Definition range2 (lo hi : Z) : list Z :=
  map (fun k => lo + Z.of_nat k) (seq 0 (Z.to_nat (hi - lo))).

(** [l[k]] on a Python list: negative positions count from the end. *)
Definition py_getitem {A} (l : list A) (k : Z) : result A :=
  let n := Z.of_nat (length l) in
  let k' := if k <? 0 then k + n else k in
  if (0 <=? k') && (k' <? n)
  then match l !! Z.to_nat k' with
       | Some a => Ok a
       | None => Raise IndexError
       end
  else Raise IndexError.

(** ** bitstring.Bits *)

(** [Bits(...).uint]: the bits read as an unsigned number, MSB first. *)
Definition uint (bs : list bool) : Z :=
  fold_left (fun acc (b : bool) => 2 * acc + (if b then 1 else 0)) bs 0.

(** [Bits(uint=k, length=n)]. *)
Definition Bits_uint (k : Z) (n : nat) : list bool :=
  map (fun j => Z.testbit k (Z.of_nat j)) (rev (seq 0 n)).

(** [b.count(1)] and [b.count(0)]. *)
Definition count1 (bs : list bool) : nat := length (filter (fun b => b = true) bs).
Definition count0 (bs : list bool) : nat := length (filter (fun b => b = false) bs).

(** ** The fragment of z3py that the analysis uses *)

Module Z3.

(** Bit-vector terms. *)
Inductive bv : Type :=
| BitVec (name : string) (size : Z)
| BitVecVal (val : Z) (size : Z)
| ExtractT (high low : Z) (a : bv)
| ConcatT (a b : bv).

Fixpoint size (e : bv) : Z :=
  match e with
  | BitVec _ n => n
  | BitVecVal _ n => n
  | ExtractT high low _ => high - low + 1
  | ConcatT a b => size a + size b
  end.

(** [Extract(high, low, a)]: z3py asserts [low <= high] and that both are
    non-negative; Z3 itself rejects [high] beyond the operand. *)
Definition Extract (high low : Z) (a : bv) : result bv :=
  if (low <=? high) && (0 <=? low) && (high <? size a)
  then Ok (ExtractT high low a)
  else Raise Z3Exception.

Definition Concat (a b : bv) : bv := ConcatT a b.

(** Value of a term under an assignment of its variables; a variable or
    literal of size [n] denotes its value modulo [2^n]. *)
Fixpoint eval (env : string -> Z) (e : bv) : Z :=
  match e with
  | BitVec x n => Z.land (env x) (Z.ones n)
  | BitVecVal v n => Z.land v (Z.ones n)
  | ExtractT high low a =>
      Z.land (Z.shiftr (eval env a) low) (Z.ones (high - low + 1))
  | ConcatT a b =>
      Z.lor (Z.shiftl (eval env a) (size b)) (eval env b)
  end.

Definition no_vars : string -> Z := fun _ => 0.

(** [simplify(e)] on a closed term folds it to a literal. *)
Definition simplify (e : bv) : bv := BitVecVal (eval no_vars e) (size e).

(** [e.as_long()]: only a literal has it. *)
Definition as_long (e : bv) : result Z :=
  match e with
  | BitVecVal v n => Ok (Z.land v (Z.ones n))
  | _ => Raise AttributeError
  end.

(** [BitVecSort(n)]: a sort needs at least one bit. *)
Definition BitVecSort (n : Z) : result Z :=
  if 0 <? n then Ok n else Raise Z3Exception.

(** [IntVal(y)]: [y] must be a Python integer; [None] is refused. *)
Definition IntVal (y : option Z) : result Z :=
  match y with
  | Some z => Ok z
  | None => Raise Z3Exception
  end.

Inductive verdict : Type := sat | unsat | unknown.

Definition verdict_eqb (a b : verdict) : bool :=
  match a, b with
  | sat, sat | unsat, unsat | unknown, unknown => true
  | _, _ => false
  end.

(** What [check()] followed by [model()] gives: a model comes with
    [sat] only. *)
Inductive answer (M : Type) : Type :=
| Sat (m : M)
| Unsat
| Unknown.
Arguments Sat {M} m.
Arguments Unsat {M}.
Arguments Unknown {M}.

Definition verdict_of {M} (a : answer M) : verdict :=
  match a with
  | Sat _ => sat
  | Unsat => unsat
  | Unknown => unknown
  end.

End Z3.

(** ** senslist.py *)

(** [bitsExcept(bv, j)]: [bv] with its [j]-th bit removed, [j = 0] the
    least significant. *)
Definition bitsExcept (bv : Z3.bv) (j : Z) : result Z3.bv :=
  if j =? 0 then Z3.Extract (Z3.size bv - 1) 1 bv
  else if j =? Z3.size bv - 1 then Z3.Extract (Z3.size bv - 2) 0 bv
  else
    hi ← Z3.Extract (Z3.size bv - 1) (j + 1) bv;
    lo ← Z3.Extract (j - 1) 0 bv;
    Ok (Z3.Concat hi lo).

(** The three letters of a sensitivity list. *)
Inductive tag : Type :=
| Unknown      (* '?' *)
| Irrelevant   (* 'x' *)
| Relevant.    (* '!' *)

#[global] Instance tag_eq_dec : EqDecision tag.
Proof. solve_decision. Defined.

(** The solver session of [guess]: the facts [P[x] == y] asserted so far,
    in the order they were added. The array [P] is constrained by nothing
    else. *)
Definition session : Type := list (Z * Z).

Definition select (facts : session) (x : Z) : option Z :=
  snd <$> find (fun f => fst f =? x) facts.

(** Whether a model of the facts can have [P[v1] != P[v2]]: the two values
    are fixed where a fact names the point and free elsewhere. *)
Definition can_differ (facts : session) (v1 v2 : Z) : bool :=
  match select facts v1, select facts v2 with
  | Some y1, Some y2 => negb (y1 =? y2)
  | _, _ => negb (v1 =? v2)
  end.

Definition two_vars (v1 v2 : Z) : string -> Z :=
  fun x => if String.eqb x "v1" then v1 else v2.

(** [solver.check()] after [Not(Implies(P[v1] != P[v2], j1 != j2))] was
    added to the facts: the query is ground over two [width]-bit unknowns,
    so it is decided by trying every pair. *)
Definition check_probe (facts : session) (width : Z) (j1 j2 : Z3.bv)
  : Z3.verdict :=
  if existsb (fun v1 =>
       existsb (fun v2 =>
         can_differ facts v1 v2
         && (Z3.eval (two_vars v1 v2) j1 =? Z3.eval (two_vars v1 v2) j2))
       (range (2 ^ width)))
     (range (2 ^ width))
  then Z3.sat else Z3.unsat.

Record SensitivityList : Type := {
  slist : list tag;
  solver : option session;
}.

(** [SensitivityList(width)]. *)
Definition SensitivityList_init (width : nat) : SensitivityList :=
  {| slist := replicate width Unknown; solver := None |}.

(** [probeIrrelevant]: the pushed assertion is popped again, so the session
    is the same afterwards. *)
Definition probeIrrelevant (facts : session) (sl : list tag) (bitPosition : Z)
  : result bool :=
  let width := Z.of_nat (length sl) in
  let v1 := Z3.BitVec "v1" width in
  let v2 := Z3.BitVec "v2" width in
  j1 ← bitsExcept v1 bitPosition;
  j2 ← bitsExcept v2 bitPosition;
  Ok (Z3.verdict_eqb (check_probe facts width j1 j2) Z3.unsat).

Definition letter_of_probe (x : bool) : tag :=
  if x then Irrelevant else Relevant.

(** One assignment [self.slist[i] = letter]. *)
Definition write : Type := (nat * tag)%type.

(** [guess1]: resolve the first ['?'], then call itself. [depth] bounds the
    nesting of the calls; [guess1] below starts it with one level per
    unknown letter, which is as deep as the recursion can go. The second
    component lists the assignments in the order they were made. *)
Fixpoint guess1_rec (depth : nat) (facts : session) (sl : list tag)
  : result (list tag * list write) :=
  match list_find (fun t => t = Unknown) sl with
  | None => Ok (sl, [])            (* except ValueError: return self *)
  | Some (i, _) =>
      match depth with
      | O => Raise RecursionError
      | S depth' =>
          x ← probeIrrelevant facts sl (Z.of_nat i);
          let sl' := <[ i := letter_of_probe x ]> sl in
          r ← guess1_rec depth' facts sl';
          Ok (fst r, (i, letter_of_probe x) :: snd r)
      end
  end.

Definition unknowns (sl : list tag) : nat :=
  length (filter (fun t => t = Unknown) sl).

Definition guess1_trace (facts : session) (sl : list tag)
  : result (list tag * list write) :=
  guess1_rec (unknowns sl) facts sl.

Definition guess1 (facts : session) (sl : list tag) : result (list tag) :=
  r ← guess1_trace facts sl; Ok (fst r).

(** The loop of [guess] that axiomatizes the table. *)
Definition add_facts (p : Z -> result (option Z)) (width : Z) : result session :=
  rmap (fun i => y ← p i; v ← Z3.IntVal y; Ok (i, v)) (range (2 ^ width)).

(** [guess(p)]: [p] is anything indexable; the session is dropped at the
    end. *)
Definition guess (self : SensitivityList) (p : Z -> result (option Z))
  : result SensitivityList :=
  let width := Z.of_nat (length (slist self)) in
  Z3.BitVecSort width;;
  facts ← add_facts p width;
  sl' ← guess1 facts (slist self);
  Ok {| slist := sl'; solver := None |}.

(** Elements of a field spec: an integer is that many free bits, a string
    is a run of fixed bits. *)
Inductive FieldSpecElement : Type :=
| FreeBits (n : nat)
| FixedBits (bits : list bool).

Definition slLetter_to_FieldSpecElement (i_l : nat * tag)
  : result FieldSpecElement :=
  match snd i_l with
  | Relevant => Ok (FreeBits 1)
  | Irrelevant => Ok (FixedBits [false])
  | Unknown => Raise ErrorRaised
  end.

Definition enumerate {A} (l : list A) : list (nat * A) :=
  imap (fun i a => (i, a)) l.

Definition asFieldSpec (sl : list tag) : result (list FieldSpecElement) :=
  l ← rmap slLetter_to_FieldSpecElement (enumerate sl);
  Ok (rev l).

Definition filterRelevantMembers {A} (sl : list tag) (aList : list A) : list A :=
  map snd (filter (fun rel_bit => fst rel_bit = Relevant) (zip (rev sl) aList)).

Definition significantSlice (sl : list tag) (bits : list bool) : list bool :=
  filterRelevantMembers sl bits.

Definition entropy (sl : list tag) : nat :=
  length (filter (fun x => x = Relevant) sl).

Definition isInsensitive (sl : list tag) : bool :=
  Nat.eqb (entropy sl) 0.

(** [repr]: the letters from the most significant position down, between
    guillemets (code points 171 and 187). *)
Definition letter (t : tag) : ascii :=
  match t with
  | Unknown => "?"%char
  | Irrelevant => "x"%char
  | Relevant => "!"%char
  end.

Definition repr_SensitivityList (sl : list tag) : string :=
  String (Ascii.ascii_of_nat 171)
    (fold_right String (String (Ascii.ascii_of_nat 187) EmptyString)
       (map letter (rev sl))).

(** ** The external bit enumerator *)

(** Every bit string of length [n], in ascending numeric order. *)
Fixpoint all_bits (n : nat) : list (list bool) :=
  match n with
  | O => [[]]
  | S n' => map (cons false) (all_bits n') ++ map (cons true) (all_bits n')
  end.

(** Modelled from the spec: [bit_iter.encodingspec_to_iter] is imported by
    both files but is not part of them. The spec describes it as: given a
    field spec (an ordered sequence of elements, each either a literal
    fixed bit-string or an integer count of free bits), it produces a
    finite sequence of concrete encodings covering every combination of
    the free positions with the fixed positions held constant. *)
Fixpoint encodingspec_to_iter (spec : list FieldSpecElement) : list (list bool) :=
  match spec with
  | [] => [[]]
  | FixedBits bits :: rest => map (app bits) (encodingspec_to_iter rest)
  | FreeBits n :: rest =>
      concat (map (fun free => map (app free) (encodingspec_to_iter rest))
                  (all_bits n))
  end.

(** ** vexshape.py *)

(** A bit-vector argument of [mingle]: a Z3 term, or the [Empty] stand-in
    whose [size()] is 0. *)
Inductive bvobj : Type :=
| Empty
| Term (e : Z3.bv).

Definition obj_size (o : bvobj) : Z :=
  match o with
  | Empty => 0
  | Term e => Z3.size e
  end.

(** [Extract] and [Concat] refuse an argument that is not a Z3 term. *)
Definition Extract_obj (high low : Z) (o : bvobj) : result Z3.bv :=
  match o with
  | Empty => Raise Z3Exception
  | Term e => Z3.Extract high low e
  end.

Definition Concat_obj (a : Z3.bv) (o : bvobj) : result Z3.bv :=
  match o with
  | Empty => Raise Z3Exception
  | Term e => Ok (Z3.Concat a e)
  end.

(** [mingle(leftBV, rightBV, mask)]: walk the mask from its first (most
    significant) position, taking the top bit of the right source where
    the mask is set and of the left source elsewhere. It is only called on
    literals, for which [simplify] folds the concatenation. *)
Fixpoint mingle (leftBV rightBV : bvobj) (mask : list bool) : result bvobj :=
  if negb (obj_size leftBV + obj_size rightBV =? Z.of_nat (length mask))
  then Raise WrongCountOfBits
  else
    match mask with
    | [] => Ok Empty
    | true :: newMask =>
        let sz := obj_size rightBV in
        leftmost ← Extract_obj (sz - 1) (sz - 1) rightBV;
        rest ← (if 1 <? sz
                then e ← Extract_obj (sz - 2) 0 rightBV; Ok (Term e)
                else Ok Empty);
        tail ← mingle leftBV rest newMask;
        if obj_size tail =? 0 then Ok (Term leftmost)
        else c ← Concat_obj leftmost tail; Ok (Term (Z3.simplify c))
    | false :: newMask =>
        let sz := obj_size leftBV in
        leftmost ← Extract_obj (sz - 1) (sz - 1) leftBV;
        rest ← (if 1 <? sz
                then e ← Extract_obj (sz - 2) 0 leftBV; Ok (Term e)
                else Ok Empty);
        tail ← mingle rest rightBV newMask;
        if obj_size tail =? 0 then Ok (Term leftmost)
        else c ← Concat_obj leftmost tail; Ok (Term (Z3.simplify c))
    end.

(** [simplify(yx)] in [factorize_flock]. *)
Definition simplify_obj (o : bvobj) : result Z3.bv :=
  match o with
  | Empty => Raise Z3Exception
  | Term e => Ok (Z3.simplify e)
  end.

Record OperandProjection : Type := {
  OPS : list (option (list Z));   (* [None] where the sweep stored nothing *)
  SHAPES : list (option Z);
  correctShape : Z;
  opIndex : Z;
}.

(** [OperandProjection.__getitem__(k)]. *)
Definition OperandProjection_getitem (self : OperandProjection) (k : Z)
  : result Z :=
  s ← py_getitem (SHAPES self) k;
  if negb (bool_decide (s = Some (correctShape self)))
  then Ok (-1)
  else
    ops ← py_getitem (OPS self) k;
    match ops with
    | None => Raise TypeError
    | Some l => py_getitem l (opIndex self)
    end.

Module Flock.

(** The explicit finite interpretation of a function in a model: the
    named entries and the value everywhere else. *)
Record FuncInterp : Type := {
  entries : list (Z * bool);
  else_value : bool;
}.

Definition num_entries (fi : FuncInterp) : nat := length (entries fi).

Definition apply (fi : FuncInterp) (r : Z) : bool :=
  match find (fun e => fst e =? r) (entries fi) with
  | Some e => snd e
  | None => else_value fi
  end.

(** A model interprets the four functions of the query; [s] is kept in
    the explicit form that [m[s]] exposes, because [factorize_flock] counts
    its entries. Bit-vector arguments are given by their unsigned value. *)
Record model : Type := {
  sh : Z -> Z -> Z;
  f : Z -> bool -> Z;
  t : Z -> Z;
  s : FuncInterp;
}.

Inductive assertion : Type :=
| Composition (lBits rBits : Z)   (* ForAll([l,r], sh(l,r)==f(t(l),s(r))) *)
| ShapeFact (y x shape : Z).      (* sh(y,x)==IntVal(shape) *)

Definition holds (m : model) (a : assertion) : bool :=
  match a with
  | Composition lBits rBits =>
      forallb (fun l =>
        forallb (fun r => sh m l r =? f m (t m l) (apply (s m) r))
                (range (2 ^ rBits)))
        (range (2 ^ lBits))
  | ShapeFact y x shape => sh m y x =? shape
  end.

Definition solver : Type := list assertion -> Z3.answer model.

(** A model handed out with [sat] satisfies what was asserted. *)
Definition sound (check : solver) : Prop :=
  forall asserts m, check asserts = Z3.Sat m ->
    forallb (holds m) asserts = true.

End Flock.

(** [list.sort(key=...)] is a stable sort; insertion from the right end
    is one. *)
Fixpoint insert_by {A} (key : A -> nat) (x : A) (l : list A) : list A :=
  match l with
  | [] => [x]
  | y :: l' =>
      if (key x <=? key y)%nat then x :: y :: l'
      else y :: insert_by key x l'
  end.

Definition sort_by {A} (key : A -> nat) (l : list A) : list A :=
  foldr (insert_by key) [] l.

(** A list is in ascending order of [key]: an earlier element never has
    the larger key. *)
Definition ascending {A} (key : A -> nat) (l : list A) : Prop :=
  forall i j a b, (i < j)%nat -> l !! i = Some a -> l !! j = Some b ->
                  (key a <= key b)%nat.

Section FlockFactorizer.

Variable check : Flock.solver.
Variable shapeTags : gmap (list bool) Z.

(** The true shape of a pair: interleave the two values through the
    mask and look the pattern up in the catalog. *)
Definition true_shape (flocking : list bool) (lBits rBits l r : Z)
  : result Z :=
  yx ← mingle (Term (Z3.BitVecVal l lBits)) (Term (Z3.BitVecVal r rBits))
              flocking;
  sy ← simplify_obj yx;
  iyx ← Z3.as_long sy;
  match shapeTags !! Bits_uint iyx (Z.to_nat (lBits + rBits)) with
  | None => Raise KeyError
  | Some shape => Ok shape
  end.

(** The ground fact of one [(iy, ix)] pair in [factorize_flock]. *)
Definition flock_fact (flocking : list bool) (lBits rBits iy ix : Z)
  : result Flock.assertion :=
  let x := Z3.BitVecVal ix rBits in
  let y := Z3.BitVecVal iy lBits in
  yx ← mingle (Term y) (Term x) flocking;
  sy ← simplify_obj yx;
  iyx ← Z3.as_long sy;
  let byx := Bits_uint iyx (Z.to_nat (lBits + rBits)) in
  match shapeTags !! byx with
  | None => Raise KeyError
  | Some shape => Ok (Flock.ShapeFact iy ix shape)
  end.

Definition flock_facts (flocking : list bool) (lBits rBits : Z)
  : result (list Flock.assertion) :=
  rows ← rmap (fun iy =>
                 rmap (fun ix => flock_fact flocking lBits rBits iy ix)
                      (range (2 ^ rBits)))
              (range (2 ^ lBits));
  Ok (concat rows).

(** Everything [factorize_flock] asserts before it calls [check()]: the
    composition law, then one ground fact per pair. *)
Definition flock_query (flocking : list bool)
  : result (list Flock.assertion) :=
  let lBits := Z.of_nat (count0 flocking) in
  let rBits := Z.of_nat (count1 flocking) in
  Z3.BitVecSort lBits;;
  Z3.BitVecSort rBits;;
  facts ← flock_facts flocking lBits rBits;
  Ok (Flock.Composition lBits rBits :: facts).

(** [factorize_flock(flocking)]: [None] is Python's [None]. *)
Definition factorize_flock (flocking : list bool)
  : result (option Flock.FuncInterp) :=
  asserts ← flock_query flocking;
  match check asserts with
  | Z3.Sat m =>
      let classifier := Flock.s m in
      if negb (Nat.eqb (Flock.num_entries classifier) 1)
      then Ok None
      else Ok (Some classifier)
  | _ => Ok None
  end.

(** The candidate list of [find_flockings]. *)
Definition flocking_candidates (e : nat) : list (list bool) :=
  let ran := range2 1 (2 ^ Z.of_nat e - 1) in
  let candidates := map (fun k => Bits_uint k e) ran in
  sort_by count1 candidates.

(** The loop of [find_flockings], run to exhaustion as [list(fl)] does.
    The state is the pairs yielded so far and the masks on which
    [factorize_flock] has been called, both in order. *)
Definition find_flockings_step
    (st : list (list bool * Flock.FuncInterp) * list (list bool))
    (flocking : list bool)
  : result (list (list bool * Flock.FuncInterp) * list (list bool)) :=
  r ← factorize_flock flocking;
  match r with
  | Some cl => Ok (fst st ++ [(flocking, cl)], snd st ++ [flocking])
  | None => Ok (fst st, snd st ++ [flocking])
  end.

Definition find_flockings_trace (sensitivity : list tag)
  : result (list (list bool * Flock.FuncInterp) * list (list bool)) :=
  let e := entropy sensitivity in
  rfold find_flockings_step (flocking_candidates e) ([], []).

Definition find_flockings (sensitivity : list tag)
  : result (list (list bool * Flock.FuncInterp)) :=
  r ← find_flockings_trace sensitivity; Ok (fst r).

End FlockFactorizer.

Module Affine.

Record model : Type := {
  Y : Z -> Z;
  a : Z;
  b : Z;
}.

Inductive assertion : Type :=
| YFact (x y : Z)        (* Y[x] == IntVal(y) *)
| AffineLaw (width : Z). (* ForAll(x, Y[x] == BV2Int(x)*a + b) *)

Definition holds (m : model) (c : assertion) : bool :=
  match c with
  | YFact x y => Y m x =? y
  | AffineLaw width =>
      forallb (fun x => Y m x =? x * a m + b m) (range (2 ^ width))
  end.

Definition solver : Type := list assertion -> Z3.answer model.

(** A model handed out with [sat] satisfies what was asserted. *)
Definition sound (check : solver) : Prop :=
  forall asserts m, check asserts = Z3.Sat m ->
    forallb (holds m) asserts = true.

End Affine.

(** The fields of [ShapeAnalysis] that [formulaFor] reads. *)
Record ShapeAnalysis : Type := {
  P : list (option Z);
  SA_OPS : list (option (list Z));
  SA_entropy : nat;
  section : list (list bool);    (* list(self.specimens.values()) *)
  varBitPositions : list Z;
}.

(** [specimenEncodingOfShape(shapeN)]. *)
Definition specimenEncodingOfShape (self : ShapeAnalysis) (shapeN : Z)
  : result (list bool) :=
  thisShapeSpecimen ← py_getitem (section self) shapeN;
  let aaa := rev thisShapeSpecimen in
  rmap (fun k => py_getitem aaa k) (varBitPositions self).

(** [next(filter(lambda j: self.P[j]==shapeN, f))]: the first member of the
    fiber that has the shape, [None] for StopIteration. *)
Fixpoint first_of_shape (table : list (option Z)) (shapeN : Z) (fib : list Z)
  : result (option Z) :=
  match fib with
  | [] => Ok None
  | j :: rest =>
      sj ← py_getitem table j;
      if bool_decide (sj = Some shapeN) then Ok (Some j)
      else first_of_shape table shapeN rest
  end.

(** ** The calls that [formulaFor] makes on a [SensitivityList] *)





Section OperandFormulaSynthesizer.

Variable check : Affine.solver.



(** What the affine-fit solver has been told when [check()] is called:
    the recorded points, then the law. *)
Definition affine_query (recorded : list (Z * Z)) (width : Z)
  : list Affine.assertion :=
  map (fun xy => Affine.YFact (fst xy) (snd xy)) recorded
  ++ [Affine.AffineLaw width].

(** The end of [formulaFor]: the law is added, the solver is asked, and
    the verdict decides between [raise Error()] and the formula. *)
Definition fit_verdict (desc : string) (recorded : list (Z * Z)) (width : Z)
  : result (string * Z * Z) :=
  match check (affine_query recorded width) with
  | Z3.Sat m => Ok (desc, Affine.a m, Affine.b m)
  | _ => Raise ErrorRaised
  end.



End OperandFormulaSynthesizer.


(** ** Histories of a sensitivity list *)

(** [resolves sl ws sl']: making the assignments [ws] one after the other
    leads from [sl] to [sl'], and each of them replaces a ['?'] by a
    letter other than ['?']. *)
Inductive resolves : list tag -> list write -> list tag -> Prop :=
| resolves_done sl : resolves sl [] sl
| resolves_write sl i t ws sl' :
    sl !! i = Some Unknown ->
    t <> Unknown ->
    resolves (<[i:=t]> sl) ws sl' ->
    resolves sl ((i, t) :: ws) sl'.

(** Tables used as running examples: [P(00)=P(01)=0, P(10)=P(11)=1], and
    the three-bit table [b2 AND b0]. *)
Definition table_of (l : list Z) : Z -> result (option Z) :=
  fun k => y ← py_getitem l k; Ok (Some y).

Definition tableA : list Z := [0; 0; 1; 1].
Definition tableB : list Z := [0; 0; 0; 0; 0; 1; 0; 1].

Definition factsA : session := [(0, 0); (1, 0); (2, 1); (3, 1)].

(** Two operand tables over the same four encodings and shapes 0, 0, 1, 1.
    In the first, encoding 1 (of shape 0) has the operand value -1 and
    encodings 2 and 3 have another shape; the projection is taken for
    shape 0 and operand slot 0. *)
Definition projA : OperandProjection :=
  {| OPS := [Some [7]; Some [-1]; Some [3]; Some [4]];
     SHAPES := [Some 0; Some 0; Some 1; Some 1];
     correctShape := 0;
     opIndex := 0 |}.

(** A solver that is handed the models to try: it answers [sat] with the
    first one that satisfies every assertion, and gives up otherwise. *)
Definition flock_try (candidates : list Flock.model) : Flock.solver :=
  fun asserts =>
    match find (fun m => forallb (Flock.holds m) asserts) candidates with
    | Some m => Z3.Sat m
    | None => Z3.Unknown
    end.

(** Shapes over two relevant bits, [shape = 2*b1 + (1 if b0 else 0)] seen
    as a catalog, and a model for the mask 01 (left = b1, right = b0). *)
Definition shapeTagsC : gmap (list bool) Z :=
  <[ [false; false] := 0 ]> (<[ [false; true] := 1 ]>
  (<[ [true; false] := 2 ]> (<[ [true; true] := 3 ]> ∅))).

Definition modelC : Flock.model :=
  {| Flock.sh := fun l r => 2 * l + r;
     Flock.f := fun tl sr => 2 * tl + (if sr then 1 else 0);
     Flock.t := fun l => l;
     Flock.s := {| Flock.entries := [(1, true)]; Flock.else_value := false |} |}.

Definition modelC' : Flock.model :=
  {| Flock.sh := fun l r => 2 * r + l;
     Flock.f := fun tl sr => tl + (if sr then 2 else 0);
     Flock.t := fun l => l;
     Flock.s := {| Flock.entries := [(0, false); (1, true)];
                   Flock.else_value := false |} |}.

Definition checkC : Flock.solver := flock_try [modelC; modelC'].

(** The field-spec element of a resolved letter. *)
Definition element_of (t : tag) : FieldSpecElement :=
  match t with
  | Relevant => FreeBits 1
  | _ => FixedBits [false]
  end.

(** The slice of a bit string against letters given most significant
    first, which is how [filterRelevantMembers] pairs them up. *)
Definition slice_msb (tags : list tag) (bits : list bool) : list bool :=
  map snd (filter (fun rel_bit => fst rel_bit = Relevant) (zip tags bits)).


(** The brute-force ground truth of the design document: bit [i] of a
    [W]-bit table [P] is irrelevant when any two encodings that agree on
    all bits except possibly [i] have the same shape. *)
Definition bit_irrelevant (W : Z) (P : Z -> Z) (i : Z) : Prop :=
  forall v1 v2, 0 <= v1 < 2 ^ W -> 0 <= v2 < 2 ^ W ->
    (forall j, 0 <= j < W -> j <> i -> Z.testbit v1 j = Z.testbit v2 j) ->
    P v1 = P v2.

(** ** Notions and stand-ins used in the statements *)


(** An affine-fit procedure: the first two recorded points fix the only
    possible slope and intercept, which is then checked against everything
    asserted. *)
Definition facts_of (asserts : list Affine.assertion) : list (Z * Z) :=
  omap (fun c => match c with
                 | Affine.YFact x y => Some (x, y)
                 | Affine.AffineLaw _ => None
                 end) asserts.

Definition affine_guess (pts : list (Z * Z)) : Z * Z :=
  match pts with
  | (x0, y0) :: (x1, y1) :: _ =>
      let a := (y1 - y0) / (x1 - x0) in (a, y0 - a * x0)
  | [(x0, y0)] => (0, y0)
  | [] => (0, 0)
  end.

Definition affine_fit : Affine.solver :=
  fun asserts =>
    let ab := affine_guess (facts_of asserts) in
    let m := {| Affine.Y := fun x => x * fst ab + snd ab;
                Affine.a := fst ab; Affine.b := snd ab |} in
    if forallb (Affine.holds m) asserts then Z3.Sat m else Z3.Unsat.



(** A catalog over three relevant bits that decomposes along the mask 010
    (left group: bits 2 and 0, right group: bit 1): the shape is 0 where
    bit 1 is clear and [1 + 2*b2 + b0] where it is set; and a model of the
    flock query for that mask. *)
Definition shapeE (pat : list bool) : Z :=
  match pat with
  | [b2; b1; b0] =>
      if b1 then 1 + 2 * Z.b2z b2 + Z.b2z b0 else 0
  | _ => 0
  end.

Definition shapeTagsE : gmap (list bool) Z :=
  list_to_map (map (fun pat => (pat, shapeE pat)) (all_bits 3)).

Definition modelE : Flock.model :=
  {| Flock.sh := fun l r => if r =? 1 then 1 + l else 0;
     Flock.f := fun tl sr => if sr then 1 + tl else 0;
     Flock.t := fun l => l;
     Flock.s := {| Flock.entries := [(1, true)]; Flock.else_value := false |} |}.

Definition checkE : Flock.solver := flock_try [modelE].

(** ** Further notions used to state properties of the code *)

(** Two tables split the encodings below [2^W] into the same classes. *)
Definition same_partition (W : Z) (P Q : Z -> Z) : Prop :=
  forall v1 v2, 0 <= v1 < 2 ^ W -> 0 <= v2 < 2 ^ W ->
                (P v1 = P v2 <-> Q v1 = Q v2).

(** A table has a readable integer at every encoding below [2^W]. *)
Definition total_table (W : Z) (p : Z -> result (option Z)) : Prop :=
  forall k, 0 <= k < 2 ^ W -> exists y, p k = Ok (Some y).

(** The bits of [b] below position [k] followed by the bits of [a] from
    [k] on. *)
Definition splice (a b k : Z) : Z :=
  Z.lor (Z.land b (Z.ones k)) (Z.ldiff a (Z.ones k)).

(** Interleaving two bit strings along a mask, on plain lists: where the
    mask is set the next bit comes from the right string, elsewhere from
    the left one. *)
Fixpoint interleave (mask ls rs : list bool) : list bool :=
  match mask with
  | [] => []
  | true :: m =>
      match rs with
      | r :: rs' => r :: interleave m ls rs'
      | [] => []
      end
  | false :: m =>
      match ls with
      | l :: ls' => l :: interleave m ls' rs
      | [] => []
      end
  end.

(** The bits that a closed bit-vector argument denotes, most significant
    first. *)
Definition bits_of_obj (o : bvobj) : list bool :=
  match o with
  | Empty => []
  | Term e => Bits_uint (Z3.eval Z3.no_vars e) (Z.to_nat (Z3.size e))
  end.

(** A bit-vector argument as Z3 can hold it: at least one bit, and a value
    that fits its size. *)
Definition fits (o : bvobj) : Prop :=
  match o with
  | Empty => True
  | Term e =>
      1 <= Z3.size e
      /\ forall k, Z3.size e <= k -> Z.testbit (Z3.eval Z3.no_vars e) k = false
  end.

(** The catalog key that [factorize_flock] computes for a pair: mingle,
    simplify, read as a number, turn into [Bits]. *)
Definition flock_key (flocking : list bool) (lBits rBits l r : Z)
  : result (list bool) :=
  yx ← mingle (Term (Z3.BitVecVal l lBits)) (Term (Z3.BitVecVal r rBits))
              flocking;
  sy ← simplify_obj yx;
  iyx ← Z3.as_long sy;
  Ok (Bits_uint iyx (Z.to_nat (lBits + rBits))).

(** The bits of a pattern that sit where the mask equals [side], in
    order: what a pattern holds for the right group ([side = true]) or
    for the left group ([side = false]). *)
Definition pick (mask pat : list bool) (side : bool) : list bool :=
  map snd (filter (fun mb => fst mb = side) (zip mask pat)).

(** ** More of vexshape.py *)

(** [varBitPositionsFrom(spec, soFar, msb)]: a string element moves [msb]
    down by its length; an integer element puts its positions in front of
    [soFar]. *)
Fixpoint varBitPositionsFrom (spec : list FieldSpecElement) (soFar : list Z)
    (msb : Z) : list Z :=
  match spec with
  | [] => soFar
  | FixedBits car :: rest =>
      varBitPositionsFrom rest soFar (msb - Z.of_nat (length car))
  | FreeBits car :: rest =>
      let l := map (fun pos => msb - pos) (range (Z.of_nat car)) ++ soFar in
      varBitPositionsFrom rest l (msb - Z.of_nat car)
  end.

(** [computeVarBitPositions]: the positions sorted and then reversed;
    [self.entropy] is their number. *)
Definition computeVarBitPositions (spec : list FieldSpecElement) : list Z :=
  rev (merge_sort Z.le (varBitPositionsFrom spec [] 31)).

Definition spec_entropy (spec : list FieldSpecElement) : nat :=
  length (computeVarBitPositions spec).

(** [variableSlice(full)]: the characters ['1'] and ['0'] are the booleans
    here, so the joined string is a list of them. *)
Definition variableSlice (varBitPositions : list Z) (full : list bool)
  : result (list bool) :=
  rmap (fun i => py_getitem full (31 - i)) varBitPositions.

(** [relevantBitPositions()]. *)
Definition relevantBitPositions (sensitivity : list tag)
    (varBitPositions : list Z) : list Z :=
  filterRelevantMembers sensitivity varBitPositions.

(** The number of free bits of a field spec, its length in bits, and the
    positions of its free bits counted down from [msb], most significant
    first. *)
Fixpoint free_bits (spec : list FieldSpecElement) : nat :=
  match spec with
  | [] => 0
  | FixedBits _ :: rest => free_bits rest
  | FreeBits n :: rest => n + free_bits rest
  end.

Fixpoint spec_length (spec : list FieldSpecElement) : nat :=
  match spec with
  | [] => 0
  | FixedBits bits :: rest => length bits + spec_length rest
  | FreeBits n :: rest => n + spec_length rest
  end.

Fixpoint free_positions (spec : list FieldSpecElement) (msb : Z) : list Z :=
  match spec with
  | [] => []
  | FixedBits bits :: rest => free_positions rest (msb - Z.of_nat (length bits))
  | FreeBits n :: rest =>
      map (fun pos => msb - pos) (range (Z.of_nat n))
      ++ free_positions rest (msb - Z.of_nat n)
  end.

(** The bits that an encoding holds in the free fields of a spec, field by
    field from the most significant end. *)
Fixpoint free_part (spec : list FieldSpecElement) (enc : list bool)
  : list bool :=
  match spec with
  | [] => []
  | FixedBits bits :: rest => free_part rest (drop (length bits) enc)
  | FreeBits n :: rest => take n enc ++ free_part rest (drop n enc)
  end.

(** [l[k] = v] on a Python list. *)
Definition py_setitem {A} (l : list A) (k : Z) (v : A) : result (list A) :=
  let n := Z.of_nat (length l) in
  let k' := if k <? 0 then k + n else k in
  if (0 <=? k') && (k' <? n)
  then Ok (<[Z.to_nat k' := v]> l)
  else Raise IndexError.

(** What the collecting loop of [phase0_VEX] reads from one result: the
    encoding, the signature string [str((ty,sig))] and the flattened
    operands. *)
Record sweep_result : Type := {
  r_encoding : list bool;
  r_sig : string;
  r_ops : list Z;
}.

(** The fields that the loop updates. [specimens] is a dictionary whose
    order of insertion matters ([section] lists its values), so it is a
    list of pairs, new keys at the end. *)
Record sweep_state : Type := {
  st_specimens : list (string * list bool);
  st_shapes : gmap Z string;
  st_shapeIndices : gmap string Z;
  st_P : list (option Z);
  st_OPS : list (option (list Z));
  st_k : Z;
}.

Definition in_specimens (sig : string) (specimens : list (string * list bool))
  : bool :=
  bool_decide (sig ∈ specimens.*1).

(** The start of [phase0_VEX]. *)
Definition sweep_init (entropy : nat) : sweep_state :=
  {| st_specimens := [];
     st_shapes := ∅;
     st_shapeIndices := ∅;
     st_P := replicate (Z.to_nat (2 ^ Z.of_nat entropy)) None;
     st_OPS := replicate (Z.to_nat (2 ^ Z.of_nat entropy)) None;
     st_k := 0 |}.

Section Sweep.

(** [int(self.variableSlice(encoding), 2)]: the index of an encoding in
    the tables. It is kept abstract so that what follows does not depend
    on how the digits are read. *)
Variable encodingInt : list bool -> result Z.

(** The body of the loop over the results. *)
Definition sweep_step (st : sweep_state) (res : sweep_result)
  : result sweep_state :=
  let thisSig := r_sig res in
  let st1 :=
    if negb (in_specimens thisSig (st_specimens st))
    then {| st_specimens := st_specimens st ++ [(thisSig, r_encoding res)];
            st_shapes := <[st_k st := thisSig]> (st_shapes st);
            st_shapeIndices := <[thisSig := st_k st]> (st_shapeIndices st);
            st_P := st_P st;
            st_OPS := st_OPS st;
            st_k := st_k st + 1 |}
    else st in
  i ← encodingInt (r_encoding res);
  match st_shapeIndices st1 !! thisSig with
  | None => Raise KeyError
  | Some shape =>
      P' ← py_setitem (st_P st1) i (Some shape);
      OPS' ← py_setitem (st_OPS st1) i (Some (r_ops res));
      Ok {| st_specimens := st_specimens st1;
            st_shapes := st_shapes st1;
            st_shapeIndices := st_shapeIndices st1;
            st_P := P';
            st_OPS := OPS';
            st_k := st_k st1 |}
  end.

(** The loop of [phase0_VEX] over the results, in the order they were
    submitted. *)
Definition sweep_collect (entropy : nat) (results : list sweep_result)
  : result sweep_state :=
  rfold sweep_step results (sweep_init entropy).

End Sweep.

(** [section]: the values of [specimens] in order of insertion. *)
Definition section_of (st : sweep_state) : list (list bool) :=
  (st_specimens st).*2.

(** [isRegular()] and [isFork()]. *)
Definition isRegular (st : sweep_state) : bool :=
  Nat.eqb (size (st_shapes st)) 1.
Definition isFork (st : sweep_state) : bool :=
  Nat.eqb (size (st_shapes st)) 2.

(** [phase1_shapes]: the catalog [shapeTags] and the sets [tagSets]. The
    encodings come from the enumerator on the field spec of the
    sensitivity list. *)
Definition catalog_step (sl : list tag) (table : list (option Z))
    (st : gmap (list bool) Z * gmap Z (gset (list bool)))
    (varPossibility : list bool)
  : result (gmap (list bool) Z * gmap Z (gset (list bool))) :=
  let sigBits := significantSlice sl varPossibility in
  shapeNum ← py_getitem table (uint varPossibility);
  match shapeNum with
  | None => Raise KeyError          (* tagSets[None] *)
  | Some n =>
      match snd st !! n with
      | None => Raise KeyError
      | Some tags =>
          Ok (<[sigBits := n]> (fst st), <[n := tags ∪ {[sigBits]}]> (snd st))
      end
  end.

Definition phase1_shapes (nshapes : nat) (sl : list tag)
    (table : list (option Z))
  : result (gmap (list bool) Z * gmap Z (gset (list bool))) :=
  let tagSets : gmap Z (gset (list bool)) :=
    list_to_map (map (fun k => (k, ∅)) (range (Z.of_nat nshapes))) in
  fs ← asFieldSpec sl;
  rfold (catalog_step sl table) (encodingspec_to_iter fs) (∅, tagSets).

(** Two results land on different table indices. *)
Definition apart (encodingInt : list bool -> result Z)
    (r1 r2 : sweep_result) : Prop :=
  forall i1 i2, encodingInt (r_encoding r1) = Ok i1 ->
                encodingInt (r_encoding r2) = Ok i2 -> i1 <> i2.

(** What the collecting loop keeps true, [seen] being the results handled
    so far. *)
Record sweep_inv (encodingInt : list bool -> result Z)
    (st : sweep_state) (seen : list sweep_result) : Prop := {
  inv_keys : NoDup (st_specimens st).*1;
  inv_k : st_k st = Z.of_nat (length (st_specimens st));
  inv_size : size (st_shapes st) = length (st_specimens st);
  inv_shapes : forall j sig,
    st_shapes st !! j = Some sig
    <-> 0 <= j /\ (st_specimens st).*1 !! Z.to_nat j = Some sig;
  inv_indices : forall j sig,
    st_shapeIndices st !! sig = Some j <-> st_shapes st !! j = Some sig;
  inv_tables : forall r, r ∈ seen ->
    exists i j, encodingInt (r_encoding r) = Ok i /\ 0 <= i
                /\ st_shapeIndices st !! r_sig r = Some j
                /\ py_getitem (st_P st) i = Ok (Some j)
                /\ py_getitem (st_OPS st) i = Ok (Some (r_ops r));
  inv_specimens : forall sig enc, (sig, enc) ∈ st_specimens st ->
    exists r, r ∈ seen /\ r_encoding r = enc /\ r_sig r = sig;
}.

(** A sweep over two variable bits (positions 1 and 0 of 32-bit
    encodings) with two signatures. *)
Definition sweepA : list sweep_result :=
  [ {| r_encoding := Bits_uint 0 32; r_sig := "a"; r_ops := [1] |};
    {| r_encoding := Bits_uint 1 32; r_sig := "a"; r_ops := [2] |};
    {| r_encoding := Bits_uint 2 32; r_sig := "b"; r_ops := [3] |};
    {| r_encoding := Bits_uint 3 32; r_sig := "b"; r_ops := [4] |} ].

Definition encodingIntA (encoding : list bool) : result Z :=
  s ← variableSlice [1; 0] encoding; Ok (uint s).

(** What the loop of [phase1_shapes] keeps true, [seen] being the
    encodings handled so far. *)
Record catalog_inv (nshapes : nat) (sl : list tag) (table : list (option Z))
    (st : gmap (list bool) Z * gmap Z (gset (list bool)))
    (seen : list (list bool)) : Prop := {
  cat_tags : forall pat n,
    fst st !! pat = Some n
    <-> exists enc, enc ∈ seen /\ significantSlice sl enc = pat
                    /\ py_getitem table (uint enc) = Ok (Some n);
  cat_ids : forall n, is_Some (snd st !! n) <-> 0 <= n < Z.of_nat nshapes;
  cat_sets : forall n pat,
    (exists tags, snd st !! n = Some tags /\ pat ∈ tags)
    <-> fst st !! pat = Some n;
  cat_seen : forall enc,
    enc ∈ seen -> is_Some (fst st !! significantSlice sl enc);
}.

(** The table [P] of a sweep over two variable bits whose upper bit picks
    the shape. *)
Definition tablePA : list (option Z) := [Some 0; Some 0; Some 1; Some 1].

(** What the collecting loop keeps true of the signatures alone. *)
Record sigs_inv (st : sweep_state) (seen : list sweep_result) : Prop := {
  sg_keys : NoDup (st_specimens st).*1;
  sg_k : st_k st = Z.of_nat (length (st_specimens st));
  sg_size : size (st_shapes st) = length (st_specimens st);
  sg_ids : forall j, is_Some (st_shapes st !! j) -> 0 <= j < st_k st;
  sg_seen : forall sig,
    sig ∈ (st_specimens st).*1 <-> sig ∈ map r_sig seen;
}.

(** ** The visitors of VEX terms *)

(** The nodes of a lifted block as the visitors see them: the class of a
    node and the attributes that [termShape] and [termConstants] read.
    [OtherNode] stands for a node of any class for which the visitors
    have no method. *)
#[warnings="-register-all"]
Inductive irnode : Type :=
| IMark (addr len delta : Z)
| WrTmp (tmp : Z) (data : irnode)
| Put (data : irnode) (offset : Z)
| Get (offset : Z) (ty : string)
| Binop (op : string) (args : list irnode)
| Unop (op : string) (args : list irnode)
| RdTmp (tmp : Z)
| Const (con : irnode)
| U32 (value : Z)
| Exit (guard dst : irnode) (jk : string) (offsIP : Z)
| OtherNode (name : string).

(** The Python values the visitors build. *)
#[warnings="-register-all"]
Inductive pyval : Type :=
| PNone
| PInt (z : Z)
| PStr (s : string)
| PList (items : list pyval)
| PTuple (items : list pyval).

(** [x != None]. *)
Definition not_None (x : pyval) : bool :=
  match x with PNone => false | _ => true end.

(** [termConstants]: dispatch on the class name to [ConstExtractor]; a
    class without a method there makes [getattr] raise. The depth of the
    recursion is the depth of the term; the interpreter's bound on it is
    not modelled. *)
Fixpoint termConstants (irNode : irnode) : result pyval :=
  match irNode with
  | IMark addr len delta => Ok (PList [PInt addr; PInt len; PInt delta])
  | WrTmp _ data => termConstants data
  | Put _ offset => Ok (PInt offset)
  | Get offset _ => Ok (PInt offset)
  | Binop _ args =>
      evenNones ← rmap termConstants args;
      Ok (PList (filter (fun x => not_None x = true) evenNones))
  | Unop _ args =>
      evenNones ← rmap termConstants args;
      Ok (PList (filter (fun x => not_None x = true) evenNones))
  | RdTmp _ => Ok (PList [])
  | Const con => termConstants con
  | U32 value => Ok (PInt value)
  | Exit _ _ _ _ => Ok (PInt 7777777)
  | OtherNode _ => Raise AttributeError
  end.

Section ShapeDeterminant.

(** [CenteredDot] comes from a module outside the files at hand; nothing
    below depends on which value it is. *)
Variable CenteredDot : pyval.

(** [termShape]: dispatch on the class name to [ShapeDeterminant]. *)
Fixpoint termShape (irNode : irnode) : result pyval :=
  match irNode with
  | IMark _ _ _ =>
      Ok (PTuple [PStr "IMark"; CenteredDot; CenteredDot; CenteredDot])
  | WrTmp tmp data =>
      s ← termShape data; Ok (PTuple [PStr "WrTmp"; PInt tmp; s])
  | Put data _ =>
      s ← termShape data; Ok (PTuple [PStr "Put"; CenteredDot; s])
  | Get _ ty => Ok (PTuple [PStr "Get"; PStr ty; CenteredDot])
  | Binop op args =>
      opArgs ← rmap termShape args;
      Ok (PTuple ([PStr "Binop"; PStr op] ++ opArgs))
  | Unop op args =>
      opArgs ← rmap termShape args;
      Ok (PTuple ([PStr "Unop"; PStr op] ++ opArgs))
  | RdTmp tmp => Ok (PTuple [PStr "RdTmp"; PInt tmp])
  | Const con => s ← termShape con; Ok (PTuple [PStr "Const"; s])
  | U32 _ => Ok (PTuple [PStr "U32"; CenteredDot])
  | Exit guard dst jk _ =>
      guard' ← termShape guard;
      dst' ← termShape dst;
      Ok (PTuple [PStr "Exit"; guard'; dst'; PStr jk; CenteredDot])
  | OtherNode _ => Raise AttributeError
  end.

End ShapeDeterminant.

(** [flatten]: the items of nested lists and tuples, left to right. *)
Fixpoint flatten_item (item : pyval) : list pyval :=
  match item with
  | PList l => flat_map flatten_item l
  | PTuple l => flat_map flatten_item l
  | _ => [item]
  end.

Definition flatten (l : list pyval) : list pyval := flat_map flatten_item l.

(** What [vexSignature] computes from the statements of the lifted block:
    the shapes of the statements and their flattened constants. (The
    lifting itself, the encoding and the type environment, which are
    handed through, are left out.) *)
Definition vexSignature (CenteredDot : pyval) (statements : list irnode)
  : result (list pyval * list pyval) :=
  sig ← rmap (termShape CenteredDot) statements;
  ops ← rmap termConstants statements;
  Ok (sig, flatten ops).

(** Two lists agree pointwise under a test. *)
Fixpoint forall2b {A} (f : A -> A -> bool) (l1 l2 : list A) : bool :=
  match l1, l2 with
  | [], [] => true
  | x :: r1, y :: r2 => f x y && forall2b f r1 r2
  | _, _ => false
  end.

(** Two terms differ only in their leaf constants: the fields of an
    [IMark], the offsets of [Get] and [Put], the value of a [U32] and the
    offset of an [Exit]. Terms with a node the visitors do not handle are
    not compared. *)
Fixpoint differ_only_in_constants (t1 t2 : irnode) : bool :=
  match t1, t2 with
  | IMark _ _ _, IMark _ _ _ => true
  | WrTmp tmp1 d1, WrTmp tmp2 d2 =>
      bool_decide (tmp1 = tmp2) && differ_only_in_constants d1 d2
  | Put d1 _, Put d2 _ => differ_only_in_constants d1 d2
  | Get _ ty1, Get _ ty2 => bool_decide (ty1 = ty2)
  | Binop op1 args1, Binop op2 args2 =>
      bool_decide (op1 = op2) && forall2b differ_only_in_constants args1 args2
  | Unop op1 args1, Unop op2 args2 =>
      bool_decide (op1 = op2) && forall2b differ_only_in_constants args1 args2
  | RdTmp tmp1, RdTmp tmp2 => bool_decide (tmp1 = tmp2)
  | Const c1, Const c2 => differ_only_in_constants c1 c2
  | U32 _, U32 _ => true
  | Exit g1 d1 jk1 _, Exit g2 d2 jk2 _ =>
      differ_only_in_constants g1 g2 && differ_only_in_constants d1 d2
      && bool_decide (jk1 = jk2)
  | _, _ => false
  end.

(** A term without leaf constants. *)
Fixpoint constant_free (t : irnode) : bool :=
  match t with
  | WrTmp _ d => constant_free d
  | Binop _ args => forallb constant_free args
  | Unop _ args => forallb constant_free args
  | RdTmp _ => true
  | Const c => constant_free c
  | _ => false
  end.

(** A term all of whose leaf constants [termConstants] reaches: no
    [Exit], and nothing but constant-free data under a [Put]. *)
Fixpoint transparent (t : irnode) : bool :=
  match t with
  | IMark _ _ _ => true
  | WrTmp _ d => transparent d
  | Put d _ => constant_free d
  | Get _ _ => true
  | Binop _ args => forallb transparent args
  | Unop _ args => forallb transparent args
  | RdTmp _ => true
  | Const c => transparent c
  | U32 _ => true
  | Exit _ _ _ _ => false
  | OtherNode _ => false
  end.

(** [isinstance(x, int)]. *)
Definition is_int (x : pyval) : bool :=
  match x with PInt _ => true | _ => false end.

(** The statements of [addis RT, RA, D] at two register and immediate
    choices, in the form the lifter gives them. *)
Definition addis (ra d rt : Z) : list irnode :=
  [ IMark 4096 4 0;
    WrTmp 0 (Binop "Iop_Add32" [Get ra "Ity_I32"; Const (U32 d)]);
    Put (RdTmp 0) rt ].

Definition dotA : pyval := PStr ".".

(** The class name on which the visitors dispatch. *)
Definition class_name (t : irnode) : string :=
  match t with
  | IMark _ _ _ => "IMark"
  | WrTmp _ _ => "WrTmp"
  | Put _ _ => "Put"
  | Get _ _ => "Get"
  | Binop _ _ => "Binop"
  | Unop _ _ => "Unop"
  | RdTmp _ => "RdTmp"
  | Const _ => "Const"
  | U32 _ => "U32"
  | Exit _ _ _ _ => "Exit"
  | OtherNode name => name
  end.

(** Neither a list nor a tuple. *)
Definition is_leaf (x : pyval) : bool :=
  match x with PList _ | PTuple _ => false | _ => true end.

(** * Properties *)

(** ** The error monad *)

Lemma bind_Ok {A B} (r : result A) (k : A -> result B) (b : B) :
  (r ≫= k) = Ok b -> exists a, r = Ok a /\ k a = Ok b.
Proof. destruct r as [a|e]; [eauto | discriminate]. Qed.


Lemma rmap_Ok_lookup {A B} (f : A -> result B) xs ys i x :
  rmap f xs = Ok ys -> xs !! i = Some x ->
  exists y, ys !! i = Some y /\ f x = Ok y.
Proof.
  revert ys i. induction xs as [|x0 xs IH]; intros ys i H Hi; [done|].
  simpl in H.
  apply bind_Ok in H as (y & Hy & H). apply bind_Ok in H as (ys' & Hys & H).
  inversion H; subst. destruct i as [|i]; simpl in *.
  - inversion Hi; subst. eauto.
  - eauto.
Qed.

Lemma rmap_total {A B} (f : A -> result B) (g : A -> B) xs :
  (forall x, x ∈ xs -> f x = Ok (g x)) -> rmap f xs = Ok (map g xs).
Proof.
  induction xs as [|x xs IH]; intros H; [done|].
  simpl. rewrite (H x) by set_solver. simpl.
  rewrite IH by (intros; apply H; set_solver). done.
Qed.


(** ** Counting letters *)

Lemma filter_length_count_occ (t : tag) (sl : list tag) :
  length (filter (fun x => x = t) sl) = count_occ tag_eq_dec sl t.
Proof.
  induction sl as [|u sl IH]; [done|].
  rewrite filter_cons. simpl.
  destruct (decide (u = t)) as [->|Hne].
  - destruct (tag_eq_dec t t); [|done]. simpl. by rewrite IH.
  - destruct (tag_eq_dec u t); [done|]. by rewrite IH.
Qed.

Lemma letters_partition (sl : list tag) :
  (entropy sl + count_occ tag_eq_dec sl Irrelevant + unknowns sl)%nat
  = length sl.
Proof.
  unfold entropy, unknowns. rewrite !filter_length_count_occ.
  induction sl as [|u sl IH]; [done|].
  simpl. destruct u; simpl;
    repeat (match goal with |- context [tag_eq_dec ?a ?b] =>
              destruct (tag_eq_dec a b); try discriminate end); simpl; lia.
Qed.

(** C7. For every sensitivity list, [entropy] is the number of relevant
    letters; [isInsensitive] answers true exactly when the entropy is 0;
    and when no letter is unknown, the entropy is the width minus the
    number of irrelevant letters. *)
Theorem entropy_counts_relevant (sl : list tag) :
  entropy sl = count_occ tag_eq_dec sl Relevant
  /\ (isInsensitive sl = true <-> entropy sl = 0%nat)
  /\ (unknowns sl = 0%nat ->
      entropy sl = (length sl - count_occ tag_eq_dec sl Irrelevant)%nat).
Proof.
  split; [apply filter_length_count_occ|]. split.
  - unfold isInsensitive. apply Nat.eqb_eq.
  - intros Hu. pose proof (letters_partition sl). lia.
Qed.

Lemma entropy_counts_relevant_witness :
  unknowns [Relevant; Irrelevant; Relevant] = 0%nat
  /\ entropy [Relevant; Irrelevant; Relevant]
     = (length [Relevant; Irrelevant; Relevant]
        - count_occ tag_eq_dec [Relevant; Irrelevant; Relevant] Irrelevant)%nat.
Proof.
  split; [reflexivity|].
  apply (proj2 (proj2 (entropy_counts_relevant [Relevant; Irrelevant; Relevant]))).
  reflexivity.
Defined.

(** ** The resolution loop *)

Lemma probeIrrelevant_length facts (sl1 sl2 : list tag) i :
  length sl1 = length sl2 ->
  probeIrrelevant facts sl1 i = probeIrrelevant facts sl2 i.
Proof. intros H. unfold probeIrrelevant. by rewrite H. Qed.

Lemma unknowns_0 (sl : list tag) :
  unknowns sl = 0%nat <-> Forall (fun t => t <> Unknown) sl.
Proof.
  unfold unknowns. induction sl as [|t sl IH]; [by split; [constructor|]|].
  rewrite filter_cons. destruct (decide (t = Unknown)) as [->|Hne]; simpl.
  - split; [lia|]. intros H. by inversion H.
  - rewrite IH. split; [by constructor|]. intros H. by inversion H.
Qed.

Lemma unknowns_insert (sl : list tag) i t :
  sl !! i = Some Unknown -> t <> Unknown ->
  unknowns sl = S (unknowns (<[i:=t]> sl)).
Proof.
  unfold unknowns. revert i. induction sl as [|u sl IH]; intros i Hi Ht; [done|].
  destruct i as [|i]; simpl in *.
  - inversion Hi; subst. rewrite !filter_cons.
    destruct (decide (Unknown = Unknown)); [|done].
    destruct (decide (t = Unknown)); [done|]. done.
  - rewrite !filter_cons. destruct (decide (u = Unknown)); simpl;
      rewrite (IH i Hi Ht); done.
Qed.

(** What a finished run of the loop has done: everything is resolved, each
    assignment went to a position that held ['?'] on entry and put there
    the letter of that position's probe, no position was assigned twice,
    and the letters that were already set are the same. *)
Lemma guess1_rec_spec depth facts (sl sl' : list tag) (ws : list write) :
  guess1_rec depth facts sl = Ok (sl', ws) ->
  length sl' = length sl
  /\ unknowns sl' = 0%nat
  /\ NoDup ws.*1
  /\ (forall i t, (i, t) ∈ ws ->
        sl !! i = Some Unknown /\ sl' !! i = Some t
        /\ exists x, probeIrrelevant facts sl (Z.of_nat i) = Ok x
                     /\ t = letter_of_probe x)
  /\ (forall i t, sl !! i = Some t -> t <> Unknown -> sl' !! i = Some t)
  /\ (forall i, sl !! i = Some Unknown -> i ∈ ws.*1).
Proof.
  revert sl sl' ws. induction depth as [|depth IH]; intros sl sl' ws H; simpl in H.
  - destruct (list_find _ sl) as [[i u]|] eqn:Hf; [discriminate|].
    inversion H; subst. apply list_find_None in Hf.
    split; [done|]. split; [by apply unknowns_0|]. split; [constructor|].
    split; [intros i t Hin; by apply elem_of_nil in Hin|].
    split; [done|].
    intros i Hi. rewrite Forall_forall in Hf.
    exfalso. apply (Hf Unknown); [|done].
    eapply list_elem_of_lookup_2; eauto.
  - destruct (list_find _ sl) as [[i u]|] eqn:Hf.
    + apply list_find_Some in Hf as (Hi & -> & Hfirst).
      apply bind_Ok in H as (x & Hx & H).
      apply bind_Ok in H as ([sl1 ws1] & Hrec & H).
      inversion H; subst; clear H. simpl.
      set (t := letter_of_probe x) in *.
      assert (Ht : t <> Unknown) by (subst t; by destruct x).
      assert (Hlt : (i < length sl)%nat) by (by eapply lookup_lt_Some).
      apply IH in Hrec as (Hlen & Hres & Hnd & Hws & Hkeep & Hall).
      rewrite length_insert in Hlen.
      assert (Hi' : sl' !! i = Some t).
      { apply Hkeep; [|done]. by apply list_lookup_insert_eq. }
      split; [done|]. split; [done|]. split.
      { constructor; [|done]. intros Hin.
        apply list_elem_of_fmap in Hin as ([i' t'] & -> & Hin). simpl in *.
        apply Hws in Hin as (Hunk & _). 
        rewrite list_lookup_insert_eq in Hunk by done. by inversion Hunk. }
      split.
      { intros j tj Hin. apply elem_of_cons in Hin as [Heq|Hin].
        - inversion Heq; subst. split; [done|]. split; [done|]. eauto.
        - apply Hws in Hin as (Hunk & Hj & y & Hy & ->).
          destruct (decide (i = j)) as [->|Hne].
          { rewrite list_lookup_insert_eq in Hunk by done. by inversion Hunk. }
          rewrite list_lookup_insert_ne in Hunk by done.
          split; [done|]. split; [done|]. exists y. split; [|done].
          rewrite <- Hy. apply probeIrrelevant_length. by rewrite length_insert. }
      split.
      { intros j tj Hj Hne. apply Hkeep; [|done].
        destruct (decide (i = j)) as [->|Hij]; [congruence|].
        by rewrite list_lookup_insert_ne. }
      { intros j Hj. destruct (decide (i = j)) as [->|Hij]; [by apply elem_of_cons; left|].
        apply elem_of_cons. right. apply Hall.
        by rewrite list_lookup_insert_ne. }
    + inversion H; subst. apply list_find_None in Hf.
      split; [done|]. split; [by apply unknowns_0|]. split; [constructor|].
      split; [intros i t Hin; by apply elem_of_nil in Hin|].
      split; [done|].
      intros i Hi. rewrite Forall_forall in Hf.
      exfalso. apply (Hf Unknown); [|done].
      eapply list_elem_of_lookup_2; eauto.
Qed.

(** The nesting bound that [guess1] starts with is never the reason the
    loop stops: when every probe answers, the loop returns. *)
Lemma guess1_rec_returns depth facts (sl : list tag) :
  (unknowns sl <= depth)%nat ->
  (forall i, sl !! i = Some Unknown ->
     exists x, probeIrrelevant facts sl (Z.of_nat i) = Ok x) ->
  exists r, guess1_rec depth facts sl = Ok r.
Proof.
  revert sl. induction depth as [|depth IH]; intros sl Hd Hp; simpl.
  - destruct (list_find _ sl) as [[i u]|] eqn:Hf; [|eauto].
    apply list_find_Some in Hf as (Hi & -> & _).
    pose proof (unknowns_insert sl i Relevant Hi ltac:(done)). lia.
  - destruct (list_find _ sl) as [[i u]|] eqn:Hf; [|eauto].
    apply list_find_Some in Hf as (Hi & -> & _).
    destruct (Hp i Hi) as [x Hx]. rewrite Hx. simpl.
    assert (Ht : letter_of_probe x <> Unknown) by (by destruct x).
    destruct (IH (<[i:=letter_of_probe x]> sl)) as [r Hr].
    + pose proof (unknowns_insert sl i _ Hi Ht). lia.
    + intros j Hj. destruct (decide (i = j)) as [->|Hij].
      { apply lookup_lt_Some in Hi.
        rewrite list_lookup_insert_eq in Hj by done. by inversion Hj. }
      rewrite list_lookup_insert_ne in Hj by done.
      destruct (Hp j Hj) as [y Hy]. exists y. rewrite <- Hy.
      apply probeIrrelevant_length. by rewrite length_insert.
    + rewrite Hr. simpl. eauto.
Qed.

Lemma guess1_rec_resolves depth facts (sl sl' : list tag) (ws : list write) :
  guess1_rec depth facts sl = Ok (sl', ws) -> resolves sl ws sl'.
Proof.
  revert sl sl' ws. induction depth as [|depth IH]; intros sl sl' ws H; simpl in H.
  - destruct (list_find _ sl) as [[i u]|]; [discriminate|].
    inversion H; subst. constructor.
  - destruct (list_find _ sl) as [[i u]|] eqn:Hf.
    + apply list_find_Some in Hf as (Hi & -> & _).
      apply bind_Ok in H as (x & Hx & H).
      apply bind_Ok in H as ([sl1 ws1] & Hrec & H).
      inversion H; subst; clear H. simpl.
      constructor; [done|by destruct x|by apply IH].
    + inversion H; subst. constructor.
Qed.

Lemma resolves_keeps sl ws sl' :
  resolves sl ws sl' ->
  forall i t, sl !! i = Some t -> t <> Unknown -> sl' !! i = Some t.
Proof.
  induction 1 as [|sl j u ws sl' Hj Hu _ IH]; intros i t Hi Ht; [done|].
  apply IH; [|done].
  destruct (decide (j = i)) as [->|Hne]; [congruence|].
  by rewrite list_lookup_insert_ne.
Qed.

Lemma guess_keeps self p self' :
  guess self p = Ok self' ->
  forall i t, slist self !! i = Some t -> t <> Unknown ->
              slist self' !! i = Some t.
Proof.
  unfold guess. intros H i t Hi Ht.
  apply bind_Ok in H as (w & _ & H).
  apply bind_Ok in H as (facts & _ & H).
  apply bind_Ok in H as (sl' & Hg & H). inversion H; subst; clear H. simpl.
  unfold guess1 in Hg. apply bind_Ok in Hg as ([sl1 ws] & Hg & H).
  inversion H; subst; clear H. simpl.
  apply guess1_rec_resolves in Hg. eapply resolves_keeps; eauto.
Qed.

(** C8. A letter only ever goes from ['?'] to ['!'] or ['x']. When the
    resolution loop [guess1] returns, its assignments, taken in order, each
    replaced a letter that was ['?'] at that moment by ['!'] or ['x']; no
    position was assigned twice; a position that was not assigned holds
    what it held; and a letter that was already ['!'] or ['x'] is the
    same afterwards, both across [guess1] and across [guess], the only
    operations that assign letters. *)
Theorem tags_only_leave_unknown facts (sl sl' : list tag) (ws : list write) :
  guess1_trace facts sl = Ok (sl', ws) ->
  resolves sl ws sl'
  /\ NoDup ws.*1
  /\ (forall i t, (i, t) ∈ ws -> sl !! i = Some Unknown /\ t <> Unknown
                                 /\ sl' !! i = Some t)
  /\ (forall i, i ∉ ws.*1 -> sl' !! i = sl !! i)
  /\ (forall i t, sl !! i = Some t -> t <> Unknown -> sl' !! i = Some t)
  /\ (forall p self', guess {| slist := sl; solver := None |} p = Ok self' ->
        forall i t, sl !! i = Some t -> t <> Unknown ->
                    slist self' !! i = Some t).
Proof.
  unfold guess1_trace. intros H.
  pose proof (guess1_rec_resolves _ _ _ _ _ H) as Hres.
  apply guess1_rec_spec in H as (Hlen & _ & Hnd & Hws & Hkeep & Hall).
  split; [done|]. split; [done|]. split.
  { intros i t Hin. destruct (Hws i t Hin) as (Hu & Hi & x & _ & ->).
    split; [done|]. split; [by destruct x|done]. }
  split.
  { intros i Hni. destruct (sl !! i) as [t|] eqn:Hi.
    - destruct (decide (t = Unknown)) as [->|Hne].
      + exfalso. by apply Hni, Hall.
      + by apply Hkeep.
    - apply lookup_ge_None in Hi. apply lookup_ge_None. lia. }
  split; [done|].
  intros p self' Hg i t Hi Ht. by eapply (guess_keeps _ _ _ Hg).
Qed.

Lemma tags_only_leave_unknown_witness :
  guess1_trace factsA [Unknown; Unknown]
  = Ok ([Irrelevant; Relevant], [(0%nat, Irrelevant); (1%nat, Relevant)])
  /\ resolves [Unknown; Unknown] [(0%nat, Irrelevant); (1%nat, Relevant)]
        [Irrelevant; Relevant].
Proof.
  split; [reflexivity|].
  refine (proj1 (tags_only_leave_unknown factsA [Unknown; Unknown]
                   [Irrelevant; Relevant]
                   [(0%nat, Irrelevant); (1%nat, Relevant)] _)).
  reflexivity.
Defined.

(** ** The operand projection *)

Lemma getitem_out_of_shape (self : OperandProjection) k s :
  py_getitem (SHAPES self) k = Ok s ->
  s <> Some (correctShape self) ->
  OperandProjection_getitem self k = Ok (-1).
Proof.
  intros Hs Hne. unfold OperandProjection_getitem. rewrite Hs. simpl.
  by rewrite bool_decide_eq_false_2.
Qed.

Lemma getitem_in_shape (self : OperandProjection) k ops v :
  py_getitem (SHAPES self) k = Ok (Some (correctShape self)) ->
  py_getitem (OPS self) k = Ok (Some ops) ->
  py_getitem ops (opIndex self) = Ok v ->
  OperandProjection_getitem self k = Ok v.
Proof.
  intros Hs Ho Hv. unfold OperandProjection_getitem. rewrite Hs. simpl.
  rewrite bool_decide_eq_true_2 by done. simpl. rewrite Ho. simpl. done.
Qed.

Lemma getitem_in_shape_inv (self : OperandProjection) k v :
  py_getitem (SHAPES self) k = Ok (Some (correctShape self)) ->
  OperandProjection_getitem self k = Ok v ->
  exists ops, py_getitem (OPS self) k = Ok (Some ops)
              /\ py_getitem ops (opIndex self) = Ok v.
Proof.
  intros Hs. unfold OperandProjection_getitem. rewrite Hs. simpl.
  rewrite bool_decide_eq_true_2 by done. simpl. intros H.
  apply bind_Ok in H as (ops & Hops & H).
  destruct ops as [l|]; [eauto|discriminate].
Qed.

(** C10. [__getitem__(k)] returns [OPS[k][opIndex]] when [SHAPES[k]] is
    the target shape and the integer -1 otherwise; so an encoding of the
    target shape whose operand really is -1 and an encoding of another
    shape (in this projection or in any other) give the same item, and
    whoever reads the projection cannot tell them apart. *)
Theorem projection_sentinel (self : OperandProjection) :
  (forall k ops v,
     py_getitem (SHAPES self) k = Ok (Some (correctShape self)) ->
     py_getitem (OPS self) k = Ok (Some ops) ->
     py_getitem ops (opIndex self) = Ok v ->
     OperandProjection_getitem self k = Ok v)
  /\ (forall k s,
        py_getitem (SHAPES self) k = Ok s ->
        s <> Some (correctShape self) ->
        OperandProjection_getitem self k = Ok (-1))
  /\ (forall (other : OperandProjection) k1 k2 ops s2,
        py_getitem (SHAPES self) k1 = Ok (Some (correctShape self)) ->
        py_getitem (OPS self) k1 = Ok (Some ops) ->
        py_getitem ops (opIndex self) = Ok (-1) ->
        py_getitem (SHAPES other) k2 = Ok s2 ->
        s2 <> Some (correctShape other) ->
        OperandProjection_getitem self k1 = OperandProjection_getitem other k2).
Proof.
  split; [apply getitem_in_shape|]. split; [apply getitem_out_of_shape|].
  intros other k1 k2 ops s2 H1 H2 H3 H4 H5.
  rewrite (getitem_in_shape _ _ _ _ H1 H2 H3).
  by rewrite (getitem_out_of_shape _ _ _ H4 H5).
Qed.

Lemma projection_sentinel_witness :
  OperandProjection_getitem projA 1 = OperandProjection_getitem projA 2.
Proof.
  refine (proj2 (proj2 (projection_sentinel projA)) projA 1 2 [-1] (Some 1)
            _ _ _ _ _);
    [reflexivity | reflexivity | reflexivity | reflexivity | discriminate].
Defined.

(** ** Bit strings *)

Lemma Bits_uint_S k n :
  Bits_uint k (S n) = Z.testbit k (Z.of_nat n) :: Bits_uint k n.
Proof. unfold Bits_uint. by rewrite seq_S, rev_app_distr. Qed.

Lemma Bits_uint_length k n : length (Bits_uint k n) = n.
Proof. unfold Bits_uint. by rewrite length_map, length_rev, length_seq. Qed.

Lemma Bits_uint_ext k k' n :
  (forall j, 0 <= j < Z.of_nat n -> Z.testbit k j = Z.testbit k' j) <->
  Bits_uint k n = Bits_uint k' n.
Proof.
  induction n as [|n IH].
  - split; [done|]. intros _ j Hj. lia.
  - rewrite !Bits_uint_S. split.
    + intros H. f_equal; [apply H; lia|]. apply IH. intros j Hj. apply H. lia.
    + intros H j Hj. inversion H as [[H1 H2]].
      destruct (decide (j = Z.of_nat n)) as [->|Hne]; [done|].
      apply IH; [done|lia].
Qed.

Lemma testbit_above k n j :
  0 <= k < 2 ^ n -> n <= j -> Z.testbit k j = false.
Proof.
  intros Hk Hj. destruct (decide (0 <= n)) as [Hn|Hn].
  - rewrite <- (Z.mod_small k (2 ^ n)) by done.
    apply Z.mod_pow2_bits_high. lia.
  - rewrite Z.pow_neg_r in Hk by lia. lia.
Qed.

Lemma Bits_uint_inj k k' n :
  0 <= k < 2 ^ Z.of_nat n -> 0 <= k' < 2 ^ Z.of_nat n ->
  Bits_uint k n = Bits_uint k' n -> k = k'.
Proof.
  intros Hk Hk' H. apply Z.bits_inj'. intros j Hj.
  destruct (decide (j < Z.of_nat n)) as [Hlt|Hge].
  - by apply (proj2 (Bits_uint_ext k k' n)).
  - rewrite !(testbit_above _ (Z.of_nat n)); [done|done|lia|done|lia].
Qed.

Lemma Bits_uint_low k n hi :
  0 <= k < 2 ^ Z.of_nat n ->
  Bits_uint (hi * 2 ^ Z.of_nat n + k) n = Bits_uint k n.
Proof.
  intros Hk. apply Bits_uint_ext. intros j Hj.
  rewrite <- (Z.mod_pow2_bits_low (hi * 2 ^ Z.of_nat n + k) (Z.of_nat n) j) by lia.
  rewrite Z.add_comm, Z.mod_add by lia.
  rewrite Z.mod_small by done. done.
Qed.

Lemma testbit_top (b : bool) k n :
  0 <= k < 2 ^ Z.of_nat n ->
  Z.testbit ((if b then 1 else 0) * 2 ^ Z.of_nat n + k) (Z.of_nat n) = b.
Proof.
  intros Hk. rewrite Z.testbit_eqb by lia.
  rewrite Z.add_comm, Z.div_add by lia.
  rewrite Z.div_small by done. by destruct b.
Qed.

Lemma Bits_uint_surj (m : list bool) :
  exists k, 0 <= k < 2 ^ Z.of_nat (length m) /\ Bits_uint k (length m) = m.
Proof.
  induction m as [|b m (k & Hk & IH)].
  - exists 0. simpl. split; [lia|done].
  - exists ((if b then 1 else 0) * 2 ^ Z.of_nat (length m) + k).
    cbn [length]. rewrite Bits_uint_S, Bits_uint_low, IH, testbit_top by done.
    split; [|done].
    rewrite Nat2Z.inj_succ, Z.pow_succ_r by lia. destruct b; lia.
Qed.

Lemma Bits_uint_zero n : Bits_uint 0 n = replicate n false.
Proof.
  induction n as [|n IH]; [done|].
  by rewrite Bits_uint_S, IH, Z.testbit_0_l.
Qed.

Lemma Bits_uint_ones n : Bits_uint (2 ^ Z.of_nat n - 1) n = replicate n true.
Proof.
  replace (2 ^ Z.of_nat n - 1) with (Z.ones (Z.of_nat n))
    by (rewrite Z.ones_equiv; lia).
  assert (H : forall m, (m <= n)%nat ->
            Bits_uint (Z.ones (Z.of_nat n)) m = replicate m true).
  { induction m as [|m IH]; intros Hm; [done|].
    rewrite Bits_uint_S, IH by lia. by rewrite Z.ones_spec_low by lia. }
  by apply H.
Qed.

(** ** Sorting by a key *)

Lemma insert_by_perm {A} (key : A -> nat) x (l : list A) :
  insert_by key x l ≡ₚ x :: l.
Proof.
  induction l as [|y l IH]; [done|]. simpl.
  destruct (key x <=? key y)%nat; [done|].
  rewrite IH. apply Permutation_swap.
Qed.

Lemma sort_by_perm {A} (key : A -> nat) (l : list A) : sort_by key l ≡ₚ l.
Proof.
  induction l as [|x l IH]; [done|]. simpl.
  by rewrite insert_by_perm, IH.
Qed.

Lemma ascending_cons {A} (key : A -> nat) x (l : list A) :
  ascending key (x :: l) <->
  (forall b, b ∈ l -> (key x <= key b)%nat) /\ ascending key l.
Proof.
  split.
  - intros H. split.
    + intros b Hb. apply list_elem_of_lookup in Hb as [j Hj].
      by apply (H 0%nat (S j) x b); [lia| |].
    + intros i j a b Hij Ha Hb. by apply (H (S i) (S j) a b); [lia| |].
  - intros [Hx Hl] i j a b Hij Ha Hb.
    destruct j as [|j]; [lia|]. simpl in Hb.
    destruct i as [|i]; simpl in Ha.
    + inversion Ha; subst. apply Hx. by eapply list_elem_of_lookup_2.
    + apply (Hl i j a b); [lia|done|done].
Qed.

Lemma insert_by_ascending {A} (key : A -> nat) x (l : list A) :
  ascending key l -> ascending key (insert_by key x l).
Proof.
  induction l as [|y l IH]; intros Hl; simpl.
  - apply ascending_cons. split; [|done]. intros b Hb. by apply elem_of_nil in Hb.
  - apply ascending_cons in Hl as [Hy Hl].
    destruct (key x <=? key y)%nat eqn:Hle.
    + apply Nat.leb_le in Hle. apply ascending_cons. split.
      * intros b Hb. apply elem_of_cons in Hb as [->|Hb]; [done|].
        specialize (Hy b Hb). lia.
      * by apply ascending_cons.
    + apply Nat.leb_gt in Hle. apply ascending_cons. split; [|by apply IH].
      intros b Hb. rewrite insert_by_perm in Hb.
      apply elem_of_cons in Hb as [->|Hb]; [lia|by apply Hy].
Qed.

Lemma sort_by_ascending {A} (key : A -> nat) (l : list A) :
  ascending key (sort_by key l).
Proof.
  induction l as [|x l IH]; simpl.
  - intros i j a b _ Ha. done.
  - by apply insert_by_ascending.
Qed.

(** The sort is stable: elements of equal key keep their order. *)
Lemma insert_by_stable {A} (key : A -> nat) w x (l : list A) :
  filter (fun a => key a = w) (insert_by key x l)
  = filter (fun a => key a = w) (x :: l).
Proof.
  induction l as [|y l IH]; [done|]. simpl.
  destruct (key x <=? key y)%nat eqn:Hle; [done|].
  apply Nat.leb_gt in Hle.
  rewrite filter_cons, IH, !filter_cons.
  repeat case_decide; try done; lia.
Qed.

Lemma sort_by_stable {A} (key : A -> nat) w (l : list A) :
  filter (fun a => key a = w) (sort_by key l) = filter (fun a => key a = w) l.
Proof.
  induction l as [|x l IH]; [done|]. simpl.
  by rewrite insert_by_stable, !filter_cons, IH.
Qed.

(** ** The candidates of the flock search *)

Lemma elem_of_range2 lo hi k : k ∈ range2 lo hi <-> lo <= k < hi.
Proof.
  unfold range2. rewrite list_elem_of_fmap. split.
  - intros (j & -> & Hj). apply elem_of_seq in Hj. lia.
  - intros Hk. exists (Z.to_nat (k - lo)). split; [lia|].
    apply elem_of_seq. lia.
Qed.

Lemma NoDup_range2 lo hi : NoDup (range2 lo hi).
Proof.
  unfold range2. apply NoDup_fmap_2; [|apply NoDup_seq].
  intros i j H. lia.
Qed.

Lemma elem_of_range n k : k ∈ range n <-> 0 <= k < n.
Proof.
  unfold range. rewrite list_elem_of_fmap. split.
  - intros (j & -> & Hj). apply elem_of_seq in Hj. lia.
  - intros Hk. exists (Z.to_nat k). split; [lia|]. apply elem_of_seq. lia.
Qed.

Lemma rfold_tried check shapeTags cands st st' :
  rfold (find_flockings_step check shapeTags) cands st = Ok st' ->
  snd st' = snd st ++ cands.
Proof.
  revert st. induction cands as [|c cands IH]; intros st H; simpl in H.
  - inversion H. by rewrite app_nil_r.
  - apply bind_Ok in H as (st1 & Hstep & H).
    apply IH in H. rewrite H.
    unfold find_flockings_step in Hstep.
    apply bind_Ok in Hstep as (r & _ & Hstep).
    destruct r; inversion Hstep; subst; simpl; by rewrite <- app_assoc.
Qed.

(** ** Field specs and significant slices *)

Lemma all_bits_length n : length (all_bits n) = (2 ^ n)%nat.
Proof.
  induction n as [|n IH]; [done|].
  cbn [all_bits]. rewrite length_app, !length_map, IH. simpl. lia.
Qed.

Lemma elem_of_all_bits n m : m ∈ all_bits n <-> length m = n.
Proof.
  revert m. induction n as [|n IH]; intros m.
  - simpl. rewrite list_elem_of_singleton. split; [by intros ->|].
    by destruct m.
  - cbn [all_bits]. rewrite elem_of_app, !list_elem_of_fmap. split.
    + intros [(m' & -> & Hm')|(m' & -> & Hm')]; apply IH in Hm'; simpl; lia.
    + intros Hm. destruct m as [|b m]; [done|]. simpl in Hm.
      assert (Hin : m ∈ all_bits n) by (apply IH; lia).
      destruct b; [right|left]; eauto.
Qed.

Lemma NoDup_all_bits n : NoDup (all_bits n).
Proof.
  induction n as [|n IH]; [apply NoDup_singleton|].
  cbn [all_bits]. apply NoDup_app. split; [|split].
  - apply NoDup_fmap_2; [|done]. by intros a b [= ->].
  - intros m H1 H2. apply list_elem_of_fmap in H1 as (a & -> & _).
    apply list_elem_of_fmap in H2 as (b & Hb & _). done.
  - apply NoDup_fmap_2; [|done]. by intros a b [= ->].
Qed.

Lemma rmap_letters (f : nat -> tag -> nat * tag) (sl : list tag) :
  (forall i a, snd (f i a) = a) ->
  Forall (fun t => t <> Unknown) sl ->
  rmap slLetter_to_FieldSpecElement (imap f sl) = Ok (map element_of sl).
Proof.
  revert f. induction sl as [|t sl IH]; intros f Hf H; [done|].
  inversion H as [|? ? Ht Hsl]; subst. cbn [imap rmap map].
  rewrite (IH (f ∘ S)); [|by intros; apply Hf|done].
  unfold slLetter_to_FieldSpecElement. rewrite Hf. by destruct t.
Qed.

Lemma asFieldSpec_resolved (sl : list tag) :
  unknowns sl = 0%nat ->
  asFieldSpec sl = Ok (map element_of (rev sl)).
Proof.
  intros H. apply unknowns_0 in H. unfold asFieldSpec, enumerate.
  rewrite rmap_letters by done. simpl. by rewrite map_rev.
Qed.

Lemma enumerated_slices (tags : list tag) :
  Forall (fun t => t <> Unknown) tags ->
  map (slice_msb tags) (encodingspec_to_iter (map element_of tags))
  = all_bits (length (filter (fun t => t = Relevant) tags))
  /\ Forall (fun enc => length enc = length tags)
            (encodingspec_to_iter (map element_of tags)).
Proof.
  induction 1 as [|t tags Ht _ [IH1 IH2]]; [by split; [|repeat constructor]|].
  destruct t; [done| |].
  - (* irrelevant: one fixed zero *)
    cbn [map element_of encodingspec_to_iter].
    rewrite filter_cons. destruct (decide (Irrelevant = Relevant)); [done|].
    split.
    + rewrite <- IH1, map_map. apply map_ext. intros enc.
      unfold slice_msb. simpl. rewrite filter_cons. simpl.
      destruct (decide (Irrelevant = Relevant)); done.
    + apply Forall_fmap. eapply Forall_impl; [exact IH2|].
      intros enc Hl. simpl. by rewrite Hl.
  - (* relevant: one free bit *)
    cbn [map element_of encodingspec_to_iter all_bits concat].
    rewrite filter_cons. destruct (decide (Relevant = Relevant)); [|done].
    cbn [length all_bits app map concat]. rewrite app_nil_r. split.
    + rewrite map_app, <- IH1, !map_map. f_equal; apply map_ext; intros enc;
        unfold slice_msb; simpl; rewrite filter_cons; simpl;
        destruct (decide (Relevant = Relevant)); done.
    + apply Forall_app. split; apply Forall_fmap;
        (eapply Forall_impl; [exact IH2|]); intros enc Hl; simpl; by rewrite Hl.
Qed.

Lemma entropy_rev (sl : list tag) :
  length (filter (fun t => t = Relevant) (rev sl)) = entropy sl.
Proof.
  unfold entropy. apply Permutation_length.
  by rewrite <- Permutation_rev.
Qed.

Lemma NoDup_fmap_inj_on {A B} (g : A -> B) (l : list A) x y :
  NoDup (map g l) -> x ∈ l -> y ∈ l -> g x = g y -> x = y.
Proof.
  intros Hnd Hx Hy Heq.
  apply list_elem_of_lookup in Hx as [i Hi].
  apply list_elem_of_lookup in Hy as [j Hj].
  assert (Hi' : map g l !! i = Some (g x)) by (by rewrite list_lookup_fmap, Hi).
  assert (Hj' : map g l !! j = Some (g x)) by (by rewrite list_lookup_fmap, Hj, Heq).
  pose proof (NoDup_lookup _ _ _ _ Hnd Hi' Hj') as ->. congruence.
Qed.

(** C9. For a sensitivity list with no unknown letter, of width [W] and
    entropy [e]: [asFieldSpec] succeeds, enumerating its field spec gives
    exactly [2^e] encodings, all different and all [W] bits long, and
    [significantSlice] maps them one-to-one onto the bit strings of
    length [e]. *)
Theorem fieldspec_roundtrip (sl : list tag) :
  unknowns sl = 0%nat ->
  exists fs,
    asFieldSpec sl = Ok fs
    /\ length (encodingspec_to_iter fs) = (2 ^ entropy sl)%nat
    /\ NoDup (encodingspec_to_iter fs)
    /\ (forall enc, enc ∈ encodingspec_to_iter fs -> length enc = length sl)
    /\ (forall enc, enc ∈ encodingspec_to_iter fs ->
          length (significantSlice sl enc) = entropy sl)
    /\ (forall enc1 enc2,
          enc1 ∈ encodingspec_to_iter fs -> enc2 ∈ encodingspec_to_iter fs ->
          significantSlice sl enc1 = significantSlice sl enc2 -> enc1 = enc2)
    /\ (forall pat, length pat = entropy sl ->
          exists enc, enc ∈ encodingspec_to_iter fs
                      /\ significantSlice sl enc = pat).
Proof.
  intros Hres. exists (map element_of (rev sl)).
  split; [by apply asFieldSpec_resolved|].
  assert (Htags : Forall (fun t => t <> Unknown) (rev sl)).
  { apply unknowns_0 in Hres. rewrite Forall_forall in Hres |- *.
    intros t Ht. apply Hres. by rewrite (Permutation_rev sl). }
  destruct (enumerated_slices (rev sl) Htags) as [Hsl Hlen].
  rewrite entropy_rev in Hsl.
  set (encs := encodingspec_to_iter (map element_of (rev sl))) in *.
  change (significantSlice sl) with (slice_msb (rev sl)).
  assert (Hnd : NoDup (map (slice_msb (rev sl)) encs))
    by (rewrite Hsl; apply NoDup_all_bits).
  split; [|split; [|split; [|split; [|split]]]].
  - rewrite <- (length_map (slice_msb (rev sl)) encs), Hsl.
    apply all_bits_length.
  - by apply (NoDup_fmap_1 (slice_msb (rev sl))).
  - intros enc Hin. rewrite Forall_forall in Hlen.
    rewrite (Hlen enc Hin). apply length_rev.
  - intros enc Hin. apply elem_of_all_bits. rewrite <- Hsl.
    apply list_elem_of_fmap. eauto.
  - intros enc1 enc2 H1 H2 Heq. by apply (NoDup_fmap_inj_on _ _ _ _ Hnd H1 H2).
  - intros pat Hpat. apply elem_of_all_bits in Hpat. rewrite <- Hsl in Hpat.
    apply list_elem_of_fmap in Hpat as (enc & -> & Hin). eauto.
Qed.

Lemma fieldspec_roundtrip_witness :
  exists fs,
    asFieldSpec [Relevant; Irrelevant; Relevant] = Ok fs
    /\ length (encodingspec_to_iter fs)
       = (2 ^ entropy [Relevant; Irrelevant; Relevant])%nat.
Proof.
  destruct (fieldspec_roundtrip [Relevant; Irrelevant; Relevant] eq_refl)
    as (fs & H1 & H2 & _).
  exists fs. split; [exact H1 | exact H2].
Defined.

(** ** Removing one bit *)

Ltac zbool :=
  repeat match goal with
  | |- context [(?a <? ?b)] => destruct (Z.ltb_spec a b)
  | |- context [(?a <=? ?b)] => destruct (Z.leb_spec a b)
  | |- context [(?a =? ?b)] => destruct (Z.eqb_spec a b)
  end.

Lemma testbit_extract a lo n k :
  0 <= lo -> 0 <= n ->
  Z.testbit (Z.land (Z.shiftr a lo) (Z.ones n)) k
  = (0 <=? k) && (k <? n) && Z.testbit a (k + lo).
Proof.
  intros Hlo Hn. rewrite Z.land_spec, Z.testbit_ones by done.
  destruct (Z.leb_spec 0 k).
  - rewrite Z.shiftr_spec by done. simpl. apply andb_comm.
  - simpl. apply andb_false_r.
Qed.

Lemma testbit_var v n k :
  0 <= n ->
  Z.testbit (Z.land v (Z.ones n)) k = (0 <=? k) && (k <? n) && Z.testbit v k.
Proof.
  intros Hn. rewrite Z.land_spec, Z.testbit_ones by done. apply andb_comm.
Qed.

(** On a variable of at least two bits [bitsExcept] builds a term, and the
    term's bit [k] is bit [k] of the variable below the removed position
    and bit [k+1] from there on. *)
Lemma bitsExcept_var x (W i : Z) :
  2 <= W -> 0 <= i < W ->
  exists e, bitsExcept (Z3.BitVec x W) i = Ok e
    /\ forall env k, 0 <= k ->
         Z.testbit (Z3.eval env e) k
         = (k <? W - 1) && Z.testbit (env x) (if k <? i then k else k + 1).
Proof.
  intros HW Hi. unfold bitsExcept. cbn [Z3.size].
  destruct (Z.eqb_spec i 0) as [->|Hi0].
  { unfold Z3.Extract. cbn [Z3.size].
    replace ((1 <=? W - 1) && (0 <=? 1) && (W - 1 <? W)) with true
      by (symmetry; zbool; try lia; done).
    eexists. split; [done|]. intros env k Hk. cbn [Z3.eval].
    rewrite testbit_extract, testbit_var by lia.
    zbool; try lia; simpl; try done. }
  destruct (Z.eqb_spec i (W - 1)) as [->|HiW].
  { unfold Z3.Extract. cbn [Z3.size].
    replace ((0 <=? W - 2) && (0 <=? 0) && (W - 2 <? W)) with true
      by (symmetry; zbool; try lia; done).
    eexists. split; [done|]. intros env k Hk. cbn [Z3.eval].
    rewrite testbit_extract, testbit_var by lia.
    rewrite Z.add_0_r.
    zbool; try lia; simpl; try done. }
  unfold Z3.Extract. cbn [Z3.size].
  replace ((i + 1 <=? W - 1) && (0 <=? i + 1) && (W - 1 <? W)) with true
    by (symmetry; zbool; try lia; done).
  replace ((0 <=? i - 1) && (0 <=? 0) && (i - 1 <? W)) with true
    by (symmetry; zbool; try lia; done).
  eexists. split; [done|]. intros env k Hk.
  cbn [Z3.eval Z3.Concat Z3.size].
  rewrite Z.lor_spec, Z.shiftl_spec by done.
  rewrite !testbit_extract, !testbit_var by lia.
  rewrite Z.add_0_r.
  replace (k - (i - 1 - 0 + 1) + (i + 1)) with (k + 1) by lia.
  zbool; try lia; simpl; rewrite ?andb_false_r, ?orb_false_r; try done.
Qed.

(** Two [W]-bit values give the same term value exactly when they agree
    on every bit but the removed one. *)
Lemma bitsExcept_agree (W i : Z) (e1 e2 : Z3.bv) (v1 v2 : Z) :
  2 <= W -> 0 <= i < W ->
  bitsExcept (Z3.BitVec "v1" W) i = Ok e1 ->
  bitsExcept (Z3.BitVec "v2" W) i = Ok e2 ->
  (Z3.eval (two_vars v1 v2) e1 = Z3.eval (two_vars v1 v2) e2
   <-> forall j, 0 <= j < W -> j <> i -> Z.testbit v1 j = Z.testbit v2 j).
Proof.
  intros HW Hi H1 H2.
  destruct (bitsExcept_var "v1" W i HW Hi) as (e1' & H1' & Hb1).
  destruct (bitsExcept_var "v2" W i HW Hi) as (e2' & H2' & Hb2).
  rewrite H1 in H1'. rewrite H2 in H2'.
  inversion H1'; inversion H2'; subst e1' e2'; clear H1' H2'.
  set (env := two_vars v1 v2).
  assert (E1 : env "v1"%string = v1) by done.
  assert (E2 : env "v2"%string = v2) by done.
  split.
  - intros Heq j Hj Hne.
    destruct (decide (j < i)) as [Hlt|Hge].
    + pose proof (Hb1 env j (proj1 Hj)) as B1.
      pose proof (Hb2 env j (proj1 Hj)) as B2.
      rewrite Heq, B2, E1, E2 in B1. revert B1.
      zbool; try lia. simpl. done.
    + assert (Hk : 0 <= j - 1) by lia.
      pose proof (Hb1 env (j - 1) Hk) as B1.
      pose proof (Hb2 env (j - 1) Hk) as B2.
      rewrite Heq, B2, E1, E2 in B1. revert B1.
      replace (j - 1 + 1) with j by lia.
      zbool; try lia. simpl. done.
  - intros Hagree. apply Z.bits_inj'. intros k Hk.
    rewrite Hb1, Hb2, E1, E2 by done.
    zbool; simpl; try done; apply Hagree; lia.
Qed.

(** ** The probe and the analyzer *)

Lemma select_tabulated (g : Z -> Z) (l : list Z) v :
  v ∈ l -> select (map (fun i => (i, g i)) l) v = Some (g v).
Proof.
  unfold select. induction l as [|a l IH]; intros Hv; [by apply elem_of_nil in Hv|].
  simpl. destruct (Z.eqb_spec a v) as [->|Hne]; [done|].
  apply elem_of_cons in Hv as [->|Hv]; [done|]. by apply IH.
Qed.

Lemma add_facts_total (p : Z -> result (option Z)) (P : Z -> Z) (W : Z) :
  (forall k, 0 <= k < 2 ^ W -> p k = Ok (Some (P k))) ->
  add_facts p W = Ok (map (fun i => (i, P i)) (range (2 ^ W))).
Proof.
  intros Hp. unfold add_facts. apply rmap_total.
  intros k Hk. apply elem_of_range in Hk. by rewrite Hp.
Qed.

Lemma check_probe_unsat (P : Z -> Z) (W : Z) (j1 j2 : Z3.bv) :
  Z3.verdict_eqb
    (check_probe (map (fun i => (i, P i)) (range (2 ^ W))) W j1 j2) Z3.unsat
  = true
  <-> forall v1 v2, 0 <= v1 < 2 ^ W -> 0 <= v2 < 2 ^ W ->
        Z3.eval (two_vars v1 v2) j1 = Z3.eval (two_vars v1 v2) j2 ->
        P v1 = P v2.
Proof.
  unfold check_probe.
  set (facts := map (fun i => (i, P i)) (range (2 ^ W))).
  destruct (existsb _ _) eqn:Hex; simpl.
  - split; [done|]. intros H. exfalso.
    apply existsb_exists in Hex as (v1 & Hv1 & Hex).
    apply existsb_exists in Hex as (v2 & Hv2 & Hex).
    apply list_elem_of_In in Hv1, Hv2.
    apply andb_true_iff in Hex as [Hd He]. apply Z.eqb_eq in He.
    unfold can_differ, facts in Hd.
    rewrite !select_tabulated in Hd by done.
    apply negb_true_iff, Z.eqb_neq in Hd. apply Hd.
    apply elem_of_range in Hv1, Hv2. by apply H.
  - split; [|done]. intros _ v1 v2 Hv1 Hv2 He.
    destruct (decide (P v1 = P v2)) as [|Hne]; [done|]. exfalso.
    apply not_true_iff_false in Hex. apply Hex.
    apply existsb_exists. exists v1. split.
    { apply list_elem_of_In, elem_of_range. done. }
    apply existsb_exists. exists v2. split.
    { apply list_elem_of_In, elem_of_range. done. }
    apply andb_true_iff. split; [|by apply Z.eqb_eq].
    unfold can_differ, facts.
    rewrite !select_tabulated by (by apply elem_of_range).
    by apply negb_true_iff, Z.eqb_neq.
Qed.

(** On a fully tabulated function of at least two bits the probe answers,
    and it answers "irrelevant" exactly on the ground truth. *)
Lemma probeIrrelevant_spec (P : Z -> Z) (sl : list tag) (i : Z) :
  2 <= Z.of_nat (length sl) -> 0 <= i < Z.of_nat (length sl) ->
  exists x,
    probeIrrelevant
      (map (fun k => (k, P k)) (range (2 ^ Z.of_nat (length sl)))) sl i = Ok x
    /\ (x = true <-> bit_irrelevant (Z.of_nat (length sl)) P i).
Proof.
  intros HW Hi. unfold probeIrrelevant.
  set (W := Z.of_nat (length sl)) in *.
  destruct (bitsExcept_var "v1" W i HW Hi) as (e1 & H1 & _).
  destruct (bitsExcept_var "v2" W i HW Hi) as (e2 & H2 & _).
  rewrite H1, H2. simpl. eexists. split; [done|].
  rewrite check_probe_unsat. unfold bit_irrelevant.
  split; intros H v1 v2 Hv1 Hv2 Hagree; apply (H v1 v2 Hv1 Hv2);
    by apply (bitsExcept_agree W i e1 e2 v1 v2 HW Hi H1 H2).
Qed.

(** From width two on the loop always returns, whatever has been asserted:
    every probe answers, and the nesting bound is never reached. *)
Lemma guess1_returns facts (sl : list tag) :
  (2 <= length sl)%nat -> exists r, guess1_trace facts sl = Ok r.
Proof.
  intros HW. apply guess1_rec_returns; [done|].
  intros i Hi. apply lookup_lt_Some in Hi. unfold probeIrrelevant.
  destruct (bitsExcept_var "v1" (Z.of_nat (length sl)) (Z.of_nat i))
    as (e1 & -> & _); [lia|lia|].
  destruct (bitsExcept_var "v2" (Z.of_nat (length sl)) (Z.of_nat i))
    as (e2 & -> & _); [lia|lia|].
  simpl. eauto.
Qed.

(** For widths of at least two, [guess] on a total table returns a fully
    resolved list whose letter at each position is the brute-force
    verdict for that bit. *)
Theorem guess_matches_ground_truth (W : nat) (P : Z -> Z)
    (p : Z -> result (option Z)) :
  (2 <= W)%nat ->
  (forall k, 0 <= k < 2 ^ Z.of_nat W -> p k = Ok (Some (P k))) ->
  exists self',
    guess (SensitivityList_init W) p = Ok self'
    /\ length (slist self') = W
    /\ forall i, (i < W)%nat ->
         (slist self' !! i = Some Irrelevant
          <-> bit_irrelevant (Z.of_nat W) P (Z.of_nat i))
         /\ (slist self' !! i = Some Relevant
             <-> ~ bit_irrelevant (Z.of_nat W) P (Z.of_nat i)).
Proof.
  intros HW Hp. unfold guess.
  assert (Hlen0 : length (slist (SensitivityList_init W)) = W)
    by apply length_replicate.
  rewrite Hlen0.
  unfold Z3.BitVecSort. destruct (Z.ltb_spec 0 (Z.of_nat W)); [|lia]. simpl.
  rewrite (add_facts_total p P) by done. simpl.
  set (facts := map (fun i => (i, P i)) (range (2 ^ Z.of_nat W))).
  set (sl0 := replicate W Unknown).
  assert (Hl0 : length sl0 = W) by apply length_replicate.
  assert (Hprobe : forall i, (i < W)%nat ->
            exists x, probeIrrelevant facts sl0 (Z.of_nat i) = Ok x
              /\ (x = true <-> bit_irrelevant (Z.of_nat W) P (Z.of_nat i))).
  { intros i Hi. pose proof (probeIrrelevant_spec P sl0 (Z.of_nat i)) as Hs.
    rewrite Hl0 in Hs. apply Hs; lia. }
  destruct (guess1_rec_returns (unknowns sl0) facts sl0) as [[sl' ws] Hrun];
    [done| |].
  { intros i Hi'. apply lookup_lt_Some in Hi'. rewrite Hl0 in Hi'.
    destruct (Hprobe i Hi') as (x & Hx & _). eauto. }
  unfold guess1, guess1_trace. rewrite Hrun. simpl.
  apply guess1_rec_spec in Hrun as (Hlen & _ & _ & Hws & _ & Hall).
  eexists. split; [done|]. simpl. split; [lia|].
  intros i Hi.
  assert (Hunk : sl0 !! i = Some Unknown) by (by apply lookup_replicate_2).
  specialize (Hall i Hunk).
  apply list_elem_of_fmap in Hall as ([i' t] & Heq & Hin). simpl in Heq. subst i'.
  destruct (Hws i t Hin) as (_ & Hi' & x & Hx & ->).
  destruct (Hprobe i Hi) as (x' & Hx' & Htruth).
  rewrite Hx in Hx'. inversion Hx'; subst x'. rewrite Hi'.
  destruct x; simpl; split; split; try done.
  - intros _. by apply Htruth.
  - intros H'. exfalso. apply H'. by apply Htruth.
  - intros Hirr. apply Htruth in Hirr. done.
  - intros _ Hirr. apply Htruth in Hirr. done.
Qed.


(** ** Flock factorization *)

Lemma rmap_Ok_elem {A B} (g : A -> result B) xs ys x :
  rmap g xs = Ok ys -> x ∈ xs -> exists y, y ∈ ys /\ g x = Ok y.
Proof.
  intros H Hx. apply list_elem_of_lookup in Hx as [i Hi].
  destruct (rmap_Ok_lookup g xs ys i x H Hi) as (y & Hy & Hg).
  exists y. split; [by eapply list_elem_of_lookup_2|done].
Qed.

Lemma flock_fact_shape shapeTags flocking lBits rBits iy ix :
  flock_fact shapeTags flocking lBits rBits iy ix
  = (shape ← true_shape shapeTags flocking lBits rBits iy ix;
     Ok (Flock.ShapeFact iy ix shape)).
Proof.
  unfold flock_fact, true_shape.
  destruct (mingle _ _ _) as [yx|]; [|done]. simpl.
  destruct (simplify_obj yx) as [sy|]; [|done]. simpl.
  destruct (Z3.as_long sy) as [iyx|]; [|done]. simpl.
  by destruct (shapeTags !! _).
Qed.

(** The loops of [factorize_flock] leave a ground fact for every pair. *)
Lemma flock_facts_complete shapeTags flocking lBits rBits facts l r :
  flock_facts shapeTags flocking lBits rBits = Ok facts ->
  0 <= l < 2 ^ lBits -> 0 <= r < 2 ^ rBits ->
  exists shape,
    true_shape shapeTags flocking lBits rBits l r = Ok shape
    /\ Flock.ShapeFact l r shape ∈ facts.
Proof.
  unfold flock_facts. intros H Hl Hr.
  apply bind_Ok in H as (rows & Hrows & H). inversion H; subst; clear H.
  apply (rmap_Ok_elem _ _ _ l) in Hrows as (row & Hrow & Hl');
    [|by apply elem_of_range].
  apply (rmap_Ok_elem _ _ _ r) in Hl' as (fact & Hfact & Hr');
    [|by apply elem_of_range].
  rewrite flock_fact_shape in Hr'.
  apply bind_Ok in Hr' as (shape & Hshape & Hr'). inversion Hr'; subst.
  exists shape. split; [done|].
  apply list_elem_of_In, in_concat. exists row.
  split; by apply list_elem_of_In.
Qed.

Lemma flock_query_inv shapeTags flocking asserts :
  flock_query shapeTags flocking = Ok asserts ->
  exists facts,
    flock_facts shapeTags flocking (Z.of_nat (count0 flocking))
                (Z.of_nat (count1 flocking)) = Ok facts
    /\ asserts = Flock.Composition (Z.of_nat (count0 flocking))
                   (Z.of_nat (count1 flocking)) :: facts.
Proof.
  unfold flock_query. intros H.
  apply bind_Ok in H as (? & _ & H). apply bind_Ok in H as (? & _ & H).
  apply bind_Ok in H as (facts & Hfacts & H). inversion H. eauto.
Qed.

Lemma factorize_flock_inv check shapeTags flocking cl :
  factorize_flock check shapeTags flocking = Ok (Some cl) ->
  exists asserts m,
    flock_query shapeTags flocking = Ok asserts
    /\ check asserts = Z3.Sat m
    /\ Flock.num_entries (Flock.s m) = 1%nat
    /\ cl = Flock.s m.
Proof.
  unfold factorize_flock. intros H.
  apply bind_Ok in H as (asserts & Hq & H).
  destruct (check asserts) as [m| |] eqn:Hc; try discriminate.
  destruct (Nat.eqb_spec (Flock.num_entries (Flock.s m)) 1) as [He|He];
    simpl in H; [|discriminate].
  inversion H. eauto 10.
Qed.

(** An accepting model satisfies the ground fact of every pair. *)
Lemma accepting_model_facts (check : Flock.solver)
    (shapeTags : gmap (list bool) Z) (mask : list bool)
    (cl : Flock.FuncInterp) :
  Flock.sound check ->
  factorize_flock check shapeTags mask = Ok (Some cl) ->
  exists asserts m,
    flock_query shapeTags mask = Ok asserts
    /\ check asserts = Z3.Sat m
    /\ cl = Flock.s m
    /\ forall l r,
         0 <= l < 2 ^ Z.of_nat (count0 mask) ->
         0 <= r < 2 ^ Z.of_nat (count1 mask) ->
         exists shape,
           true_shape shapeTags mask (Z.of_nat (count0 mask))
                      (Z.of_nat (count1 mask)) l r = Ok shape
           /\ Flock.f m (Flock.t m l) (Flock.apply cl r) = shape.
Proof.
  intros Hsound H.
  apply factorize_flock_inv in H as (asserts & m & Hq & Hc & _ & ->).
  exists asserts, m. split; [done|]. split; [done|]. split; [done|].
  intros l r Hl Hr.
  apply flock_query_inv in Hq as (facts & Hfacts & ->).
  destruct (flock_facts_complete _ _ _ _ _ l r Hfacts Hl Hr)
    as (shape & Hshape & Hin).
  exists shape. split; [done|].
  apply Hsound in Hc. cbn [forallb] in Hc.
  apply andb_true_iff in Hc as [Hcomp Hground].
  rewrite forallb_forall in Hground.
  apply list_elem_of_In, Hground in Hin. simpl in Hin. apply Z.eqb_eq in Hin.
  simpl in Hcomp. rewrite forallb_forall in Hcomp.
  assert (Hl' : In l (range (2 ^ Z.of_nat (count0 mask))))
    by (by apply list_elem_of_In, elem_of_range).
  specialize (Hcomp l Hl'). rewrite forallb_forall in Hcomp.
  assert (Hr' : In r (range (2 ^ Z.of_nat (count1 mask))))
    by (by apply list_elem_of_In, elem_of_range).
  specialize (Hcomp r Hr'). apply Z.eqb_eq in Hcomp. congruence.
Qed.

Lemma flock_try_sound (candidates : list Flock.model) :
  Flock.sound (flock_try candidates).
Proof.
  intros asserts m H. unfold flock_try in H.
  destruct (find _ candidates) as [m'|] eqn:Hf; [|discriminate].
  inversion H; subst. by apply find_some in Hf as [_ Hf].
Qed.

(** C4. Once the query is built, [factorize_flock] returns [None] when
    the verdict is not [sat], returns [None] when it is [sat] but the
    interpretation of [s] does not have exactly one entry, and returns the
    classifier exactly when the verdict is [sat] and that interpretation
    has one entry. A [None] does not stop [find_flockings]: the loop
    yields nothing for that mask and goes on with the next one. *)
Theorem flock_acceptance (check : Flock.solver)
    (shapeTags : gmap (list bool) Z) (mask : list bool)
    (asserts : list Flock.assertion) :
  flock_query shapeTags mask = Ok asserts ->
  (Z3.verdict_of (check asserts) <> Z3.sat ->
     factorize_flock check shapeTags mask = Ok None)
  /\ (forall m, check asserts = Z3.Sat m ->
        Flock.num_entries (Flock.s m) <> 1%nat ->
        factorize_flock check shapeTags mask = Ok None)
  /\ (forall cl,
        factorize_flock check shapeTags mask = Ok (Some cl)
        <-> exists m, check asserts = Z3.Sat m
                      /\ Flock.num_entries (Flock.s m) = 1%nat
                      /\ cl = Flock.s m)
  /\ (factorize_flock check shapeTags mask = Ok None ->
      forall rest st,
        rfold (find_flockings_step check shapeTags) (mask :: rest) st
        = rfold (find_flockings_step check shapeTags) rest
            (fst st, snd st ++ [mask])).
Proof.
  intros Hq.
  assert (Hff : factorize_flock check shapeTags mask
                = match check asserts with
                  | Z3.Sat m =>
                      if negb (Nat.eqb (Flock.num_entries (Flock.s m)) 1)
                      then Ok None else Ok (Some (Flock.s m))
                  | _ => Ok None
                  end)
    by (unfold factorize_flock; by rewrite Hq).
  split; [|split; [|split]].
  - rewrite Hff. intros Hv. by destruct (check asserts).
  - rewrite Hff. intros m -> Hn.
    by destruct (Nat.eqb_spec (Flock.num_entries (Flock.s m)) 1).
  - rewrite Hff. intros cl. split.
    + destruct (check asserts) as [m| |]; try discriminate.
      destruct (Nat.eqb_spec (Flock.num_entries (Flock.s m)) 1); simpl;
        [|discriminate].
      intros [= <-]. eauto.
    + intros (m & -> & Hn & ->). by rewrite Hn.
  - intros Hnone rest st. cbn [rfold].
    assert (Hstep : find_flockings_step check shapeTags st mask
                    = Ok (fst st, snd st ++ [mask]))
      by (unfold find_flockings_step; by rewrite Hnone).
    by rewrite Hstep.
Qed.

Lemma flock_acceptance_witness :
  exists asserts,
    flock_query shapeTagsC [true; false] = Ok asserts
    /\ factorize_flock checkC shapeTagsC [true; false] = Ok None.
Proof.
  destruct (flock_query shapeTagsC [true; false]) as [asserts|] eqn:Hq;
    [|vm_compute in Hq; discriminate].
  exists asserts. split; [reflexivity|].
  destruct (flock_acceptance checkC shapeTagsC [true; false] asserts Hq)
    as (_ & Hdegenerate & _).
  apply (Hdegenerate modelC').
  - revert Hq. vm_compute. intros [= <-]. reflexivity.
  - vm_compute. discriminate.
Defined.

(** ** Operand formulas *)

Lemma first_of_shape_Some table shapeN fib j :
  first_of_shape table shapeN fib = Ok (Some j) ->
  j ∈ fib /\ py_getitem table j = Ok (Some shapeN).
Proof.
  induction fib as [|k fib IH]; intros H; simpl in H; [discriminate|].
  apply bind_Ok in H as (sk & Hk & H).
  case_bool_decide as Hs.
  - inversion H; subst. split; [by left|done].
  - destruct (IH H) as [Hin Hj]. split; [by right|done].
Qed.

Lemma affine_query_holds m recorded width :
  forallb (Affine.holds m) (affine_query recorded width) = true ->
  forall x y, (x, y) ∈ recorded -> 0 <= x < 2 ^ width ->
              Affine.a m * x + Affine.b m = y.
Proof.
  unfold affine_query. rewrite forallb_app. intros H x y Hin Hx.
  apply andb_true_iff in H as [Hfacts Hlaw].
  rewrite forallb_forall in Hfacts.
  assert (Hf : Affine.holds m (Affine.YFact x y) = true).
  { apply Hfacts, in_map_iff. exists (x, y). split; [done|].
    by apply list_elem_of_In. }
  simpl in Hf, Hlaw. rewrite andb_true_r in Hlaw.
  rewrite forallb_forall in Hlaw.
  assert (Hl : In x (range (2 ^ width)))
    by (by apply list_elem_of_In, elem_of_range).
  apply Hlaw in Hl. apply Z.eqb_eq in Hf, Hl. lia.
Qed.

Lemma affine_fit_sound : Affine.sound affine_fit.
Proof.
  intros asserts m H. unfold affine_fit in H.
  destruct (forallb _ asserts) eqn:Hall; [|discriminate].
  by inversion H; subst.
Qed.

(** ** One-bit tables *)

(** C1 at width one. The design document asks of [guess] a verdict for the
    only bit
    of a one-bit table (relevant exactly when the two entries differ), but
    there [bitsExcept] asks Z3 for [Extract(0, 1, v)], a slice whose low
    end lies above its high end, and [guess] leaves by the exception
    instead of tagging the bit. From width two on, [guess] agrees with the
    ground truth ([guess_matches_ground_truth]). *)
Theorem guess_one_bit_raises (p : Z -> result (option Z)) (P : Z -> Z) :
  (forall k, 0 <= k < 2 -> p k = Ok (Some (P k))) ->
  bitsExcept (Z3.BitVec "v1" 1) 0 = Raise Z3Exception
  /\ guess (SensitivityList_init 1) p = Raise Z3Exception.
Proof.
  intros Hp. split; [done|].
  unfold guess.
  change (Z.of_nat (length (slist (SensitivityList_init 1)))) with 1.
  rewrite (add_facts_total p P 1) by done. done.
Qed.

Lemma guess_one_bit_raises_witness :
  guess (SensitivityList_init 1) (table_of [0; 1]) = Raise Z3Exception
  /\ ~ bit_irrelevant 1 (fun k => k) 0.
Proof.
  split.
  - refine (proj2 (guess_one_bit_raises (table_of [0; 1]) (fun k => k) _)).
    intros k Hk. assert (Hc : k = 0 \/ k = 1) by lia.
    destruct Hc as [-> | ->]; reflexivity.
  - intros H. specialize (H 0 1). 
    assert (Heq : 0 = 1); [|discriminate].
    apply H; [lia | lia |]. intros j Hj Hne. lia.
Defined.

(** ** The scenarios of the design document *)

(** Scenario A: [P(00)=P(01)=0, P(10)=P(11)=1]. *)
Example scenario_A :
  guess (SensitivityList_init 2) (table_of tableA)
  = Ok {| slist := [Irrelevant; Relevant]; solver := None |}
  /\ entropy [Irrelevant; Relevant] = 1%nat.
Proof. split; reflexivity. Qed.

(** Scenario B: [shape(b2,b1,b0) = b2 AND b0]. *)
Example scenario_B :
  guess (SensitivityList_init 3) (table_of tableB)
  = Ok {| slist := [Relevant; Irrelevant; Relevant]; solver := None |}
  /\ entropy [Relevant; Irrelevant; Relevant] = 2%nat.
Proof. split; vm_compute; reflexivity. Qed.

Example guess_matches_ground_truth_on_A :
  exists self',
    guess (SensitivityList_init 2) (table_of tableA) = Ok self'
    /\ (slist self' !! 0%nat = Some Irrelevant
        <-> bit_irrelevant 2 (fun k => k / 2) 0).
Proof.
  destruct (guess_matches_ground_truth 2 (fun k => k / 2) (table_of tableA))
    as (self' & Hg & _ & Hbits).
  - lia.
  - intros k Hk. assert (Hc : k = 0 \/ k = 1 \/ k = 2 \/ k = 3) by lia.
    destruct Hc as [-> | [-> | [-> | ->]]]; reflexivity.
  - exists self'. split; [exact Hg|]. apply (Hbits 0%nat). lia.
Qed.

(** * Further properties of the code *)

(** ** [bitsExcept] *)

(** X1. [bitsExcept(bv, j)] builds a term exactly when [bv] has at least
    two bits and [j] is one of its positions, and the term then has one
    bit less; in every other case it leaves by a Z3 exception. *)
Theorem bitsExcept_defined (bv : Z3.bv) (j : Z) :
  (2 <= Z3.size bv /\ 0 <= j < Z3.size bv ->
     exists e, bitsExcept bv j = Ok e /\ Z3.size e = Z3.size bv - 1)
  /\ (~ (2 <= Z3.size bv /\ 0 <= j < Z3.size bv) ->
        bitsExcept bv j = Raise Z3Exception).
Proof.
  unfold bitsExcept, Z3.Extract. split.
  - intros [HW Hj].
    destruct (Z.eqb_spec j 0) as [->|Hj0].
    { replace ((1 <=? Z3.size bv - 1) && (0 <=? 1) && (Z3.size bv - 1 <? Z3.size bv))
        with true by (symmetry; zbool; try lia; done).
      eexists. split; [done|]. simpl. lia. }
    destruct (Z.eqb_spec j (Z3.size bv - 1)) as [->|HjW].
    { replace ((0 <=? Z3.size bv - 2) && (0 <=? 0) && (Z3.size bv - 2 <? Z3.size bv))
        with true by (symmetry; zbool; try lia; done).
      eexists. split; [done|]. simpl. lia. }
    replace ((j + 1 <=? Z3.size bv - 1) && (0 <=? j + 1) && (Z3.size bv - 1 <? Z3.size bv))
      with true by (symmetry; zbool; try lia; done).
    replace ((0 <=? j - 1) && (0 <=? 0) && (j - 1 <? Z3.size bv))
      with true by (symmetry; zbool; try lia; done).
    eexists. split; [done|]. simpl. lia.
  - intros Hno.
    destruct (Z.eqb_spec j 0) as [->|Hj0].
    { replace ((1 <=? Z3.size bv - 1) && (0 <=? 1) && (Z3.size bv - 1 <? Z3.size bv))
        with false by (symmetry; zbool; try lia; done). done. }
    destruct (Z.eqb_spec j (Z3.size bv - 1)) as [->|HjW].
    { replace ((0 <=? Z3.size bv - 2) && (0 <=? 0) && (Z3.size bv - 2 <? Z3.size bv))
        with false by (symmetry; zbool; try lia; done). done. }
    destruct ((j + 1 <=? Z3.size bv - 1) && (0 <=? j + 1)
              && (Z3.size bv - 1 <? Z3.size bv)) eqn:H1; [|done].
    simpl.
    replace ((0 <=? j - 1) && (0 <=? 0) && (j - 1 <? Z3.size bv))
      with false; [done|].
    symmetry. revert H1. zbool; simpl; try done; try lia.
Qed.

Lemma bitsExcept_defined_witness :
  exists e, bitsExcept (Z3.BitVec "v" 5) 2 = Ok e /\ Z3.size e = 5 - 1.
Proof.
  apply (proj1 (bitsExcept_defined (Z3.BitVec "v" 5) 2)).
  simpl. lia.
Defined.

Lemma bounded_of_bits (n k : Z) :
  0 <= k -> (forall l, k <= l -> Z.testbit n l = false) -> 0 <= n < 2 ^ k.
Proof.
  intros Hk H.
  assert (Hn : 0 <= n).
  { apply Z.bits_iff_nonneg_ex. exists k. intros m Hm. apply H. lia. }
  by apply Z.bounded_iff_bits_nonneg'.
Qed.

(** X2. On a variable of [W >= 2] bits holding [v], the term of
    [bitsExcept] at position [j] evaluates to a value below [2^(W-1)]
    whose bits are those of [v] with bit [j] taken out; so [v] is
    recovered from that value together with its bit [j]. *)
Theorem bitsExcept_drops_bit (x : string) (W j : Z) (e : Z3.bv)
    (env1 env2 : string -> Z) :
  2 <= W -> 0 <= j < W ->
  bitsExcept (Z3.BitVec x W) j = Ok e ->
  0 <= env1 x < 2 ^ W -> 0 <= env2 x < 2 ^ W ->
  0 <= Z3.eval env1 e < 2 ^ (W - 1)
  /\ (forall k, 0 <= k < W - 1 ->
        Z.testbit (Z3.eval env1 e) k
        = Z.testbit (env1 x) (if k <? j then k else k + 1))
  /\ (Z3.eval env1 e = Z3.eval env2 e ->
      Z.testbit (env1 x) j = Z.testbit (env2 x) j ->
      env1 x = env2 x).
Proof.
  intros HW Hj He Hv1 Hv2.
  destruct (bitsExcept_var x W j HW Hj) as (e' & He' & Hbits).
  rewrite He in He'. inversion He'; subst e'; clear He'.
  assert (Hhigh : forall env k, W - 1 <= k -> Z.testbit (Z3.eval env e) k = false).
  { intros env k Hk. rewrite Hbits by lia. destruct (Z.ltb_spec k (W - 1)); [lia|done]. }
  split; [|split].
  - apply bounded_of_bits; [lia|]. intros l Hl. by apply Hhigh.
  - intros k Hk. rewrite Hbits by lia.
    destruct (Z.ltb_spec k (W - 1)); [done|lia].
  - intros Heq Hbit. apply Z.bits_inj'. intros k Hk.
    destruct (decide (k = j)) as [->|Hne]; [done|].
    destruct (decide (W <= k)) as [Hge|Hlt].
    { by rewrite !(testbit_above _ W k). }
    destruct (decide (k < j)) as [Hkj|Hkj].
    + pose proof (Hbits env1 k Hk) as B1. pose proof (Hbits env2 k Hk) as B2.
      rewrite Heq, B2 in B1. revert B1. zbool; try lia. simpl. done.
    + assert (Hk' : 0 <= k - 1) by lia.
      pose proof (Hbits env1 (k - 1) Hk') as B1.
      pose proof (Hbits env2 (k - 1) Hk') as B2.
      rewrite Heq, B2 in B1. revert B1.
      replace (k - 1 + 1) with k by lia.
      zbool; try lia. simpl. done.
Qed.

Lemma bitsExcept_drops_bit_witness :
  0 <= Z3.eval (fun _ => 13)
         (Z3.ConcatT (Z3.ExtractT 3 2 (Z3.BitVec "v" 4))
                     (Z3.ExtractT 0 0 (Z3.BitVec "v" 4))) < 2 ^ (4 - 1).
Proof.
  refine (proj1 (bitsExcept_drops_bit "v" 4 1 _ (fun _ => 13) (fun _ => 13)
                   _ _ _ _ _)); [lia | lia | reflexivity | lia | lia].
Defined.

(** ** [guess] *)

Lemma guess_inv self p self' :
  guess self p = Ok self' ->
  exists facts ws,
    0 < Z.of_nat (length (slist self))
    /\ add_facts p (Z.of_nat (length (slist self))) = Ok facts
    /\ guess1_trace facts (slist self) = Ok (slist self', ws)
    /\ solver self' = None.
Proof.
  unfold guess. intros H.
  apply bind_Ok in H as (w & Hw & H).
  apply bind_Ok in H as (facts & Hfacts & H).
  apply bind_Ok in H as (sl' & Hg & H). inversion H; subst; clear H.
  unfold guess1 in Hg. apply bind_Ok in Hg as ([sl1 ws] & Hg & H).
  inversion H; subst; clear H. simpl.
  exists facts, ws. split; [|done].
  unfold Z3.BitVecSort in Hw. by destruct (Z.ltb_spec 0 (Z.of_nat (length (slist self)))).
Qed.

Lemma add_facts_Ok_total p W facts :
  add_facts p W = Ok facts -> total_table W p.
Proof.
  unfold add_facts. intros H k Hk.
  assert (Hin : k ∈ range (2 ^ W)) by (by apply elem_of_range).
  destruct (rmap_Ok_elem _ _ _ k H Hin) as (kv & _ & Hkv).
  apply bind_Ok in Hkv as (y & Hy & Hkv).
  apply bind_Ok in Hkv as (v & Hv & _).
  destruct y as [z|]; [eauto|discriminate].
Qed.

(** X3. Whenever [guess] returns, the list it returns has the width it
    started with and no ['?'] left, the session is dropped, and
    [asFieldSpec] on it succeeds. *)
Theorem guess_resolves_all (self self' : SensitivityList)
    (p : Z -> result (option Z)) :
  guess self p = Ok self' ->
  length (slist self') = length (slist self)
  /\ unknowns (slist self') = 0%nat
  /\ solver self' = None
  /\ asFieldSpec (slist self') = Ok (map element_of (rev (slist self'))).
Proof.
  intros H. apply guess_inv in H as (facts & ws & _ & _ & Hg & Hs).
  apply guess1_rec_spec in Hg as (Hlen & Hres & _).
  split; [done|]. split; [done|]. split; [done|].
  by apply asFieldSpec_resolved.
Qed.

Lemma guess_resolves_all_witness :
  unknowns [Irrelevant; Relevant] = 0%nat.
Proof.
  refine (proj1 (proj2 (guess_resolves_all (SensitivityList_init 2)
            {| slist := [Irrelevant; Relevant]; solver := None |}
            (table_of tableA) _))).
  reflexivity.
Defined.

(** X4. [guess] is idempotent: run again on the list it returned, with the
    same table, it returns that list once more, without probing. This
    holds at any width, also where a first run from ['?'] letters would
    not return. *)
Theorem guess_idempotent (self self' : SensitivityList)
    (p : Z -> result (option Z)) :
  guess self p = Ok self' -> guess self' p = Ok self'.
Proof.
  intros H. apply guess_inv in H as (facts & ws & HW & Hfacts & Hg & Hs).
  apply guess1_rec_spec in Hg as (Hlen & Hres & _).
  unfold guess. rewrite Hlen.
  unfold Z3.BitVecSort. destruct (Z.ltb_spec 0 (Z.of_nat (length (slist self)))); [|lia].
  simpl. rewrite Hfacts. simpl.
  unfold guess1, guess1_trace. rewrite Hres. simpl.
  apply unknowns_0 in Hres.
  assert (Hnone : list_find (fun t => t = Unknown) (slist self') = None)
    by (by apply list_find_None).
  rewrite Hnone. simpl.
  destruct self' as [sl' s']. simpl in *. by subst.
Qed.

Lemma guess_idempotent_witness :
  guess {| slist := [Irrelevant; Relevant]; solver := None |} (table_of tableA)
  = Ok {| slist := [Irrelevant; Relevant]; solver := None |}.
Proof.
  apply (guess_idempotent (SensitivityList_init 2)). reflexivity.
Defined.

(** X5. Started on a fresh list of width [W], [guess] returns exactly when
    [W] is at least 2 and the table has an integer at every encoding below
    [2^W]; an unset or missing entry, or a width below 2, makes it leave
    by an exception. *)
Theorem guess_returns_iff (W : nat) (p : Z -> result (option Z)) :
  (exists self', guess (SensitivityList_init W) p = Ok self')
  <-> (2 <= W)%nat /\ total_table (Z.of_nat W) p.
Proof.
  split.
  - intros [self' H]. apply guess_inv in H as (facts & ws & HW & Hfacts & Hg & _).
    simpl in HW, Hfacts, Hg. rewrite length_replicate in HW, Hfacts.
    split; [|by eapply add_facts_Ok_total].
    destruct (decide (2 <= W)%nat) as [|Hsmall]; [done|]. exfalso.
    assert (W = 1%nat) as -> by lia.
    vm_compute in Hg. discriminate.
  - intros [HW Htot]. unfold guess. simpl. rewrite length_replicate.
    unfold Z3.BitVecSort. destruct (Z.ltb_spec 0 (Z.of_nat W)); [|lia]. simpl.
    destruct (add_facts p (Z.of_nat W)) as [facts|e] eqn:Hfacts.
    + simpl. destruct (guess1_returns facts (replicate W Unknown)) as [[sl' ws] Hr].
      { rewrite length_replicate. lia. }
      unfold guess1. rewrite Hr. simpl. eauto.
    + exfalso. unfold add_facts in Hfacts.
      assert (Hok : forall xs, (forall k, k ∈ xs -> 0 <= k < 2 ^ Z.of_nat W) ->
                exists ys, rmap (fun i => y ← p i; v ← Z3.IntVal y; Ok (i, v)) xs = Ok ys).
      { induction xs as [|k xs IH]; intros Hxs; [by eexists|].
        destruct (Htot k) as [y Hy]; [apply Hxs; by left|].
        destruct IH as [ys Hys]; [intros; apply Hxs; by right|].
        simpl. rewrite Hy. simpl. rewrite Hys. simpl. eauto. }
      destruct (Hok (range (2 ^ Z.of_nat W))) as [ys Hys].
      { intros k Hk. by apply elem_of_range in Hk. }
      congruence.
Qed.

Lemma bit_irrelevant_partition (W : Z) (P Q : Z -> Z) (i : Z) :
  same_partition W P Q -> bit_irrelevant W P i -> bit_irrelevant W Q i.
Proof.
  intros Hpq Hirr v1 v2 Hv1 Hv2 Hagree.
  apply (Hpq v1 v2 Hv1 Hv2). by apply Hirr.
Qed.

Lemma same_partition_sym (W : Z) (P Q : Z -> Z) :
  same_partition W P Q -> same_partition W Q P.
Proof. intros H v1 v2 Hv1 Hv2. symmetry. by apply H. Qed.

Lemma guess_no_unknown self p self' :
  guess self p = Ok self' -> unknowns (slist self') = 0%nat.
Proof.
  intros H. apply guess_inv in H as (facts & ws & _ & _ & Hg & _).
  by apply guess1_rec_spec in Hg as (_ & Hres & _).
Qed.

(** The letter that [guess] leaves at a position is fixed by the ground
    truth of that bit. *)
Lemma guess_letter (W : nat) (P : Z -> Z) (p : Z -> result (option Z))
    (self' : SensitivityList) (i : nat) :
  (2 <= W)%nat ->
  (forall k, 0 <= k < 2 ^ Z.of_nat W -> p k = Ok (Some (P k))) ->
  guess (SensitivityList_init W) p = Ok self' ->
  (i < W)%nat ->
  (slist self' !! i = Some Irrelevant
   /\ bit_irrelevant (Z.of_nat W) P (Z.of_nat i))
  \/ (slist self' !! i = Some Relevant
      /\ ~ bit_irrelevant (Z.of_nat W) P (Z.of_nat i)).
Proof.
  intros HW Hp Hg Hi.
  destruct (guess_matches_ground_truth W P p HW Hp) as (s & Hs & Hlen & Hbits).
  rewrite Hg in Hs. inversion Hs; subst s; clear Hs.
  destruct (Hbits i Hi) as [Hirr Hrel].
  pose proof (guess_no_unknown _ _ _ Hg) as Hres.
  apply unknowns_0 in Hres. rewrite Forall_forall in Hres.
  destruct (slist self' !! i) as [t|] eqn:Ht.
  - destruct t.
    + exfalso. apply (Hres Unknown); [|done]. by eapply list_elem_of_lookup_2.
    + left. split; [done|]. by apply Hirr.
    + right. split; [done|]. by apply Hrel.
  - apply lookup_ge_None in Ht. lia.
Qed.

(** X6. The verdicts of [guess] depend on the table only through the way
    it partitions the encodings: two total tables of width at least 2 that
    put the same encodings together (for instance the same shapes numbered
    in another order) get the same sensitivity list. *)
Theorem guess_ignores_shape_numbering (W : nat) (P Q : Z -> Z)
    (p q : Z -> result (option Z)) :
  (2 <= W)%nat ->
  (forall k, 0 <= k < 2 ^ Z.of_nat W -> p k = Ok (Some (P k))) ->
  (forall k, 0 <= k < 2 ^ Z.of_nat W -> q k = Ok (Some (Q k))) ->
  same_partition (Z.of_nat W) P Q ->
  guess (SensitivityList_init W) p = guess (SensitivityList_init W) q.
Proof.
  intros HW Hp Hq Hpart.
  destruct (guess_matches_ground_truth W P p HW Hp) as (s1 & Hs1 & Hl1 & _).
  destruct (guess_matches_ground_truth W Q q HW Hq) as (s2 & Hs2 & Hl2 & _).
  rewrite Hs1, Hs2. f_equal.
  assert (Hsl : slist s1 = slist s2).
  { apply list_eq. intros i.
    destruct (decide (i < W)%nat) as [Hi|Hi].
    - destruct (guess_letter W P p s1 i HW Hp Hs1 Hi) as [[-> H1]|[-> H1]];
        destruct (guess_letter W Q q s2 i HW Hq Hs2 Hi) as [[-> H2]|[-> H2]];
        try done; exfalso.
      + apply H2. by apply (bit_irrelevant_partition _ P Q).
      + apply H1. apply (bit_irrelevant_partition _ Q P); [|done].
        by apply same_partition_sym.
    - rewrite !(proj2 (lookup_ge_None _ _)); [done|lia|lia]. }
  pose proof (guess_inv _ _ _ Hs1) as (_ & _ & _ & _ & _ & Hn1).
  pose proof (guess_inv _ _ _ Hs2) as (_ & _ & _ & _ & _ & Hn2).
  destruct s1, s2. simpl in *. by subst.
Qed.

Lemma guess_ignores_shape_numbering_witness :
  guess (SensitivityList_init 2) (table_of tableA)
  = guess (SensitivityList_init 2) (table_of [5; 5; 3; 3]).
Proof.
  apply (guess_ignores_shape_numbering 2 (fun k => k / 2)
           (fun k => if k <? 2 then 5 else 3)).
  - lia.
  - intros k Hk. assert (Hc : k = 0 \/ k = 1 \/ k = 2 \/ k = 3) by lia.
    destruct Hc as [-> | [-> | [-> | ->]]]; reflexivity.
  - intros k Hk. assert (Hc : k = 0 \/ k = 1 \/ k = 2 \/ k = 3) by lia.
    destruct Hc as [-> | [-> | [-> | ->]]]; reflexivity.
  - intros v1 v2 Hv1 Hv2.
    assert (Hc1 : v1 = 0 \/ v1 = 1 \/ v1 = 2 \/ v1 = 3) by lia.
    assert (Hc2 : v2 = 0 \/ v2 = 1 \/ v2 = 2 \/ v2 = 3) by lia.
    destruct Hc1 as [-> | [-> | [-> | ->]]];
      destruct Hc2 as [-> | [-> | [-> | ->]]]; vm_compute; split; congruence.
Defined.

(** ** What the relevant bits decide *)

Lemma splice_bits (a b k j : Z) :
  0 <= k -> 0 <= j ->
  Z.testbit (splice a b k) j = if j <? k then Z.testbit b j else Z.testbit a j.
Proof.
  intros Hk Hj. unfold splice.
  rewrite Z.lor_spec, Z.land_spec, Z.ldiff_spec, Z.testbit_ones by done.
  zbool; try lia; simpl;
    rewrite ?andb_true_r, ?andb_false_r, ?orb_false_r; done.
Qed.

Lemma splice_bounded (W a b k : Z) :
  0 <= W -> 0 <= k -> 0 <= a < 2 ^ W -> 0 <= b < 2 ^ W ->
  0 <= splice a b k < 2 ^ W.
Proof.
  intros HW Hk Ha Hb. apply bounded_of_bits; [done|].
  intros l Hl. rewrite splice_bits by lia.
  by destruct (l <? k); apply (testbit_above _ W).
Qed.

Lemma splice_0 (a b : Z) : splice a b 0 = a.
Proof.
  apply Z.bits_inj'. intros j Hj. rewrite splice_bits by lia.
  destruct (Z.ltb_spec j 0); [lia|done].
Qed.

Lemma splice_full (W a b : Z) :
  0 <= W -> 0 <= a < 2 ^ W -> 0 <= b < 2 ^ W -> splice a b W = b.
Proof.
  intros HW Ha Hb. apply Z.bits_inj'. intros j Hj. rewrite splice_bits by lia.
  destruct (Z.ltb_spec j W); [done|].
  by rewrite !(testbit_above _ W j).
Qed.

(** Moving from one encoding to another one bit at a time, through bits
    that are either equal or irrelevant, never changes the shape. *)
Lemma irrelevant_walk (W : nat) (P : Z -> Z) (v1 v2 : Z) :
  0 <= v1 < 2 ^ Z.of_nat W -> 0 <= v2 < 2 ^ Z.of_nat W ->
  (forall i, (i < W)%nat ->
     Z.testbit v1 (Z.of_nat i) = Z.testbit v2 (Z.of_nat i)
     \/ bit_irrelevant (Z.of_nat W) P (Z.of_nat i)) ->
  P v1 = P v2.
Proof.
  intros Hv1 Hv2 Hbits.
  assert (Hwalk : forall k, (k <= W)%nat -> P v1 = P (splice v1 v2 (Z.of_nat k))).
  { induction k as [|k IH]; intros Hk; [by rewrite splice_0|].
    rewrite IH by lia.
    assert (Hdiff : forall j, 0 <= j -> j <> Z.of_nat k ->
              Z.testbit (splice v1 v2 (Z.of_nat k)) j
              = Z.testbit (splice v1 v2 (Z.of_nat (S k))) j).
    { intros j Hj Hne. rewrite !splice_bits by lia. zbool; try lia; done. }
    destruct (Hbits k ltac:(lia)) as [Heq|Hirr].
    - f_equal. apply Z.bits_inj'. intros j Hj.
      destruct (decide (j = Z.of_nat k)) as [->|Hne]; [|by apply Hdiff].
      rewrite !splice_bits by lia. zbool; try lia. done.
    - apply Hirr; [apply splice_bounded; lia..|].
      intros j Hj Hne. apply Hdiff; lia. }
  rewrite (Hwalk W) by lia. f_equal. apply splice_full; [lia|done..].
Qed.

(** X7. The shape is decided by the relevant bits alone: after [guess] on
    a total table of width at least 2, two encodings that agree on every
    position tagged ['!'] have the same table value. *)
Theorem relevant_bits_decide (W : nat) (P : Z -> Z)
    (p : Z -> result (option Z)) (self' : SensitivityList) (v1 v2 : Z) :
  (2 <= W)%nat ->
  (forall k, 0 <= k < 2 ^ Z.of_nat W -> p k = Ok (Some (P k))) ->
  guess (SensitivityList_init W) p = Ok self' ->
  0 <= v1 < 2 ^ Z.of_nat W -> 0 <= v2 < 2 ^ Z.of_nat W ->
  (forall i, slist self' !! i = Some Relevant ->
             Z.testbit v1 (Z.of_nat i) = Z.testbit v2 (Z.of_nat i)) ->
  P v1 = P v2.
Proof.
  intros HW Hp Hg Hv1 Hv2 Hagree.
  apply (irrelevant_walk W); [done|done|].
  intros i Hi.
  destruct (guess_letter W P p self' i HW Hp Hg Hi) as [[_ Hirr]|[Hrel _]].
  - by right.
  - left. by apply Hagree.
Qed.

Lemma relevant_bits_decide_witness :
  (fun k => k / 2) 2 = (fun k => k / 2) 3.
Proof.
  apply (relevant_bits_decide 2 (fun k => k / 2) (table_of tableA)
           {| slist := [Irrelevant; Relevant]; solver := None |} 2 3).
  - lia.
  - intros k Hk. assert (Hc : k = 0 \/ k = 1 \/ k = 2 \/ k = 3) by lia.
    destruct Hc as [-> | [-> | [-> | ->]]]; reflexivity.
  - reflexivity.
  - lia.
  - lia.
  - intros i Hi. destruct i as [|[|i]]; [discriminate|reflexivity|discriminate].
Defined.

Lemma entropy_0_no_relevant (sl : list tag) :
  entropy sl = 0%nat <-> forall i, sl !! i <> Some Relevant.
Proof.
  unfold entropy. induction sl as [|t sl IH].
  - split; [intros _ i; by rewrite lookup_nil|done].
  - rewrite filter_cons. destruct (decide (t = Relevant)) as [->|Hne]; simpl.
    + split; [lia|]. intros H. by specialize (H 0%nat).
    + rewrite IH. split.
      * intros H [|i]; simpl; [congruence|apply H].
      * intros H i. apply (H (S i)).
Qed.

(** X8. [isInsensitive] after [guess] means the table is constant, and the
    other way round: on a total table of width at least 2 the entropy is 0
    exactly when all encodings have the same value. *)
Theorem insensitive_iff_constant (W : nat) (P : Z -> Z)
    (p : Z -> result (option Z)) (self' : SensitivityList) :
  (2 <= W)%nat ->
  (forall k, 0 <= k < 2 ^ Z.of_nat W -> p k = Ok (Some (P k))) ->
  guess (SensitivityList_init W) p = Ok self' ->
  (isInsensitive (slist self') = true
   <-> forall v1 v2, 0 <= v1 < 2 ^ Z.of_nat W -> 0 <= v2 < 2 ^ Z.of_nat W ->
                     P v1 = P v2).
Proof.
  intros HW Hp Hg. unfold isInsensitive. rewrite Nat.eqb_eq, entropy_0_no_relevant.
  split.
  - intros Hnone v1 v2 Hv1 Hv2. apply (irrelevant_walk W); [done|done|].
    intros i Hi. right.
    destruct (guess_letter W P p self' i HW Hp Hg Hi) as [[_ Hirr]|[Hrel _]];
      [done|]. by apply Hnone in Hrel.
  - intros Hconst i Hrel.
    assert (Hi : (i < W)%nat).
    { apply lookup_lt_Some in Hrel.
      pose proof (guess_inv _ _ _ Hg) as (facts & ws & _ & _ & Hg1 & _).
      apply guess1_rec_spec in Hg1 as (Hlen & _). simpl in Hlen.
      rewrite length_replicate in Hlen. lia. }
    destruct (guess_letter W P p self' i HW Hp Hg Hi) as [[Hirr _]|[_ Hno]];
      [congruence|].
    apply Hno. intros v1 v2 Hv1 Hv2 _. by apply Hconst.
Qed.

Lemma insensitive_iff_constant_witness :
  isInsensitive [Irrelevant; Irrelevant] = true
  <-> forall v1 v2, 0 <= v1 < 2 ^ Z.of_nat 2 -> 0 <= v2 < 2 ^ Z.of_nat 2 ->
                    (fun _ : Z => 7) v1 = (fun _ : Z => 7) v2.
Proof.
  apply (insensitive_iff_constant 2 (fun _ => 7) (table_of [7; 7; 7; 7])
           {| slist := [Irrelevant; Irrelevant]; solver := None |}).
  - lia.
  - intros k Hk. assert (Hc : k = 0 \/ k = 1 \/ k = 2 \/ k = 3) by lia.
    destruct Hc as [-> | [-> | [-> | ->]]]; reflexivity.
  - reflexivity.
Defined.

(** ** Field specs, slices and descriptions *)

Lemma rmap_letters_unknown (f : nat -> tag -> nat * tag) (sl : list tag) :
  (forall i a, snd (f i a) = a) ->
  ~ Forall (fun t => t <> Unknown) sl ->
  rmap slLetter_to_FieldSpecElement (imap f sl) = Raise ErrorRaised.
Proof.
  revert f. induction sl as [|t sl IH]; intros f Hf H.
  - exfalso. apply H. constructor.
  - cbn [imap rmap].
    assert (Hh : slLetter_to_FieldSpecElement (f 0%nat t)
                 = slLetter_to_FieldSpecElement (0%nat, t))
      by (unfold slLetter_to_FieldSpecElement; by rewrite Hf).
    rewrite Hh. destruct (decide (t = Unknown)) as [->|Ht]; [done|].
    rewrite (IH (f ∘ S)); [by destruct t|by intros; apply Hf|].
    intros Hall. apply H. by constructor.
Qed.

(** X9. [asFieldSpec] succeeds exactly on the lists without ['?']: there
    it returns one element per letter, most significant position first,
    one free bit for ['!'] and a fixed ['0'] for ['x']; on any list that
    still holds a ['?'] it leaves by the error. *)
Theorem asFieldSpec_iff_resolved (sl : list tag) :
  asFieldSpec sl
  = if decide (unknowns sl = 0%nat)
    then Ok (map element_of (rev sl))
    else Raise ErrorRaised.
Proof.
  destruct (decide (unknowns sl = 0%nat)) as [H|H].
  - by apply asFieldSpec_resolved.
  - unfold asFieldSpec, enumerate.
    rewrite rmap_letters_unknown; [done|done|].
    intros Hall. by apply H, unknowns_0.
Qed.

Lemma rev_lookup {A} (l : list A) (k : nat) :
  (k < length l)%nat -> rev l !! k = l !! (length l - S k)%nat.
Proof.
  intros Hk. rewrite rev_alt. change (rev_append l []) with (reverse l).
  by apply reverse_lookup.
Qed.

Lemma slice_msb_length (tags : list tag) (bits : list bool) :
  length bits = length tags ->
  length (slice_msb tags bits)
  = length (filter (fun t => t = Relevant) tags).
Proof.
  revert bits. induction tags as [|t tags IH]; intros [|b bits] Hlen;
    try done; simpl in Hlen.
  unfold slice_msb in *. simpl. rewrite !filter_cons. simpl.
  destruct (decide (t = Relevant)); simpl; rewrite IH by lia; done.
Qed.

Lemma slice_msb_agree (tags : list tag) (b1 b2 : list bool) :
  length b1 = length tags -> length b2 = length tags ->
  (slice_msb tags b1 = slice_msb tags b2
   <-> forall k, tags !! k = Some Relevant -> b1 !! k = b2 !! k).
Proof.
  revert b1 b2. induction tags as [|t tags IH]; intros [|x b1] [|y b2] H1 H2;
    try done; simpl in H1, H2.
  assert (Hcons : forall (z : bool) bs,
              slice_msb (t :: tags) (z :: bs)
              = if decide (t = Relevant) then z :: slice_msb tags bs
                else slice_msb tags bs).
    { intros z bs. unfold slice_msb. simpl. rewrite filter_cons. simpl.
      by destruct (decide (t = Relevant)). }
    rewrite !Hcons. destruct (decide (t = Relevant)) as [->|Hne].
    + split.
      * intros [= -> Hs] [|k] Hk; [done|]. simpl in *.
        by apply (IH b1 b2); [lia|lia| |].
      * intros H. f_equal.
        { specialize (H 0%nat eq_refl). by inversion H. }
        apply IH; [lia|lia|]. intros k Hk. apply (H (S k) Hk).
    + rewrite (IH b1 b2) by lia. split.
      * intros H [|k] Hk; simpl in *; [congruence|by apply H].
      * intros H k Hk. apply (H (S k) Hk).
Qed.

(** X10. The significant slice of a [W]-bit encoding has [entropy] bits,
    and two [W]-bit encodings have the same slice exactly when they agree
    on every relevant position (position [i], counted from the least
    significant bit, is item [W-1-i] of the encoding). *)
Theorem significantSlice_agree (sl : list tag) (b1 b2 : list bool) :
  length b1 = length sl -> length b2 = length sl ->
  length (significantSlice sl b1) = entropy sl
  /\ (significantSlice sl b1 = significantSlice sl b2
      <-> forall i, sl !! i = Some Relevant ->
            b1 !! (length sl - S i)%nat = b2 !! (length sl - S i)%nat).
Proof.
  intros H1 H2. change (significantSlice sl) with (slice_msb (rev sl)).
  split.
  - rewrite slice_msb_length by (by rewrite length_rev). apply entropy_rev.
  - rewrite slice_msb_agree by (by rewrite length_rev). split.
    + intros H i Hi. assert (Hlt := lookup_lt_Some _ _ _ Hi).
      apply H. rewrite rev_lookup by lia.
      replace (length sl - S (length sl - S i))%nat with i by lia. done.
    + intros H k Hk. assert (Hlt := lookup_lt_Some _ _ _ Hk).
      rewrite length_rev in Hlt. rewrite rev_lookup in Hk by done.
      specialize (H _ Hk).
      by replace (length sl - S (length sl - S k))%nat with k in H by lia.
Qed.

Lemma significantSlice_agree_witness :
  length (significantSlice [Relevant; Irrelevant; Relevant]
            [true; false; true]) = entropy [Relevant; Irrelevant; Relevant].
Proof.
  apply (proj1 (significantSlice_agree [Relevant; Irrelevant; Relevant]
                  [true; false; true] [true; true; true] eq_refl eq_refl)).
Defined.

Lemma letter_inj (t u : tag) : letter t = letter u -> t = u.
Proof. by destruct t, u. Qed.

Lemma letters_closed_inj (l1 l2 : list tag) :
  fold_right String (String (Ascii.ascii_of_nat 187) EmptyString) (map letter l1)
  = fold_right String (String (Ascii.ascii_of_nat 187) EmptyString) (map letter l2)
  -> l1 = l2.
Proof.
  revert l2. induction l1 as [|t l1 IH]; intros [|u l2] H; simpl in H.
  - done.
  - exfalso. inversion H as [[Hc _]]. by destruct u.
  - exfalso. inversion H as [[Hc _]]. by destruct t.
  - inversion H as [[Hc Hrest]]. f_equal; [by apply letter_inj|by apply IH].
Qed.

(** X11. The printed form of a sensitivity list identifies it: it has one
    character per letter between the two guillemets, and two lists with
    the same printed form are the same list. *)
Theorem repr_identifies (sl1 sl2 : list tag) :
  String.length (repr_SensitivityList sl1) = S (S (length sl1))
  /\ (repr_SensitivityList sl1 = repr_SensitivityList sl2 -> sl1 = sl2).
Proof.
  unfold repr_SensitivityList. split.
  - cbn [String.length]. f_equal.
    rewrite <- (length_rev sl1).
    induction (rev sl1) as [|t l IH]; [done|]. simpl. by rewrite IH.
  - intros H. inversion H as [Hrest].
    apply letters_closed_inj in Hrest.
    rewrite <- (rev_involutive sl1), <- (rev_involutive sl2). by f_equal.
Qed.

(** ** [mingle] *)

Lemma count01_length (mask : list bool) :
  (count0 mask + count1 mask)%nat = length mask.
Proof.
  unfold count0, count1. induction mask as [|[|] m IH]; [done| |];
    rewrite !filter_cons; simpl; lia.
Qed.

Lemma count1_cons (b : bool) (m : list bool) :
  count1 (b :: m) = ((if b then 1 else 0) + count1 m)%nat.
Proof. unfold count1. rewrite filter_cons. by destruct b. Qed.

Lemma count0_cons (b : bool) (m : list bool) :
  count0 (b :: m) = ((if b then 0 else 1) + count0 m)%nat.
Proof. unfold count0. rewrite filter_cons. by destruct b. Qed.

(** Taking the top bit off an argument, as both branches of [mingle] do. *)
Lemma take_top (o : bvobj) (n : nat) :
  fits o -> obj_size o = Z.of_nat (S n) ->
  exists leftmost rest b0,
    Extract_obj (obj_size o - 1) (obj_size o - 1) o = Ok leftmost
    /\ (if 1 <? obj_size o
        then e ← Extract_obj (obj_size o - 2) 0 o; Ok (Term e)
        else Ok Empty) = Ok rest
    /\ fits rest
    /\ obj_size rest = Z.of_nat n
    /\ bits_of_obj o = b0 :: bits_of_obj rest
    /\ Z3.size leftmost = 1
    /\ forall k, 0 <= k ->
         Z.testbit (Z3.eval Z3.no_vars leftmost) k = (k =? 0) && b0.
Proof.
  destruct o as [|e]; simpl; intros Hfit Hsz; [lia|].
  destruct Hfit as [H1 Hhi].
  set (v := Z3.eval Z3.no_vars e) in *.
  unfold Z3.Extract.
  replace ((Z3.size e - 1 <=? Z3.size e - 1) && (0 <=? Z3.size e - 1)
           && (Z3.size e - 1 <? Z3.size e)) with true
    by (symmetry; zbool; try lia; done).
  assert (Hbits : Bits_uint v (Z.to_nat (Z3.size e))
                  = Z.testbit v (Z.of_nat n) :: Bits_uint v n).
  { rewrite Hsz, Nat2Z.id. apply Bits_uint_S. }
  assert (Htop : forall k, 0 <= k ->
            Z.testbit (Z3.eval Z3.no_vars
                         (Z3.ExtractT (Z3.size e - 1) (Z3.size e - 1) e)) k
            = (k =? 0) && Z.testbit v (Z.of_nat n)).
  { intros k Hk. cbn [Z3.eval]. fold v. rewrite testbit_extract by lia.
    zbool; try lia; simpl; try done; subst k; f_equal; lia. }
  destruct (Z.ltb_spec 1 (Z3.size e)) as [Hbig|Hone].
  - replace ((0 <=? Z3.size e - 2) && (0 <=? 0) && (Z3.size e - 2 <? Z3.size e))
      with true by (symmetry; zbool; try lia; done).
    simpl. eexists _, _, (Z.testbit v (Z.of_nat n)).
    split; [done|]. split; [done|].
    assert (Hrb : forall k, 0 <= k ->
              Z.testbit (Z.land (Z.shiftr v 0) (Z.ones (Z3.size e - 2 - 0 + 1))) k
              = (k <? Z.of_nat n) && Z.testbit v k).
    { intros k Hk. rewrite testbit_extract by lia. rewrite Z.add_0_r.
      zbool; try lia; done. }
    split; [|split; [|split; [|split; [|done]]]].
    + simpl. split; [lia|]. intros k Hk. rewrite Hrb by lia.
      destruct (Z.ltb_spec k (Z.of_nat n)); [lia|done].
    + simpl. lia.
    + simpl. fold v. rewrite Hbits. f_equal.
      replace (Z.to_nat (Z3.size e - 2 - 0 + 1)) with n by lia.
      apply Bits_uint_ext. intros j Hj. rewrite Hrb by lia.
      destruct (Z.ltb_spec j (Z.of_nat n)); [done|lia].
    + simpl. lia.
  - simpl. eexists _, Empty, (Z.testbit v (Z.of_nat n)).
    split; [done|]. split; [done|]. split; [done|].
    assert (n = 0%nat) as -> by lia.
    split; [done|]. split; [by rewrite Hbits|]. split; [simpl; lia|done].
Qed.

(** Putting the top bit in front of what the recursive call returned. *)
Lemma put_top (leftmost : Z3.bv) (tail : bvobj) (b0 : bool) :
  Z3.size leftmost = 1 ->
  (forall k, 0 <= k ->
     Z.testbit (Z3.eval Z3.no_vars leftmost) k = (k =? 0) && b0) ->
  fits tail ->
  exists res,
    (if obj_size tail =? 0 then Ok (Term leftmost)
     else c ← Concat_obj leftmost tail; Ok (Term (Z3.simplify c))) = Ok res
    /\ fits res
    /\ obj_size res = 1 + obj_size tail
    /\ bits_of_obj res = b0 :: bits_of_obj tail.
Proof.
  intros Hs Hb Hfit. destruct tail as [|t]; simpl.
  - exists (Term leftmost). simpl. rewrite Hs.
    split; [done|]. split; [|split; [done|]].
    + split; [lia|]. intros k Hk. rewrite Hb by lia.
      destruct (Z.eqb_spec k 0); [lia|done].
    + change (Z.to_nat 1) with 1%nat. rewrite Bits_uint_S.
      rewrite Hb by lia. done.
  - destruct Hfit as [H1 Hhi].
    destruct (Z.eqb_spec (Z3.size t) 0); [lia|].
    cbn [Concat_obj mbind result_bind mret result_ret].
    eexists. split; [done|].
    assert (Hv : forall k, 0 <= k ->
              Z.testbit (Z3.eval Z3.no_vars
                           (Z3.simplify (Z3.Concat leftmost t))) k
              = if k <? Z3.size t then Z.testbit (Z3.eval Z3.no_vars t) k
                else (k =? Z3.size t) && b0).
    { intros k Hk. cbn [Z3.simplify Z3.Concat Z3.eval Z3.size].
      rewrite testbit_var, Z.lor_spec, Z.shiftl_spec by lia.
      rewrite Hs. destruct (Z.ltb_spec k (Z3.size t)) as [Hlt|Hge].
      - rewrite (Z.testbit_neg_r (Z3.eval Z3.no_vars leftmost)) by lia. simpl.
        zbool; try lia; done.
      - rewrite Hb, Hhi by lia.
        zbool; try lia; simpl; rewrite ?andb_false_r, ?orb_false_r; try done.
        all: try (f_equal; lia). }
    assert (Hsize : Z3.size (Z3.simplify (Z3.Concat leftmost t))
                    = 1 + Z3.size t) by (simpl; lia).
    split; [|split].
    + cbn [fits]. rewrite Hsize. split; [lia|]. intros k Hk.
      rewrite Hv by lia. zbool; try lia; done.
    + cbn [obj_size]. done.
    + cbn [bits_of_obj]. rewrite Hsize.
      replace (Z.to_nat (1 + Z3.size t)) with (S (Z.to_nat (Z3.size t))) by lia.
      rewrite Bits_uint_S. f_equal.
      * rewrite Hv by lia. rewrite Z2Nat.id by lia.
        zbool; try lia. done.
      * apply Bits_uint_ext. intros j Hj. rewrite Hv by lia.
        destruct (Z.ltb_spec j (Z3.size t)); [done|lia].
Qed.

Lemma fits_size_nonneg (o : bvobj) : fits o -> 0 <= obj_size o.
Proof. destruct o; simpl; [lia|]. intros [H _]. lia. Qed.

Lemma bits_of_obj_length (o : bvobj) :
  length (bits_of_obj o) = Z.to_nat (obj_size o).
Proof. destruct o; simpl; [done|apply Bits_uint_length]. Qed.

(** With sources of the sizes that the mask asks for, [mingle] returns the
    interleaving. *)
Lemma mingle_interleave (mask : list bool) (a b : bvobj) :
  fits a -> fits b ->
  obj_size a = Z.of_nat (count0 mask) ->
  obj_size b = Z.of_nat (count1 mask) ->
  exists res,
    mingle a b mask = Ok res
    /\ fits res
    /\ obj_size res = Z.of_nat (length mask)
    /\ bits_of_obj res = interleave mask (bits_of_obj a) (bits_of_obj b).
Proof.
  revert a b. induction mask as [|m0 mask IH]; intros a b Ha Hb Hsa Hsb.
  - simpl. rewrite Hsa, Hsb. simpl. exists Empty. done.
  - assert (Hsum : obj_size a + obj_size b = Z.of_nat (length (m0 :: mask))).
    { rewrite Hsa, Hsb, <- (count01_length (m0 :: mask)). lia. }
    cbn [mingle]. rewrite Hsum, Z.eqb_refl. cbn [negb].
    rewrite count1_cons in Hsb. rewrite count0_cons in Hsa.
    destruct m0.
    + destruct (take_top b (count1 mask) Hb)
        as (leftmost & rest & b0 & Hleft & Hrest & Hfr & Hsr & Hbits & Hs1 & Htop);
        [rewrite Hsb; lia|].
      rewrite Hleft, Hrest. cbn [mbind result_bind].
      destruct (IH a rest Ha Hfr) as (tail & Htail & Hft & Hst & Hbt);
        [rewrite Hsa; lia|done|].
      rewrite Htail. cbn [mbind result_bind].
      destruct (put_top leftmost tail b0 Hs1 Htop Hft)
        as (res & Hres & Hfres & Hsres & Hbres).
      exists res. split; [done|]. split; [done|]. split.
      * rewrite Hsres, Hst. simpl. lia.
      * rewrite Hbres, Hbt, Hbits. done.
    + destruct (take_top a (count0 mask) Ha)
        as (leftmost & rest & b0 & Hleft & Hrest & Hfr & Hsr & Hbits & Hs1 & Htop);
        [rewrite Hsa; lia|].
      rewrite Hleft, Hrest. cbn [mbind result_bind].
      destruct (IH rest b Hfr Hb) as (tail & Htail & Hft & Hst & Hbt);
        [done|rewrite Hsb; lia|].
      rewrite Htail. cbn [mbind result_bind].
      destruct (put_top leftmost tail b0 Hs1 Htop Hft)
        as (res & Hres & Hfres & Hsres & Hbres).
      exists res. split; [done|]. split; [done|]. split.
      * rewrite Hsres, Hst. simpl. lia.
      * rewrite Hbres, Hbt, Hbits. done.
Qed.

(** When [mingle] returns, each source had exactly as many bits as the
    mask gives it. *)
Lemma mingle_Ok_sizes (mask : list bool) (a b : bvobj) (res : bvobj) :
  fits a -> fits b ->
  mingle a b mask = Ok res ->
  obj_size a = Z.of_nat (count0 mask) /\ obj_size b = Z.of_nat (count1 mask).
Proof.
  revert a b res. induction mask as [|m0 mask IH]; intros a b res Ha Hb H.
  - simpl in H. pose proof (fits_size_nonneg a Ha). pose proof (fits_size_nonneg b Hb).
    destruct (Z.eqb_spec (obj_size a + obj_size b) (Z.of_nat 0)) as [Heq|];
      [|discriminate].
    simpl in Heq. change (count0 []) with 0%nat. change (count1 []) with 0%nat.
    simpl. lia.
  - cbn [mingle] in H.
    destruct (Z.eqb_spec (obj_size a + obj_size b) (Z.of_nat (length (m0 :: mask))))
      as [Hsum|]; [|discriminate].
    cbn [negb] in H. rewrite count1_cons, count0_cons.
    destruct m0.
    + apply bind_Ok in H as (leftmost & Hleft & H).
      apply bind_Ok in H as (rest & Hrest & H).
      apply bind_Ok in H as (tail & Htail & _).
      assert (Hpos : 1 <= obj_size b).
      { destruct b as [|e]; [discriminate|]. by destruct Hb. }
      destruct (take_top b (Z.to_nat (obj_size b - 1)) Hb)
        as (l' & rest' & b0 & _ & Hrest' & Hfr & Hsr & _); [lia|].
      rewrite Hrest in Hrest'. inversion Hrest'; subst rest'.
      destruct (IH a rest tail Ha Hfr Htail) as [Hca Hcr]. lia.
    + apply bind_Ok in H as (leftmost & Hleft & H).
      apply bind_Ok in H as (rest & Hrest & H).
      apply bind_Ok in H as (tail & Htail & _).
      assert (Hpos : 1 <= obj_size a).
      { destruct a as [|e]; [discriminate|]. by destruct Ha. }
      destruct (take_top a (Z.to_nat (obj_size a - 1)) Ha)
        as (l' & rest' & b0 & _ & Hrest' & Hfr & Hsr & _); [lia|].
      rewrite Hrest in Hrest'. inversion Hrest'; subst rest'.
      destruct (IH rest b tail Hfr Hb Htail) as [Hcr Hcb]. lia.
Qed.

Lemma fits_literal (v n : Z) : 1 <= n -> fits (Term (Z3.BitVecVal v n)).
Proof.
  intros Hn. simpl. split; [done|]. intros k Hk.
  rewrite testbit_var by lia. zbool; try lia; done.
Qed.

Lemma bits_of_literal (v : Z) (n : nat) :
  bits_of_obj (Term (Z3.BitVecVal v (Z.of_nat n))) = Bits_uint v n.
Proof.
  simpl. rewrite Nat2Z.id. apply Bits_uint_ext. intros j Hj.
  rewrite testbit_var by lia. zbool; try lia; done.
Qed.

(** The key of a pair of literals is the interleaving of their bits. *)
Lemma flock_key_interleave (mask : list bool) (l r : Z) :
  (1 <= count0 mask)%nat -> (1 <= count1 mask)%nat ->
  flock_key mask (Z.of_nat (count0 mask)) (Z.of_nat (count1 mask)) l r
  = Ok (interleave mask (Bits_uint l (count0 mask)) (Bits_uint r (count1 mask))).
Proof.
  intros HL HR. unfold flock_key.
  destruct (mingle_interleave mask
              (Term (Z3.BitVecVal l (Z.of_nat (count0 mask))))
              (Term (Z3.BitVecVal r (Z.of_nat (count1 mask)))))
    as (res & Hres & Hfit & Hsize & Hbits);
    [apply fits_literal; lia|apply fits_literal; lia|done|done|].
  rewrite Hres. cbn [mbind result_bind].
  rewrite !bits_of_literal in Hbits.
  destruct res as [|e]; [simpl in Hsize; pose proof (count01_length mask); lia|].
  cbn [simplify_obj mbind result_bind Z3.simplify Z3.as_long]. f_equal.
  rewrite <- Hbits. cbn [bits_of_obj]. simpl in Hsize. rewrite Hsize.
  rewrite <- Nat2Z.inj_add, count01_length, !Nat2Z.id.
  apply Bits_uint_ext. intros j Hj. rewrite testbit_var by lia.
  zbool; try lia; done.
Qed.

Lemma pick_cons (m0 p0 : bool) (mask pat : list bool) (side : bool) :
  pick (m0 :: mask) (p0 :: pat) side
  = if decide (m0 = side) then p0 :: pick mask pat side else pick mask pat side.
Proof.
  unfold pick. simpl. rewrite filter_cons. simpl.
  by destruct (decide (m0 = side)).
Qed.

Lemma interleave_length (mask ls rs : list bool) :
  length ls = count0 mask -> length rs = count1 mask ->
  length (interleave mask ls rs) = length mask.
Proof.
  revert ls rs. induction mask as [|[|] mask IH]; intros ls rs Hl Hr; [done| |].
  - rewrite count1_cons in Hr. rewrite count0_cons in Hl.
    destruct rs as [|r rs]; [simpl in Hr; lia|]. simpl. f_equal.
    apply IH; simpl in *; lia.
  - rewrite count1_cons in Hr. rewrite count0_cons in Hl.
    destruct ls as [|l ls]; [simpl in Hl; lia|]. simpl. f_equal.
    apply IH; simpl in *; lia.
Qed.

Lemma pick_interleave (mask ls rs : list bool) :
  length ls = count0 mask -> length rs = count1 mask ->
  pick mask (interleave mask ls rs) false = ls
  /\ pick mask (interleave mask ls rs) true = rs.
Proof.
  revert ls rs. induction mask as [|[|] mask IH]; intros ls rs Hl Hr.
  - destruct ls, rs; done.
  - rewrite count1_cons in Hr. rewrite count0_cons in Hl.
    destruct rs as [|r rs]; [simpl in Hr; lia|]. cbn [interleave].
    rewrite !pick_cons.
    destruct (IH ls rs) as [H0 H1]; [simpl in *; lia..|].
    destruct (decide (true = false)); [done|].
    destruct (decide (true = true)); [|done]. by rewrite H0, H1.
  - rewrite count1_cons in Hr. rewrite count0_cons in Hl.
    destruct ls as [|l ls]; [simpl in Hl; lia|]. cbn [interleave].
    rewrite !pick_cons.
    destruct (IH ls rs) as [H0 H1]; [simpl in *; lia..|].
    destruct (decide (false = true)); [done|].
    destruct (decide (false = false)); [|done]. by rewrite H0, H1.
Qed.

Lemma interleave_pick (mask pat : list bool) :
  length pat = length mask ->
  length (pick mask pat false) = count0 mask
  /\ length (pick mask pat true) = count1 mask
  /\ interleave mask (pick mask pat false) (pick mask pat true) = pat.
Proof.
  revert pat. induction mask as [|m0 mask IH]; intros [|p0 pat] Hlen;
    try done; simpl in Hlen.
  destruct (IH pat) as (H0 & H1 & Hi); [lia|].
  rewrite !pick_cons, count0_cons, count1_cons.
  destruct m0.
  - destruct (decide (true = false)); [done|].
    destruct (decide (true = true)); [|done].
    cbn [interleave length]. rewrite Hi. split; [lia|]. split; [lia|done].
  - destruct (decide (false = true)); [done|].
    destruct (decide (false = false)); [|done].
    cbn [interleave length]. rewrite Hi. split; [lia|]. split; [lia|done].
Qed.

(** X12. [mingle] on two literals returns exactly when the left literal
    has as many bits as the mask has zeros and the right one as many as it
    has ones. The result then has one bit per mask position, and read from
    the most significant bit it takes, at each position, the next unused
    bit of the right literal where the mask is set and of the left literal
    elsewhere. *)
Theorem mingle_is_interleave (mask : list bool) (l r L R : Z) :
  1 <= L -> 1 <= R ->
  (L = Z.of_nat (count0 mask) /\ R = Z.of_nat (count1 mask) ->
     exists res,
       mingle (Term (Z3.BitVecVal l L)) (Term (Z3.BitVecVal r R)) mask
       = Ok (Term res)
       /\ Z3.size res = Z.of_nat (length mask)
       /\ Bits_uint (Z3.eval Z3.no_vars res) (length mask)
          = interleave mask (Bits_uint l (count0 mask))
                            (Bits_uint r (count1 mask)))
  /\ ((exists res,
         mingle (Term (Z3.BitVecVal l L)) (Term (Z3.BitVecVal r R)) mask
         = Ok res) ->
      L = Z.of_nat (count0 mask) /\ R = Z.of_nat (count1 mask)).
Proof.
  intros HL HR. split.
  - intros [-> ->].
    destruct (mingle_interleave mask
                (Term (Z3.BitVecVal l (Z.of_nat (count0 mask))))
                (Term (Z3.BitVecVal r (Z.of_nat (count1 mask)))))
      as (res & Hres & Hfit & Hsize & Hbits);
      [by apply fits_literal|by apply fits_literal|done|done|].
    rewrite !bits_of_literal in Hbits.
    destruct res as [|e];
      [simpl in Hsize; pose proof (count01_length mask); lia|].
    exists e. split; [done|]. simpl in Hsize. split; [done|].
    rewrite <- Hbits. cbn [bits_of_obj]. by rewrite Hsize, Nat2Z.id.
  - intros [res Hres].
    apply mingle_Ok_sizes in Hres; [done|by apply fits_literal..].
Qed.

Lemma mingle_is_interleave_witness :
  exists res,
    mingle (Term (Z3.BitVecVal 2 2)) (Term (Z3.BitVecVal 1 2))
           [false; true; true; false] = Ok (Term res)
    /\ Z3.size res = Z.of_nat (length [false; true; true; false]).
Proof.
  destruct (proj1 (mingle_is_interleave [false; true; true; false] 2 1 2 2
                     ltac:(lia) ltac:(lia)))
    as (res & Hres & Hsize & _); [split; reflexivity|].
  exists res. split; [exact Hres | exact Hsize].
Defined.

(** The keys of a mask and the pairs of values correspond one to one. *)
Lemma flock_key_bijection (mask : list bool) :
  (1 <= count0 mask)%nat -> (1 <= count1 mask)%nat ->
  (forall l1 r1 l2 r2,
     0 <= l1 < 2 ^ Z.of_nat (count0 mask) ->
     0 <= r1 < 2 ^ Z.of_nat (count1 mask) ->
     0 <= l2 < 2 ^ Z.of_nat (count0 mask) ->
     0 <= r2 < 2 ^ Z.of_nat (count1 mask) ->
     flock_key mask (Z.of_nat (count0 mask)) (Z.of_nat (count1 mask)) l1 r1
     = flock_key mask (Z.of_nat (count0 mask)) (Z.of_nat (count1 mask)) l2 r2 ->
     l1 = l2 /\ r1 = r2)
  /\ (forall pat, length pat = length mask ->
        exists l r,
          0 <= l < 2 ^ Z.of_nat (count0 mask)
          /\ 0 <= r < 2 ^ Z.of_nat (count1 mask)
          /\ flock_key mask (Z.of_nat (count0 mask)) (Z.of_nat (count1 mask)) l r
             = Ok pat).
Proof.
  intros HL HR. split.
  - intros l1 r1 l2 r2 Hl1 Hr1 Hl2 Hr2 Heq.
    rewrite !flock_key_interleave in Heq by done. inversion Heq as [Hi].
    pose proof (pick_interleave mask (Bits_uint l1 (count0 mask))
                  (Bits_uint r1 (count1 mask))
                  (Bits_uint_length _ _) (Bits_uint_length _ _)) as [A0 A1].
    pose proof (pick_interleave mask (Bits_uint l2 (count0 mask))
                  (Bits_uint r2 (count1 mask))
                  (Bits_uint_length _ _) (Bits_uint_length _ _)) as [B0 B1].
    rewrite Hi in A0, A1. rewrite A0 in B0. rewrite A1 in B1.
    split; eapply Bits_uint_inj; eauto.
  - intros pat Hlen.
    destruct (interleave_pick mask pat Hlen) as (H0 & H1 & Hi).
    destruct (Bits_uint_surj (pick mask pat false)) as (l & Hl & Hbl).
    destruct (Bits_uint_surj (pick mask pat true)) as (r & Hr & Hbr).
    rewrite H0 in Hl, Hbl. rewrite H1 in Hr, Hbr.
    exists l, r. split; [done|]. split; [done|].
    rewrite flock_key_interleave by done. by rewrite Hbl, Hbr, Hi.
Qed.

(** X13. For a mask with both groups non-empty, the catalog key that
    [factorize_flock] computes is a one-to-one correspondence between the
    pairs (left value, right value) and the patterns as long as the mask:
    different pairs get different keys, and every pattern is the key of a
    pair. *)
Theorem flock_key_bijective (mask : list bool) :
  (1 <= count0 mask)%nat -> (1 <= count1 mask)%nat ->
  (forall l1 r1 l2 r2,
     0 <= l1 < 2 ^ Z.of_nat (count0 mask) ->
     0 <= r1 < 2 ^ Z.of_nat (count1 mask) ->
     0 <= l2 < 2 ^ Z.of_nat (count0 mask) ->
     0 <= r2 < 2 ^ Z.of_nat (count1 mask) ->
     flock_key mask (Z.of_nat (count0 mask)) (Z.of_nat (count1 mask)) l1 r1
     = flock_key mask (Z.of_nat (count0 mask)) (Z.of_nat (count1 mask)) l2 r2 ->
     l1 = l2 /\ r1 = r2)
  /\ (forall pat, length pat = length mask ->
        exists l r,
          0 <= l < 2 ^ Z.of_nat (count0 mask)
          /\ 0 <= r < 2 ^ Z.of_nat (count1 mask)
          /\ flock_key mask (Z.of_nat (count0 mask)) (Z.of_nat (count1 mask)) l r
             = Ok pat).
Proof. apply flock_key_bijection. Qed.

Lemma flock_key_bijective_witness :
  exists l r,
    0 <= l < 2 ^ Z.of_nat (count0 [false; true])
    /\ 0 <= r < 2 ^ Z.of_nat (count1 [false; true])
    /\ flock_key [false; true] (Z.of_nat (count0 [false; true]))
         (Z.of_nat (count1 [false; true])) l r = Ok [true; false].
Proof.
  apply (proj2 (flock_key_bijective [false; true]
                  ltac:(vm_compute; lia) ltac:(vm_compute; lia))).
  reflexivity.
Defined.

(** ** What a flock query needs and what an accepted flock means *)

Lemma true_shape_key shapeTags mask lBits rBits l r :
  true_shape shapeTags mask lBits rBits l r
  = (key ← flock_key mask lBits rBits l r;
     match shapeTags !! key with
     | None => Raise KeyError
     | Some shape => Ok shape
     end).
Proof.
  unfold true_shape, flock_key.
  destruct (mingle _ _ _) as [yx|]; [|done]. simpl.
  destruct (simplify_obj yx) as [sy|]; [|done]. simpl.
  by destruct (Z3.as_long sy).
Qed.

Lemma rmap_all_Ok {A B} (g : A -> result B) (xs : list A) :
  (forall x, x ∈ xs -> exists y, g x = Ok y) ->
  exists ys, rmap g xs = Ok ys.
Proof.
  induction xs as [|x xs IH]; intros H; [by eexists|].
  destruct (H x) as [y Hy]; [by left|].
  destruct IH as [ys Hys]; [intros; apply H; by right|].
  simpl. rewrite Hy. simpl. rewrite Hys. simpl. eauto.
Qed.

(** When the query of a mask can be built. *)
Lemma flock_query_Ok_iff (shapeTags : gmap (list bool) Z) (mask : list bool) :
  (exists asserts, flock_query shapeTags mask = Ok asserts)
  <-> (1 <= count0 mask)%nat /\ (1 <= count1 mask)%nat
      /\ forall pat, length pat = length mask -> is_Some (shapeTags !! pat).
Proof.
  split.
  - intros [asserts H].
    assert (HLR : (1 <= count0 mask)%nat /\ (1 <= count1 mask)%nat).
    { unfold flock_query, Z3.BitVecSort in H.
      destruct (Z.ltb_spec 0 (Z.of_nat (count0 mask))); [|discriminate].
      destruct (Z.ltb_spec 0 (Z.of_nat (count1 mask))); [|discriminate]. lia. }
    destruct HLR as [HL HR]. split; [done|]. split; [done|].
    intros pat Hlen.
    destruct (proj2 (flock_key_bijection mask HL HR) pat Hlen)
      as (l & r & Hl & Hr & Hkey).
    apply flock_query_inv in H as (facts & Hfacts & _).
    destruct (flock_facts_complete _ _ _ _ _ l r Hfacts Hl Hr)
      as (shape & Hshape & _).
    rewrite true_shape_key, Hkey in Hshape. simpl in Hshape.
    destruct (shapeTags !! pat); [eauto|discriminate].
  - intros (HL & HR & Hdom). unfold flock_query, Z3.BitVecSort.
    destruct (Z.ltb_spec 0 (Z.of_nat (count0 mask))); [|lia].
    destruct (Z.ltb_spec 0 (Z.of_nat (count1 mask))); [|lia].
    cbn [mbind result_bind]. unfold flock_facts.
    destruct (rmap_all_Ok
                (fun iy => rmap (fun ix => flock_fact shapeTags mask
                                   (Z.of_nat (count0 mask))
                                   (Z.of_nat (count1 mask)) iy ix)
                             (range (2 ^ Z.of_nat (count1 mask))))
                (range (2 ^ Z.of_nat (count0 mask)))) as [rows Hrows].
    { intros iy _. apply rmap_all_Ok. intros ix _.
      rewrite flock_fact_shape, true_shape_key, flock_key_interleave by done.
      cbn [mbind result_bind].
      destruct (Hdom (interleave mask (Bits_uint iy (count0 mask))
                        (Bits_uint ix (count1 mask)))) as [shape Hshape].
      { apply interleave_length; apply Bits_uint_length. }
      rewrite Hshape. simpl. eauto. }
    rewrite Hrows. simpl. eauto.
Qed.

(** X14. [factorize_flock] gets as far as calling the solver exactly when
    the mask has at least one bit for each group and the catalog has an
    entry for every pattern as long as the mask; otherwise it leaves by an
    exception before any solving. *)
Theorem flock_query_iff (shapeTags : gmap (list bool) Z) (mask : list bool) :
  (exists asserts, flock_query shapeTags mask = Ok asserts)
  <-> (1 <= count0 mask)%nat /\ (1 <= count1 mask)%nat
      /\ forall pat, length pat = length mask -> is_Some (shapeTags !! pat).
Proof. apply flock_query_Ok_iff. Qed.

(** X15. What an accepted flock says about the shapes. When
    [factorize_flock] returns a classifier (the solver being sound), there
    is one right-group value [r0], the point the classifier names, such
    that for every left value the shape is the same for all right values
    other than [r0]; and wherever the classifier gives the same answer for
    two right values, the shapes agree for every left value. *)
Theorem accepted_flock_meaning (check : Flock.solver)
    (shapeTags : gmap (list bool) Z) (mask : list bool)
    (cl : Flock.FuncInterp) :
  Flock.sound check ->
  factorize_flock check shapeTags mask = Ok (Some cl) ->
  (forall l r r',
     0 <= l < 2 ^ Z.of_nat (count0 mask) ->
     0 <= r < 2 ^ Z.of_nat (count1 mask) ->
     0 <= r' < 2 ^ Z.of_nat (count1 mask) ->
     Flock.apply cl r = Flock.apply cl r' ->
     true_shape shapeTags mask (Z.of_nat (count0 mask))
                (Z.of_nat (count1 mask)) l r
     = true_shape shapeTags mask (Z.of_nat (count0 mask))
                  (Z.of_nat (count1 mask)) l r')
  /\ exists r0 b0,
       Flock.entries cl = [(r0, b0)]
       /\ forall l r r',
            0 <= l < 2 ^ Z.of_nat (count0 mask) ->
            0 <= r < 2 ^ Z.of_nat (count1 mask) ->
            0 <= r' < 2 ^ Z.of_nat (count1 mask) ->
            r <> r0 -> r' <> r0 ->
            true_shape shapeTags mask (Z.of_nat (count0 mask))
                       (Z.of_nat (count1 mask)) l r
            = true_shape shapeTags mask (Z.of_nat (count0 mask))
                         (Z.of_nat (count1 mask)) l r'.
Proof.
  intros Hsound H.
  apply factorize_flock_inv in H as (asserts & m & Hq & Hc & Hone & ->).
  apply flock_query_inv in Hq as (facts & Hfacts & ->).
  apply Hsound in Hc. cbn [forallb] in Hc.
  apply andb_true_iff in Hc as [Hcomp Hground].
  rewrite forallb_forall in Hground. simpl in Hcomp.
  rewrite forallb_forall in Hcomp.
  assert (Hshape : forall l r,
            0 <= l < 2 ^ Z.of_nat (count0 mask) ->
            0 <= r < 2 ^ Z.of_nat (count1 mask) ->
            true_shape shapeTags mask (Z.of_nat (count0 mask))
                       (Z.of_nat (count1 mask)) l r
            = Ok (Flock.f m (Flock.t m l) (Flock.apply (Flock.s m) r))).
  { intros l r Hl Hr.
    destruct (flock_facts_complete _ _ _ _ _ l r Hfacts Hl Hr)
      as (shape & Hs & Hin).
    rewrite Hs. f_equal.
    apply list_elem_of_In, Hground in Hin. simpl in Hin. apply Z.eqb_eq in Hin.
    assert (Hl' : In l (range (2 ^ Z.of_nat (count0 mask))))
      by (by apply list_elem_of_In, elem_of_range).
    specialize (Hcomp l Hl'). rewrite forallb_forall in Hcomp.
    assert (Hr' : In r (range (2 ^ Z.of_nat (count1 mask))))
      by (by apply list_elem_of_In, elem_of_range).
    specialize (Hcomp r Hr'). apply Z.eqb_eq in Hcomp. congruence. }
  assert (Hsame : forall l r r',
            0 <= l < 2 ^ Z.of_nat (count0 mask) ->
            0 <= r < 2 ^ Z.of_nat (count1 mask) ->
            0 <= r' < 2 ^ Z.of_nat (count1 mask) ->
            Flock.apply (Flock.s m) r = Flock.apply (Flock.s m) r' ->
            true_shape shapeTags mask (Z.of_nat (count0 mask))
                       (Z.of_nat (count1 mask)) l r
            = true_shape shapeTags mask (Z.of_nat (count0 mask))
                         (Z.of_nat (count1 mask)) l r').
  { intros l r r' Hl Hr Hr' Heq. rewrite !Hshape by done. by rewrite Heq. }
  split; [done|].
  unfold Flock.num_entries in Hone.
  destruct (Flock.entries (Flock.s m)) as [|[r0 b0] [|? ?]] eqn:Hent;
    try discriminate.
  exists r0, b0. split; [done|].
  intros l r r' Hl Hr Hr' Hne Hne'. apply Hsame; try done.
  unfold Flock.apply. rewrite Hent. simpl.
  destruct (Z.eqb_spec r0 r); [congruence|].
  destruct (Z.eqb_spec r0 r'); [congruence|]. done.
Qed.

Lemma accepted_flock_meaning_witness :
  exists r0 b0,
    Flock.entries {| Flock.entries := [(1, true)]; Flock.else_value := false |}
    = [(r0, b0)].
Proof.
  destruct (accepted_flock_meaning checkC shapeTagsC [false; true]
              {| Flock.entries := [(1, true)]; Flock.else_value := false |}
              (flock_try_sound [modelC; modelC']))
    as (_ & r0 & b0 & Hent & _).
  - vm_compute. reflexivity.
  - exists r0, b0. exact Hent.
Defined.

(** ** The result of the flock search *)

Lemma find_flockings_loop check shapeTags cands ys0 tried0 ys tried :
  rfold (find_flockings_step check shapeTags) cands (ys0, tried0)
  = Ok (ys, tried) ->
  exists found,
    ys = ys0 ++ found
    /\ found.*1 `sublist_of` cands
    /\ (forall mask cl, (mask, cl) ∈ found ->
          mask ∈ cands /\ factorize_flock check shapeTags mask = Ok (Some cl))
    /\ (forall mask, mask ∈ cands ->
          exists r, factorize_flock check shapeTags mask = Ok r
                    /\ forall cl, r = Some cl -> (mask, cl) ∈ found).
Proof.
  revert ys0 tried0. induction cands as [|c cands IH]; intros ys0 tried0 H;
    simpl in H.
  - inversion H; subst. exists []. rewrite app_nil_r.
    split; [done|]. split; [done|]. split.
    + intros mask cl Hin. by apply elem_of_nil in Hin.
    + intros mask Hin. by apply elem_of_nil in Hin.
  - apply bind_Ok in H as ([ys1 tried1] & Hstep & H).
    unfold find_flockings_step in Hstep.
    apply bind_Ok in Hstep as (r & Hr & Hstep). simpl in Hstep.
    apply IH in H as (found & -> & Hsub & Hin & Hall).
    destruct r as [cl|]; inversion Hstep; subst; clear Hstep.
    + exists ((c, cl) :: found). rewrite <- app_assoc.
      split; [done|]. split; [by constructor|]. split.
      * intros mask cl' Hm. apply elem_of_cons in Hm as [[= -> ->]|Hm].
        { split; [by left|done]. }
        destruct (Hin _ _ Hm). split; [by right|done].
      * intros mask Hm. apply elem_of_cons in Hm as [->|Hm].
        { exists (Some cl). split; [done|]. intros cl' [= ->]. by left. }
        destruct (Hall _ Hm) as (r & Hr' & Hfound).
        exists r. split; [done|]. intros cl' Hcl. right. by apply Hfound.
    + exists found. split; [done|]. split; [by constructor|]. split.
      * intros mask cl' Hm. destruct (Hin _ _ Hm). split; [by right|done].
      * intros mask Hm. apply elem_of_cons in Hm as [->|Hm].
        { exists None. split; [done|]. intros cl' [=]. }
        apply (Hall _ Hm).
Qed.

(** X16. When [find_flockings] is run to its end and returns, the pairs
    it yielded are exactly the candidates for which [factorize_flock]
    returned a classifier, each with that classifier, in candidate order;
    every classifier among them has exactly one named entry; and no
    candidate made [factorize_flock] leave by an exception. *)
Theorem find_flockings_yields (check : Flock.solver)
    (shapeTags : gmap (list bool) Z) (sl : list tag)
    (ys : list (list bool * Flock.FuncInterp)) :
  find_flockings check shapeTags sl = Ok ys ->
  ys.*1 `sublist_of` flocking_candidates (entropy sl)
  /\ (forall mask cl,
        (mask, cl) ∈ ys <->
        mask ∈ flocking_candidates (entropy sl)
        /\ factorize_flock check shapeTags mask = Ok (Some cl))
  /\ (forall mask cl, (mask, cl) ∈ ys -> Flock.num_entries cl = 1%nat)
  /\ (forall mask, mask ∈ flocking_candidates (entropy sl) ->
        exists r, factorize_flock check shapeTags mask = Ok r).
Proof.
  unfold find_flockings, find_flockings_trace. intros H.
  apply bind_Ok in H as ([ys' tried] & Hloop & H). inversion H; subst; clear H.
  apply find_flockings_loop in Hloop as (found & -> & Hsub & Hin & Hall).
  simpl. split; [done|]. split; [|split].
  - intros mask cl. split; [apply Hin|].
    intros [Hm Hf]. destruct (Hall _ Hm) as (r & Hr & Hfound).
    apply Hfound. congruence.
  - intros mask cl Hm. destruct (Hin _ _ Hm) as [_ Hf].
    by apply factorize_flock_inv in Hf as (? & m & _ & _ & Hone & ->).
  - intros mask Hm. destruct (Hall _ Hm) as (r & Hr & _). eauto.
Qed.

Lemma find_flockings_yields_witness :
  [([false; true],
    {| Flock.entries := [(1, true)]; Flock.else_value := false |})].*1
  `sublist_of` flocking_candidates (entropy [Relevant; Relevant]).
Proof.
  refine (proj1 (find_flockings_yields checkC shapeTagsC [Relevant; Relevant]
                   _ _)).
  vm_compute. reflexivity.
Defined.

Lemma count_groups_pos (m : list bool) :
  m <> replicate (length m) false -> m <> replicate (length m) true ->
  (1 <= count0 m)%nat /\ (1 <= count1 m)%nat.
Proof.
  intros H0 H1. split.
  - destruct (decide (1 <= count0 m)%nat) as [|Hz]; [done|]. exfalso. apply H1.
    clear H0 H1. induction m as [|[|] m IH]; [done| |].
    + rewrite count0_cons in Hz. simpl. f_equal. apply IH. lia.
    + rewrite count0_cons in Hz. lia.
  - destruct (decide (1 <= count1 m)%nat) as [|Hz]; [done|]. exfalso. apply H0.
    clear H0 H1. induction m as [|[|] m IH]; [done| |].
    + rewrite count1_cons in Hz. lia.
    + rewrite count1_cons in Hz. simpl. f_equal. apply IH. lia.
Qed.

Lemma elem_of_candidates (e : nat) (m : list bool) :
  m ∈ flocking_candidates e
  <-> length m = e /\ m <> replicate e false /\ m <> replicate e true.
Proof.
  assert (Hpow : 0 < 2 ^ Z.of_nat e) by (apply Z.pow_pos_nonneg; lia).
  unfold flocking_candidates. rewrite sort_by_perm, list_elem_of_fmap. split.
  - intros (k & -> & Hk). apply elem_of_range2 in Hk.
    split; [apply Bits_uint_length|]. split.
    + rewrite <- Bits_uint_zero. intros H. apply Bits_uint_inj in H; lia.
    + rewrite <- Bits_uint_ones. intros H. apply Bits_uint_inj in H; lia.
  - intros (Hlen & H0 & H1).
    destruct (Bits_uint_surj m) as (k & Hk & Hm). rewrite Hlen in Hk, Hm.
    exists k. split; [done|]. apply elem_of_range2.
    destruct (decide (k = 0)) as [->|Hk0];
      [by rewrite Bits_uint_zero in Hm|].
    destruct (decide (k = 2 ^ Z.of_nat e - 1)) as [->|Hk1];
      [by rewrite Bits_uint_ones in Hm|].
    lia.
Qed.

Lemma candidate_facts (e : nat) (m : list bool) :
  m ∈ flocking_candidates e ->
  length m = e /\ (1 <= count0 m)%nat /\ (1 <= count1 m)%nat.
Proof.
  intros Hm. apply elem_of_candidates in Hm as (Hlen & H0 & H1).
  split; [done|]. apply count_groups_pos; by rewrite Hlen.
Qed.

Lemma rfold_all_Ok check shapeTags cands st :
  (forall mask, mask ∈ cands ->
     exists r, factorize_flock check shapeTags mask = Ok r) ->
  exists st', rfold (find_flockings_step check shapeTags) cands st = Ok st'.
Proof.
  revert st. induction cands as [|c cands IH]; intros st H; [by eexists|].
  destruct (H c) as [r Hr]; [by left|].
  assert (Hstep : exists st1, find_flockings_step check shapeTags st c = Ok st1).
  { unfold find_flockings_step. rewrite Hr. simpl. destruct r; eauto. }
  destruct Hstep as [st1 Hst1]. cbn [rfold]. rewrite Hst1.
  cbn [mbind result_bind]. apply IH. intros; apply H; by right.
Qed.

(** A catalog with an entry for every pattern lets the search run to its
    end. *)
Lemma find_flockings_total (check : Flock.solver)
    (shapeTags : gmap (list bool) Z) (sl : list tag) :
  (forall pat, length pat = entropy sl -> is_Some (shapeTags !! pat)) ->
  exists ys, find_flockings check shapeTags sl = Ok ys.
Proof.
  intros Hdom. unfold find_flockings, find_flockings_trace.
  destruct (rfold_all_Ok check shapeTags
              (flocking_candidates (entropy sl)) ([], [])) as [st Hst].
  { intros mask Hm. destruct (candidate_facts _ _ Hm) as (Hlen & HL & HR).
    destruct (proj2 (flock_query_Ok_iff shapeTags mask)) as [asserts Hq].
    { split; [done|]. split; [done|]. intros pat Hp. apply Hdom. lia. }
    unfold factorize_flock. rewrite Hq. simpl.
    destruct (check asserts) as [mm| |]; eauto.
    destruct (negb _); eauto. }
  rewrite Hst. simpl. eauto.
Qed.

(** X17. With fewer than two relevant bits there is nothing to try and
    [find_flockings] yields nothing, whatever the catalog holds. With two
    or more it runs to its end exactly when the catalog has an entry for
    every pattern of [entropy] bits; a missing pattern ends the search by
    an exception rather than by a rejection. *)
Theorem find_flockings_returns_iff (check : Flock.solver)
    (shapeTags : gmap (list bool) Z) (sl : list tag) :
  ((entropy sl <= 1)%nat -> find_flockings check shapeTags sl = Ok [])
  /\ ((2 <= entropy sl)%nat ->
      ((exists ys, find_flockings check shapeTags sl = Ok ys)
       <-> forall pat, length pat = entropy sl -> is_Some (shapeTags !! pat))).
Proof.
  split.
  - intros He. unfold find_flockings, find_flockings_trace, flocking_candidates.
    assert (Hran : range2 1 (2 ^ Z.of_nat (entropy sl) - 1) = []).
    { unfold range2.
      assert (Hc : entropy sl = 0%nat \/ entropy sl = 1%nat) by lia.
      destruct Hc as [-> | ->]; reflexivity. }
    rewrite Hran. done.
  - intros He. split.
    + intros [ys H] pat Hlen.
      unfold find_flockings, find_flockings_trace in H.
      apply bind_Ok in H as ([ys' tried] & Hloop & _).
      apply find_flockings_loop in Hloop as (found & _ & _ & _ & Hall).
      set (m := true :: replicate (entropy sl - 1) false).
      assert (Hm : m ∈ flocking_candidates (entropy sl)).
      { apply elem_of_candidates.
        subst m. split; [simpl; rewrite length_replicate; lia|].
        destruct (entropy sl) as [|[|n]]; [lia|lia|]. simpl. split; done. }
      destruct (Hall m Hm) as (r & Hr & _).
      unfold factorize_flock in Hr. apply bind_Ok in Hr as (asserts & Hq & _).
      apply (proj1 (flock_query_Ok_iff shapeTags m)); [eauto|].
      destruct (candidate_facts _ _ Hm) as [Hlm _]. lia.
    + apply find_flockings_total.
Qed.

Lemma find_flockings_returns_iff_witness :
  find_flockings checkC shapeTagsC [Irrelevant; Relevant] = Ok [].
Proof.
  apply (proj1 (find_flockings_returns_iff checkC shapeTagsC
                  [Irrelevant; Relevant])).
  vm_compute. lia.
Defined.

(** ** The positions of the variable bits *)

Lemma StronglySorted_rev {A} (R : relation A) (l : list A) :
  StronglySorted R l -> StronglySorted (flip R) (rev l).
Proof.
  induction 1 as [|x l Hl IH Hx]; [constructor|].
  simpl. apply StronglySorted_app_2; [|done|repeat constructor].
  intros y z Hy Hz. apply list_elem_of_singleton in Hz as ->.
  rewrite Forall_forall in Hx. apply Hx.
  by rewrite (Permutation_rev l).
Qed.

Lemma StronglySorted_weaken {A} (R S : relation A) (l : list A) :
  (forall a b, R a b -> S a b) -> StronglySorted R l -> StronglySorted S l.
Proof.
  intros HRS. induction 1 as [|x l Hl IH Hx]; constructor; [done|].
  eapply Forall_impl; [exact Hx|]. intros y. apply HRS.
Qed.

Lemma countdown_sorted (msb : Z) (n : nat) :
  StronglySorted (fun a b => b < a)
    (map (fun pos => msb - pos) (range (Z.of_nat n))).
Proof.
  unfold range. rewrite Nat2Z.id. induction n as [|n IH]; [constructor|].
  rewrite seq_S, !map_app. simpl.
  apply StronglySorted_app_2; [|done|repeat constructor].
  intros x y Hx Hy. apply list_elem_of_singleton in Hy as ->.
  apply list_elem_of_fmap in Hx as (z & -> & Hz).
  apply list_elem_of_fmap in Hz as (k & -> & Hk).
  apply elem_of_seq in Hk. lia.
Qed.

Lemma elem_of_countdown (msb : Z) (n : nat) (x : Z) :
  x ∈ map (fun pos => msb - pos) (range (Z.of_nat n))
  <-> msb - Z.of_nat n < x <= msb.
Proof.
  rewrite list_elem_of_fmap. split.
  - intros (pos & -> & Hpos). apply elem_of_range in Hpos. lia.
  - intros Hx. exists (msb - x). split; [lia|]. apply elem_of_range. lia.
Qed.

Lemma free_positions_sorted (spec : list FieldSpecElement) (msb : Z) :
  StronglySorted (fun a b => b < a) (free_positions spec msb)
  /\ forall x, x ∈ free_positions spec msb ->
               msb - Z.of_nat (spec_length spec) < x <= msb.
Proof.
  revert msb. induction spec as [|[n|bits] spec IH]; intros msb.
  - split; [constructor|]. intros x Hx. by apply elem_of_nil in Hx.
  - destruct (IH (msb - Z.of_nat n)) as [Hs Hb]. cbn [free_positions spec_length].
    split.
    + apply StronglySorted_app_2; [|apply countdown_sorted|done].
      intros x y Hx Hy. apply elem_of_countdown in Hx. apply Hb in Hy. lia.
    + intros x Hx. apply elem_of_app in Hx as [Hx|Hx].
      * apply elem_of_countdown in Hx. lia.
      * apply Hb in Hx. lia.
  - destruct (IH (msb - Z.of_nat (length bits))) as [Hs Hb].
    cbn [free_positions spec_length]. split; [done|].
    intros x Hx. apply Hb in Hx. lia.
Qed.

Lemma free_positions_length (spec : list FieldSpecElement) (msb : Z) :
  length (free_positions spec msb) = free_bits spec.
Proof.
  revert msb. induction spec as [|[n|bits] spec IH]; intros msb; [done| |].
  - cbn [free_positions free_bits]. rewrite length_app, length_map, IH.
    unfold range. by rewrite length_map, length_seq, Nat2Z.id.
  - cbn [free_positions free_bits]. apply IH.
Qed.

Lemma varBitPositionsFrom_perm (spec : list FieldSpecElement) soFar msb :
  varBitPositionsFrom spec soFar msb ≡ₚ free_positions spec msb ++ soFar.
Proof.
  revert soFar msb. induction spec as [|[n|bits] spec IH]; intros soFar msb.
  - done.
  - cbn [varBitPositionsFrom free_positions]. rewrite IH.
    rewrite !app_assoc. apply Permutation_app_tail, Permutation_app_comm.
  - cbn [varBitPositionsFrom free_positions]. apply IH.
Qed.

Lemma computeVarBitPositions_eq (spec : list FieldSpecElement) :
  computeVarBitPositions spec = free_positions spec 31.
Proof.
  unfold computeVarBitPositions.
  rewrite <- (rev_involutive (free_positions spec 31)). f_equal.
  apply (StronglySorted_unique Z.le).
  - apply StronglySorted_merge_sort; apply _.
  - destruct (free_positions_sorted spec 31) as [Hs _].
    apply StronglySorted_rev in Hs.
    eapply StronglySorted_weaken; [|exact Hs]. unfold flip. intros a b. lia.
  - rewrite merge_sort_Permutation, varBitPositionsFrom_perm, app_nil_r.
    apply Permutation_rev.
Qed.

(** X18. [computeVarBitPositions] lists the positions of the free bits of
    the spec, counted down from bit 31 in the order the spec gives its
    fields: one position per free bit, strictly decreasing, all within the
    bits the spec covers; the entropy is the number of free bits. *)
Theorem varBitPositions_are_free_bits (spec : list FieldSpecElement) :
  computeVarBitPositions spec = free_positions spec 31
  /\ spec_entropy spec = free_bits spec
  /\ StronglySorted (fun a b => b < a) (computeVarBitPositions spec)
  /\ (forall x, x ∈ computeVarBitPositions spec ->
        31 - Z.of_nat (spec_length spec) < x <= 31).
Proof.
  unfold spec_entropy. rewrite computeVarBitPositions_eq.
  split; [done|]. split; [apply free_positions_length|].
  apply free_positions_sorted.
Qed.

(** ** [variableSlice] *)

Lemma rmap_app {A B} (g : A -> result B) (xs ys : list A) :
  rmap g (xs ++ ys) = (a ← rmap g xs; b ← rmap g ys; Ok (a ++ b)).
Proof.
  induction xs as [|x xs IH]; simpl.
  - by destruct (rmap g ys).
  - destruct (g x) as [y|]; [|done]. simpl. rewrite IH.
    destruct (rmap g xs) as [a|]; [|done]. simpl.
    by destruct (rmap g ys).
Qed.

Lemma rmap_map {A B C} (g : B -> result C) (h : A -> B) (xs : list A) :
  rmap g (map h xs) = rmap (fun x => g (h x)) xs.
Proof.
  induction xs as [|x xs IH]; [done|]. simpl. by rewrite IH.
Qed.

Lemma py_getitem_app_r {A} (pre l : list A) (k : nat) (x : A) :
  l !! k = Some x ->
  py_getitem (pre ++ l) (Z.of_nat (length pre) + Z.of_nat k) = Ok x.
Proof.
  intros Hk. assert (Hlt := lookup_lt_Some _ _ _ Hk).
  unfold py_getitem. rewrite length_app.
  destruct (Z.ltb_spec (Z.of_nat (length pre) + Z.of_nat k) 0); [lia|].
  replace ((0 <=? Z.of_nat (length pre) + Z.of_nat k)
           && (Z.of_nat (length pre) + Z.of_nat k
               <? Z.of_nat (length pre + length l))) with true
    by (symmetry; zbool; try lia; done).
  replace (Z.to_nat (Z.of_nat (length pre) + Z.of_nat k))
    with (length pre + k)%nat by lia.
  by rewrite lookup_app_r, Nat.add_comm, Nat.add_sub, Hk by lia.
Qed.

Lemma rmap_window {A} (g : Z -> result A) (l : list A) (n : nat) :
  (n <= length l)%nat ->
  (forall k x, l !! k = Some x -> g (Z.of_nat k) = Ok x) ->
  rmap g (range (Z.of_nat n)) = Ok (take n l).
Proof.
  intros Hn Hg. unfold range. rewrite Nat2Z.id.
  induction n as [|n IH]; [by rewrite take_0|].
  rewrite seq_S, map_app, rmap_app, IH by lia. simpl.
  destruct (lookup_lt_is_Some_2 l n ltac:(lia)) as [x Hx].
  rewrite (Hg n x Hx). simpl. f_equal.
  by rewrite (take_S_r l n x).
Qed.

(** Reading the free positions of a spec out of an encoding that has the
    spec's layout, wherever the layout starts. *)
Lemma read_free_positions (spec : list FieldSpecElement)
    (pre enc : list bool) (msb : Z) :
  31 - msb = Z.of_nat (length pre) ->
  length enc = spec_length spec ->
  rmap (fun i => py_getitem (pre ++ enc) (31 - i)) (free_positions spec msb)
  = Ok (free_part spec enc).
Proof.
  revert pre enc msb. induction spec as [|[n|bits] spec IH];
    intros pre enc msb Hmsb Hlen; [done| |].
  - cbn [free_positions free_part spec_length] in *.
    rewrite rmap_app, rmap_map.
    rewrite (rmap_window _ enc n); [|lia|].
    + cbn [mbind result_bind].
      replace (pre ++ enc) with ((pre ++ take n enc) ++ drop n enc)
        by (by rewrite <- app_assoc, take_drop).
      rewrite (IH (pre ++ take n enc) (drop n enc));
        [done| |rewrite length_drop; lia].
      rewrite length_app, length_take. lia.
    + intros k x Hk.
      replace (31 - (msb - Z.of_nat k))
        with (Z.of_nat (length pre) + Z.of_nat k) by lia.
      by apply py_getitem_app_r.
  - cbn [free_positions free_part spec_length] in *.
    replace (pre ++ enc)
      with ((pre ++ take (length bits) enc) ++ drop (length bits) enc)
      by (by rewrite <- app_assoc, take_drop).
    apply IH; [|rewrite length_drop; lia].
    rewrite length_app, length_take. lia.
Qed.

Lemma all_bits_app (n m : nat) :
  all_bits (n + m)
  = concat (map (fun a => map (app a) (all_bits m)) (all_bits n)).
Proof.
  induction n as [|n IH]; simpl.
  - rewrite app_nil_r. symmetry. apply map_id.
  - rewrite IH, map_app, concat_app, !concat_map, !map_map.
    f_equal; f_equal; apply map_ext; intros a; rewrite !map_map; done.
Qed.

Lemma enumerated_layout (spec : list FieldSpecElement) :
  Forall (fun enc => length enc = spec_length spec) (encodingspec_to_iter spec)
  /\ map (free_part spec) (encodingspec_to_iter spec)
     = all_bits (free_bits spec).
Proof.
  induction spec as [|[n|bits] spec [IHl IHf]].
  - split; [by repeat constructor|done].
  - cbn [encodingspec_to_iter spec_length free_bits]. split.
    + apply Forall_concat, Forall_fmap, Forall_forall. intros a Ha.
      apply elem_of_all_bits in Ha. cbn beta. apply Forall_fmap.
      eapply Forall_impl; [exact IHl|]. intros enc He. unfold compose.
      cbn beta in He. rewrite length_app. lia.
    + rewrite all_bits_app, <- IHf, concat_map, map_map. f_equal.
      apply map_ext_in. intros a Ha.
      apply list_elem_of_In, elem_of_all_bits in Ha.
      rewrite !map_map. apply map_ext. intros enc.
      cbn [free_part]. rewrite take_app_length', drop_app_length' by done.
      done.
  - cbn [encodingspec_to_iter spec_length free_bits]. split.
    + apply Forall_fmap. eapply Forall_impl; [exact IHl|]. intros enc He.
      unfold compose. cbn beta in He. rewrite length_app. lia.
    + rewrite <- IHf, map_map. apply map_ext. intros enc.
      cbn [free_part]. by rewrite drop_app_length.
Qed.

Lemma variableSlice_enumerated (spec : list FieldSpecElement) (enc : list bool) :
  enc ∈ encodingspec_to_iter spec ->
  variableSlice (computeVarBitPositions spec) enc = Ok (free_part spec enc).
Proof.
  intros Hin. destruct (enumerated_layout spec) as [Hl _].
  rewrite Forall_forall in Hl.
  unfold variableSlice. rewrite computeVarBitPositions_eq.
  apply (read_free_positions spec [] enc 31); [done|by apply Hl].
Qed.

(** X19. On the encodings that the enumerator produces for a spec,
    [variableSlice] never fails and returns one bit per variable position;
    two different enumerated encodings have different slices, and every
    bit string of [entropy] bits is the slice of an enumerated encoding.
    (The enumerator is the one modelled above from its description.) *)
Theorem variableSlice_enumerates (spec : list FieldSpecElement) :
  (forall enc, enc ∈ encodingspec_to_iter spec ->
     exists s, variableSlice (computeVarBitPositions spec) enc = Ok s
               /\ length s = spec_entropy spec)
  /\ (forall enc1 enc2,
        enc1 ∈ encodingspec_to_iter spec ->
        enc2 ∈ encodingspec_to_iter spec ->
        variableSlice (computeVarBitPositions spec) enc1
        = variableSlice (computeVarBitPositions spec) enc2 ->
        enc1 = enc2)
  /\ (forall s, length s = spec_entropy spec ->
        exists enc, enc ∈ encodingspec_to_iter spec
                    /\ variableSlice (computeVarBitPositions spec) enc = Ok s).
Proof.
  destruct (enumerated_layout spec) as [Hl Hf].
  assert (He : spec_entropy spec = free_bits spec).
  { unfold spec_entropy. rewrite computeVarBitPositions_eq.
    apply free_positions_length. }
  split; [|split].
  - intros enc Hin. rewrite variableSlice_enumerated by done.
    eexists. split; [done|]. rewrite He. apply elem_of_all_bits.
    rewrite <- Hf. apply list_elem_of_fmap. eauto.
  - intros enc1 enc2 H1 H2. rewrite !variableSlice_enumerated by done.
    intros [= Heq].
    apply (NoDup_fmap_inj_on (free_part spec) (encodingspec_to_iter spec));
      [|done..].
    rewrite Hf. apply NoDup_all_bits.
  - intros s Hs. rewrite He in Hs. apply elem_of_all_bits in Hs.
    rewrite <- Hf in Hs. apply list_elem_of_fmap in Hs as (enc & -> & Hin).
    exists enc. split; [done|]. by apply variableSlice_enumerated.
Qed.

Lemma py_getitem_rev32 {A} (l : list A) (k : Z) :
  length l = 32%nat -> 0 <= k <= 31 ->
  py_getitem (rev l) k = py_getitem l (31 - k).
Proof.
  intros Hlen Hk. unfold py_getitem. rewrite length_rev, Hlen.
  destruct (Z.ltb_spec k 0); [lia|]. destruct (Z.ltb_spec (31 - k) 0); [lia|].
  replace ((0 <=? k) && (k <? Z.of_nat 32)) with true
    by (symmetry; zbool; try lia; done).
  replace ((0 <=? 31 - k) && (31 - k <? Z.of_nat 32)) with true
    by (symmetry; zbool; try lia; done).
  rewrite rev_lookup by lia. rewrite Hlen.
  by replace (32 - S (Z.to_nat k))%nat with (Z.to_nat (31 - k)) by lia.
Qed.

(** X20. The two ways of reading the variable bits of an instruction
    agree on 32-bit encodings: for a specimen of 32 bits and variable
    positions between 0 and 31, [specimenEncodingOfShape] returns the same
    bits as [variableSlice] does on that specimen. *)
Theorem specimen_matches_variableSlice (self : ShapeAnalysis) (shapeN : Z)
    (specimen : list bool) :
  py_getitem (section self) shapeN = Ok specimen ->
  length specimen = 32%nat ->
  (forall k, k ∈ varBitPositions self -> 0 <= k <= 31) ->
  specimenEncodingOfShape self shapeN
  = variableSlice (varBitPositions self) specimen.
Proof.
  intros Hsec Hlen Hpos. unfold specimenEncodingOfShape, variableSlice.
  rewrite Hsec. cbn [mbind result_bind].
  induction (varBitPositions self) as [|k ks IH]; [done|].
  simpl. rewrite py_getitem_rev32 by (try done; apply Hpos; by left).
  rewrite IH by (intros; apply Hpos; by right). done.
Qed.

Lemma specimen_matches_variableSlice_witness :
  specimenEncodingOfShape
    {| P := []; SA_OPS := []; SA_entropy := 2;
       section := [Bits_uint 5 32]; varBitPositions := [2; 0] |} 0
  = variableSlice [2; 0] (Bits_uint 5 32).
Proof.
  apply (specimen_matches_variableSlice
           {| P := []; SA_OPS := []; SA_entropy := 2;
              section := [Bits_uint 5 32]; varBitPositions := [2; 0] |}
           0 (Bits_uint 5 32)).
  - reflexivity.
  - reflexivity.
  - intros k Hk. apply elem_of_cons in Hk as [->|Hk]; [lia|].
    apply list_elem_of_singleton in Hk as ->. lia.
Defined.

(** X21. [relevantBitPositions] keeps one position per relevant letter:
    when the sensitivity list is as wide as the list of variable
    positions, it returns [entropy] positions, each of them one of the
    variable positions, in their order. *)
Theorem relevantBitPositions_count (sensitivity : list tag)
    (varBitPositions : list Z) :
  length sensitivity = length varBitPositions ->
  length (relevantBitPositions sensitivity varBitPositions)
  = entropy sensitivity
  /\ relevantBitPositions sensitivity varBitPositions
     `sublist_of` varBitPositions.
Proof.
  intros Hlen. unfold relevantBitPositions, filterRelevantMembers. split.
  - rewrite <- entropy_rev. rewrite <- (length_rev sensitivity) in Hlen.
    revert varBitPositions Hlen.
    induction (rev sensitivity) as [|t tags IH]; intros [|p ps] Hlen;
      try done; simpl in Hlen.
    simpl. rewrite !filter_cons. simpl.
    destruct (decide (t = Relevant)); simpl; rewrite IH by lia; done.
  - clear Hlen. revert varBitPositions.
    induction (rev sensitivity) as [|t tags IH]; intros [|p ps]; simpl;
      try done; try apply sublist_nil_l.
    rewrite filter_cons. simpl.
    destruct (decide (t = Relevant)); simpl;
      [apply sublist_skip|apply sublist_cons]; apply IH.
Qed.

Lemma relevantBitPositions_count_witness :
  length (relevantBitPositions [Relevant; Irrelevant; Relevant] [28; 27; 25])
  = entropy [Relevant; Irrelevant; Relevant].
Proof.
  apply (proj1 (relevantBitPositions_count [Relevant; Irrelevant; Relevant]
                  [28; 27; 25] eq_refl)).
Defined.

(** ** Bit strings as numbers *)

Lemma uint_acc (bs : list bool) (acc : Z) :
  fold_left (fun a (b : bool) => 2 * a + (if b then 1 else 0)) bs acc
  = acc * 2 ^ Z.of_nat (length bs) + uint bs.
Proof.
  unfold uint. revert acc. induction bs as [|b bs IH]; intros acc.
  - simpl. lia.
  - cbn [fold_left length]. rewrite IH, (IH (2 * 0 + _)).
    rewrite Nat2Z.inj_succ, Z.pow_succ_r by lia. destruct b; lia.
Qed.

Lemma uint_cons (b : bool) (bs : list bool) :
  uint (b :: bs) = (if b then 1 else 0) * 2 ^ Z.of_nat (length bs) + uint bs.
Proof. unfold uint at 1. cbn [fold_left]. rewrite uint_acc. destruct b; lia. Qed.

Lemma uint_range (bs : list bool) : 0 <= uint bs < 2 ^ Z.of_nat (length bs).
Proof.
  induction bs as [|b bs IH]; [by compute|].
  rewrite uint_cons. cbn [length].
  rewrite Nat2Z.inj_succ, Z.pow_succ_r by lia. destruct b; lia.
Qed.

(** [Bits(uint=b.uint, length=len(b))] is [b] again, and the other way
    round. *)
Lemma Bits_uint_uint (bs : list bool) : Bits_uint (uint bs) (length bs) = bs.
Proof.
  induction bs as [|b bs IH]; [done|].
  rewrite uint_cons. cbn [length].
  rewrite Bits_uint_S, Bits_uint_low, IH, testbit_top by apply uint_range.
  done.
Qed.

Lemma uint_Bits_uint (k : Z) (n : nat) :
  0 <= k < 2 ^ Z.of_nat n -> uint (Bits_uint k n) = k.
Proof.
  intros Hk. apply (Bits_uint_inj _ _ n); [|done|].
  - pose proof (uint_range (Bits_uint k n)) as H.
    by rewrite Bits_uint_length in H.
  - pose proof (Bits_uint_uint (Bits_uint k n)) as H.
    by rewrite Bits_uint_length in H.
Qed.

Lemma Bits_uint_lookup (k : Z) (n i : nat) :
  (i < n)%nat ->
  Bits_uint k n !! (n - S i)%nat = Some (Z.testbit k (Z.of_nat i)).
Proof.
  intros Hi. unfold Bits_uint. rewrite list_lookup_fmap.
  rewrite rev_lookup by (rewrite length_seq; lia). rewrite length_seq.
  replace (n - S (n - S i))%nat with i by lia.
  by rewrite lookup_seq_lt.
Qed.

(** ** The collecting loop of the sweep *)

Lemma py_setitem_same {A} (l l' : list A) (i : Z) (v : A) :
  py_setitem l i v = Ok l' -> 0 <= i -> py_getitem l' i = Ok v.
Proof.
  unfold py_setitem, py_getitem. intros H Hi.
  destruct (Z.ltb_spec i 0); [lia|].
  destruct ((0 <=? i) && (i <? Z.of_nat (length l))) eqn:Hb; [|discriminate].
  inversion H; subst. rewrite length_insert, Hb.
  apply andb_true_iff in Hb as [_ Hlt]. apply Z.ltb_lt in Hlt.
  by rewrite list_lookup_insert_eq by lia.
Qed.

Lemma py_setitem_other {A} (l l' : list A) (i i' : Z) (v : A) :
  py_setitem l i v = Ok l' -> 0 <= i -> 0 <= i' -> i <> i' ->
  py_getitem l' i' = py_getitem l i'.
Proof.
  unfold py_setitem, py_getitem. intros H Hi Hi' Hne.
  destruct (Z.ltb_spec i 0); [lia|]. destruct (Z.ltb_spec i' 0); [lia|].
  destruct ((0 <=? i) && (i <? Z.of_nat (length l))) eqn:Hb; [|discriminate].
  inversion H; subst. rewrite length_insert.
  by rewrite list_lookup_insert_ne by lia.
Qed.

Lemma sweep_init_inv encodingInt entropy :
  sweep_inv encodingInt (sweep_init entropy) [].
Proof.
  split; simpl.
  - constructor.
  - done.
  - apply map_size_empty.
  - intros j sig. rewrite lookup_empty, lookup_nil. split; [done|]. by intros [_ ?].
  - intros j sig. by rewrite !lookup_empty.
  - intros r Hr. by apply elem_of_nil in Hr.
  - intros sig enc H. by apply elem_of_nil in H.
Qed.

Lemma indexed_is_key encodingInt st seen sig j :
  sweep_inv encodingInt st seen ->
  st_shapeIndices st !! sig = Some j -> sig ∈ (st_specimens st).*1.
Proof.
  intros Hinv H. apply (inv_indices _ _ _ Hinv) in H.
  apply (inv_shapes _ _ _ Hinv) in H as [_ H].
  by eapply list_elem_of_lookup_2.
Qed.

Lemma tables_after_write encodingInt (st : sweep_state) seen res i shape
    (P' : list (option Z)) (OPS' : list (option (list Z)))
    (indices : gmap string Z) :
  (forall r, r ∈ seen ->
     exists i j, encodingInt (r_encoding r) = Ok i /\ 0 <= i
                 /\ indices !! r_sig r = Some j
                 /\ py_getitem (st_P st) i = Ok (Some j)
                 /\ py_getitem (st_OPS st) i = Ok (Some (r_ops r))) ->
  (forall r', r' ∈ seen -> apart encodingInt r' res) ->
  encodingInt (r_encoding res) = Ok i -> 0 <= i ->
  indices !! r_sig res = Some shape ->
  py_setitem (st_P st) i (Some shape) = Ok P' ->
  py_setitem (st_OPS st) i (Some (r_ops res)) = Ok OPS' ->
  forall r, r ∈ seen ++ [res] ->
    exists i j, encodingInt (r_encoding r) = Ok i /\ 0 <= i
                /\ indices !! r_sig r = Some j
                /\ py_getitem P' i = Ok (Some j)
                /\ py_getitem OPS' i = Ok (Some (r_ops r)).
Proof.
  intros Hold Hapart Hi Hnn Hshape HP HO r Hr.
  apply elem_of_app in Hr as [Hr|Hr].
  - destruct (Hold r Hr) as (i' & j' & Hi' & Hnn' & Hj' & HP' & HO').
    exists i', j'. split; [done|]. split; [done|]. split; [done|].
    assert (Hne : i <> i').
    { intros ->. by apply (Hapart r Hr i' i'). }
    rewrite (py_setitem_other _ _ _ _ _ HP), (py_setitem_other _ _ _ _ _ HO);
      done.
  - apply list_elem_of_singleton in Hr as ->.
    exists i, shape. split; [done|]. split; [done|]. split; [done|].
    split; eapply py_setitem_same; eauto.
Qed.

Lemma sweep_step_inv encodingInt st seen res st' :
  sweep_inv encodingInt st seen ->
  (forall r', r' ∈ seen -> apart encodingInt r' res) ->
  (forall i, encodingInt (r_encoding res) = Ok i -> 0 <= i) ->
  sweep_step encodingInt st res = Ok st' ->
  sweep_inv encodingInt st' (seen ++ [res]).
Proof.
  intros Hinv Hapart Hnn Hstep. unfold sweep_step in Hstep.
  apply bind_Ok in Hstep as (i & Hi & Hstep).
  specialize (Hnn i Hi).
  destruct (in_specimens (r_sig res) (st_specimens st)) eqn:Hin;
    cbn [negb] in Hstep.
  - (* a signature seen before *)
    destruct (st_shapeIndices st !! r_sig res) as [shape|] eqn:Hshape;
      [|discriminate].
    apply bind_Ok in Hstep as (P' & HP & Hstep).
    apply bind_Ok in Hstep as (OPS' & HO & Hstep).
    inversion Hstep; subst; clear Hstep.
    destruct Hinv as [I1 I2 Iz I3 I4 I5 I6]. split; simpl; try done.
    + by apply (tables_after_write encodingInt st seen res i shape).
    + intros sig enc Hs. destruct (I6 sig enc Hs) as (r & Hr & He & Hg).
      exists r. split; [|done]. apply elem_of_app. by left.
  - (* a new signature *)
    cbn [st_shapeIndices st_P st_OPS st_specimens st_shapes st_k] in Hstep.
    rewrite lookup_insert_eq in Hstep.
    apply bind_Ok in Hstep as (P' & HP & Hstep).
    apply bind_Ok in Hstep as (OPS' & HO & Hstep).
    inversion Hstep; subst; clear Hstep.
    assert (Hnew : r_sig res ∉ (st_specimens st).*1).
    { unfold in_specimens in Hin. by apply bool_decide_eq_false in Hin. }
    pose proof Hinv as [I1 I2 Iz I3 I4 I5 I6].
    assert (Hklen : Z.to_nat (st_k st) = length (st_specimens st).*1)
      by (rewrite length_fmap; lia).
    split; simpl.
    + rewrite fmap_app. apply NoDup_app. split; [done|]. split.
      * intros x Hx Hx'. apply list_elem_of_singleton in Hx' as ->. done.
      * apply NoDup_singleton.
    + rewrite length_app. simpl. lia.
    + rewrite length_app. simpl. rewrite map_size_insert_None, Iz; [lia|].
      destruct (st_shapes st !! st_k st) as [s0|] eqn:Hk0; [|done].
      apply I3 in Hk0 as [_ Hk0]. apply lookup_lt_Some in Hk0. lia.
    + intros j sig. rewrite fmap_app. simpl.
      destruct (decide (st_k st = j)) as [<-|Hne].
      * rewrite lookup_insert_eq, Hklen.
        rewrite lookup_app_r, Nat.sub_diag by done. simpl.
        split; [intros [= ->]; split; [lia|done]|by intros [_ [= ->]]].
      * rewrite lookup_insert_ne by done. rewrite I3.
        split; intros [Hj Hl]; (split; [done|]).
        -- by apply lookup_app_l_Some.
        -- apply lookup_app_Some in Hl as [Hl|[Hge Hl]]; [done|].
           apply list_lookup_singleton_Some in Hl as [Hz _]. lia.
    + intros j sig.
      destruct (decide (r_sig res = sig)) as [<-|Hs].
      * rewrite lookup_insert_eq.
        destruct (decide (st_k st = j)) as [<-|Hj].
        -- by rewrite lookup_insert_eq.
        -- rewrite lookup_insert_ne by done. split; [by intros [= ?]|].
           intros H. exfalso. apply Hnew.
           apply I3 in H as [_ H]. by eapply list_elem_of_lookup_2.
      * rewrite lookup_insert_ne by done.
        destruct (decide (st_k st = j)) as [<-|Hj].
        -- rewrite lookup_insert_eq. split; [|by intros [= ?]].
           intros H. exfalso. apply I4, I3 in H as [_ H].
           apply lookup_lt_Some in H. lia.
        -- rewrite lookup_insert_ne by done. apply I4.
    + apply (tables_after_write encodingInt st seen res i (st_k st));
        try done; [|apply lookup_insert_eq].
      intros r Hr. destruct (I5 r Hr) as (i' & j' & Hi' & Hnn' & Hj' & HP' & HO').
      exists i', j'. repeat (split; [done|]). split; [|done].
      rewrite lookup_insert_ne; [done|]. intros Heq. apply Hnew.
      rewrite Heq. by apply (indexed_is_key encodingInt st seen _ j').
    + intros sig enc Hs. apply elem_of_app in Hs as [Hs|Hs].
      * destruct (I6 sig enc Hs) as (r & Hr & He & Hg).
        exists r. split; [|done]. apply elem_of_app. by left.
      * apply list_elem_of_singleton in Hs as [= -> ->].
        exists res. split; [|done]. apply elem_of_app. right. by left.
Qed.

Lemma sweep_loop_inv encodingInt rest seen st st' :
  sweep_inv encodingInt st seen ->
  (forall r' r, r' ∈ seen -> r ∈ rest -> apart encodingInt r' r) ->
  StronglySorted (apart encodingInt) rest ->
  Forall (fun r => forall i, encodingInt (r_encoding r) = Ok i -> 0 <= i) rest ->
  rfold (sweep_step encodingInt) rest st = Ok st' ->
  sweep_inv encodingInt st' (seen ++ rest).
Proof.
  revert seen st. induction rest as [|r rest IH];
    intros seen st Hinv Hcross Hsorted Hnn H; simpl in H.
  - inversion H; subst. by rewrite app_nil_r.
  - apply bind_Ok in H as (st1 & Hstep & H).
    inversion Hsorted as [|? ? Hs Hr]; subst.
    inversion Hnn as [|? ? Hn Hns]; subst.
    replace (seen ++ r :: rest) with ((seen ++ [r]) ++ rest)
      by (by rewrite <- app_assoc).
    apply (IH (seen ++ [r]) st1); try done.
    + apply (sweep_step_inv encodingInt st seen r); try done.
      intros r' Hr'. apply Hcross; [done|by left].
    + intros r' r2 Hr' Hr2. apply elem_of_app in Hr' as [Hr'|Hr'].
      * apply Hcross; [done|by right].
      * apply list_elem_of_singleton in Hr' as ->.
        rewrite Forall_forall in Hr. by apply Hr.
Qed.

(** X22. The bookkeeping of the sweep. When the collecting loop returns,
    having read results whose table indices are non-negative and pairwise
    different: shape ids are the numbers below [k] in the order in which
    signatures were first seen, [shapes] and [shapeIndices] are inverse to
    each other, and [len(shapes)] is the number of specimens; at the index
    of every result the tables hold the id of its signature and its
    operands, so two results have the same id exactly when they have the
    same signature; and the specimen listed at position [j] of [section]
    is an encoding whose table entry is [j]. *)
Theorem sweep_bookkeeping (encodingInt : list bool -> result Z)
    (entropy : nat) (results : list sweep_result) (st : sweep_state) :
  StronglySorted (apart encodingInt) results ->
  Forall (fun r => forall i, encodingInt (r_encoding r) = Ok i -> 0 <= i)
         results ->
  sweep_collect encodingInt entropy results = Ok st ->
  st_k st = Z.of_nat (length (section_of st))
  /\ size (st_shapes st) = length (section_of st)
  /\ (forall j sig, st_shapes st !! j = Some sig -> 0 <= j < st_k st)
  /\ (forall j sig,
        st_shapeIndices st !! sig = Some j <-> st_shapes st !! j = Some sig)
  /\ (forall r, r ∈ results ->
        exists i j, encodingInt (r_encoding r) = Ok i
                    /\ st_shapeIndices st !! r_sig r = Some j
                    /\ py_getitem (st_P st) i = Ok (Some j)
                    /\ py_getitem (st_OPS st) i = Ok (Some (r_ops r)))
  /\ (forall r1 r2 i1 i2 j1 j2,
        r1 ∈ results -> r2 ∈ results ->
        encodingInt (r_encoding r1) = Ok i1 ->
        encodingInt (r_encoding r2) = Ok i2 ->
        py_getitem (st_P st) i1 = Ok (Some j1) ->
        py_getitem (st_P st) i2 = Ok (Some j2) ->
        (j1 = j2 <-> r_sig r1 = r_sig r2))
  /\ (forall j enc,
        0 <= j -> py_getitem (section_of st) j = Ok enc ->
        exists i, encodingInt enc = Ok i
                  /\ py_getitem (st_P st) i = Ok (Some j)).
Proof.
  intros Hsorted Hnn H. unfold sweep_collect in H.
  apply (sweep_loop_inv encodingInt results [] _ st
           (sweep_init_inv encodingInt entropy)) in H; try done.
  2:{ intros r' r Hr'. by apply elem_of_nil in Hr'. }
  simpl in H. destruct H as [I1 I2 Iz I3 I4 I5 I6].
  unfold section_of. rewrite length_fmap.
  split; [done|]. split; [done|]. split; [|split; [done|split; [|split]]].
  - intros j sig Hj. apply I3 in Hj as [Hj Hl].
    apply lookup_lt_Some in Hl. rewrite length_fmap in Hl. lia.
  - intros r Hr. destruct (I5 r Hr) as (i & j & Hi & _ & Hj & HP & HO). eauto 10.
  - intros r1 r2 i1 i2 j1 j2 Hr1 Hr2 Hi1 Hi2 HP1 HP2.
    destruct (I5 r1 Hr1) as (i1' & j1' & Hi1' & _ & Hj1 & HP1' & _).
    destruct (I5 r2 Hr2) as (i2' & j2' & Hi2' & _ & Hj2 & HP2' & _).
    rewrite Hi1 in Hi1'. rewrite Hi2 in Hi2'.
    inversion Hi1'; inversion Hi2'; subst i1' i2'.
    rewrite HP1 in HP1'. rewrite HP2 in HP2'.
    inversion HP1'; inversion HP2'; subst j1' j2'.
    split.
    + intros ->. apply I4 in Hj1, Hj2. congruence.
    + intros Heq. rewrite Heq in Hj1. congruence.
  - intros j enc Hj Hsec.
    unfold py_getitem in Hsec.
    destruct (Z.ltb_spec j 0); [lia|].
    destruct ((0 <=? j) && (j <? Z.of_nat (length (st_specimens st).*2)));
      [|discriminate].
    destruct ((st_specimens st).*2 !! Z.to_nat j) as [enc'|] eqn:Hl;
      [|discriminate].
    inversion Hsec; subst enc'.
    rewrite list_lookup_fmap in Hl.
    destruct (st_specimens st !! Z.to_nat j) as [[sig e]|] eqn:Hsp;
      [|discriminate].
    simpl in Hl. inversion Hl; subst e.
    destruct (I6 sig enc) as (r & Hr & <- & <-);
      [by eapply list_elem_of_lookup_2|].
    destruct (I5 r Hr) as (i & j' & Hi & _ & Hj' & HP & _).
    exists i. split; [done|]. rewrite HP. do 2 f_equal.
    apply I4, I3 in Hj' as [Hj0 Hk].
    assert (Hk2 : (st_specimens st).*1 !! Z.to_nat j = Some (r_sig r))
      by (by rewrite list_lookup_fmap, Hsp).
    pose proof (NoDup_lookup _ _ _ _ I1 Hk Hk2). lia.
Qed.

Lemma sweep_bookkeeping_witness :
  exists st,
    sweep_collect encodingIntA 2 sweepA = Ok st
    /\ st_k st = Z.of_nat (length (section_of st)).
Proof.
  destruct (sweep_collect encodingIntA 2 sweepA) as [st|] eqn:Hst;
    [|vm_compute in Hst; discriminate].
  exists st. split; [reflexivity|].
  refine (proj1 (sweep_bookkeeping encodingIntA 2 sweepA st _ _ Hst)).
  - repeat constructor; intros i1 i2 H1 H2; vm_compute in H1, H2;
      inversion H1; inversion H2; lia.
  - repeat constructor; intros i Hi; vm_compute in Hi; inversion Hi; lia.
Defined.

(** ** The shape catalog *)

Lemma empty_sets_lookup (nshapes : nat) (n : Z) (tags : gset (list bool)) :
  (list_to_map (map (fun k => (k, ∅)) (range (Z.of_nat nshapes)))
     : gmap Z (gset (list bool))) !! n = Some tags ->
  tags = ∅ /\ 0 <= n < Z.of_nat nshapes.
Proof.
  intros H. apply elem_of_list_to_map_2 in H.
  apply list_elem_of_fmap in H as (k & [= -> ->] & Hk).
  by apply elem_of_range in Hk.
Qed.

Lemma empty_sets_defined (nshapes : nat) (n : Z) :
  0 <= n < Z.of_nat nshapes ->
  is_Some ((list_to_map (map (fun k => (k, ∅)) (range (Z.of_nat nshapes)))
              : gmap Z (gset (list bool))) !! n).
Proof.
  intros Hn.
  destruct (list_to_map _ !! n) as [t|] eqn:Hl; [eauto|].
  exfalso. apply not_elem_of_list_to_map in Hl. apply Hl.
  rewrite <- list_fmap_compose. apply list_elem_of_fmap.
  exists n. split; [done|]. by apply elem_of_range.
Qed.

Lemma catalog_init_inv nshapes sl table :
  catalog_inv nshapes sl table
    (∅, list_to_map (map (fun k => (k, ∅)) (range (Z.of_nat nshapes)))) [].
Proof.
  split; simpl.
  - intros pat n. rewrite lookup_empty. split; [done|].
    intros (enc & Hin & _). by apply elem_of_nil in Hin.
  - intros n. split.
    + intros [t Ht]. by apply empty_sets_lookup in Ht as [_ ?].
    + apply empty_sets_defined.
  - intros n pat. rewrite lookup_empty. split; [|done].
    intros (t & Ht & Hin). apply empty_sets_lookup in Ht as [-> _].
    by apply elem_of_empty in Hin.
  - intros enc Hin. by apply elem_of_nil in Hin.
Qed.

Lemma catalog_step_inv nshapes sl table st seen enc st' :
  catalog_inv nshapes sl table st seen ->
  significantSlice sl enc ∉ map (significantSlice sl) seen ->
  catalog_step sl table st enc = Ok st' ->
  catalog_inv nshapes sl table st' (seen ++ [enc]).
Proof.
  intros [K1 K2 K3 K4] Hfresh Hstep. unfold catalog_step in Hstep.
  apply bind_Ok in Hstep as (shapeNum & Hnum & Hstep).
  destruct shapeNum as [n|]; [|discriminate].
  destruct (snd st !! n) as [tags|] eqn:Htags; [|discriminate].
  inversion Hstep; subst; clear Hstep.
  set (sig := significantSlice sl enc) in *.
  assert (Hnot : forall m, fst st !! sig <> Some m).
  { intros m Hm. apply K1 in Hm as (e & He & Hs & _). apply Hfresh.
    apply list_elem_of_fmap. eauto. }
  split; simpl.
  - intros pat m. destruct (decide (sig = pat)) as [<-|Hne].
    + rewrite lookup_insert_eq. split.
      * intros [= <-]. exists enc. split; [|done]. apply elem_of_app.
        right. by left.
      * intros (e & He & Hs & Ht). apply elem_of_app in He as [He|He].
        -- exfalso. apply Hfresh. apply list_elem_of_fmap. eauto.
        -- apply list_elem_of_singleton in He as ->. congruence.
    + rewrite lookup_insert_ne by done. rewrite K1. split.
      * intros (e & He & Hs & Ht). exists e. split; [|done].
        apply elem_of_app. by left.
      * intros (e & He & Hs & Ht). apply elem_of_app in He as [He|He];
          [eauto|].
        apply list_elem_of_singleton in He as ->. done.
  - intros m. rewrite <- K2. destruct (decide (n = m)) as [<-|Hne].
    + rewrite lookup_insert_eq, Htags. split; eauto.
    + by rewrite lookup_insert_ne.
  - intros m pat. destruct (decide (n = m)) as [<-|Hnm].
    + rewrite lookup_insert_eq. destruct (decide (sig = pat)) as [<-|Hsp].
      * rewrite lookup_insert_eq. split; [done|]. intros _.
        eexists. split; [done|]. apply elem_of_union. right.
        by apply elem_of_singleton.
      * rewrite lookup_insert_ne by done. rewrite <- K3. split.
        -- intros (t & [= <-] & Hin). exists tags. split; [done|].
           apply elem_of_union in Hin as [Hin|Hin]; [done|].
           apply elem_of_singleton in Hin. congruence.
        -- intros (t & Ht & Hin). rewrite Htags in Ht. inversion Ht; subst t.
           eexists. split; [done|]. apply elem_of_union. by left.
    + rewrite lookup_insert_ne by done.
      destruct (decide (sig = pat)) as [<-|Hsp].
      * rewrite lookup_insert_eq. split; [|by intros [= ?]].
        intros H. apply K3 in H. by apply Hnot in H.
      * rewrite lookup_insert_ne by done. apply K3.
  - intros e He. destruct (decide (sig = significantSlice sl e)) as [<-|Hne].
    + rewrite lookup_insert_eq. eauto.
    + rewrite lookup_insert_ne by done.
      apply elem_of_app in He as [He|He]; [by apply K4|].
      apply list_elem_of_singleton in He as ->. done.
Qed.

Lemma catalog_loop_inv nshapes sl table rest seen st st' :
  catalog_inv nshapes sl table st seen ->
  NoDup (map (significantSlice sl) (seen ++ rest)) ->
  rfold (catalog_step sl table) rest st = Ok st' ->
  catalog_inv nshapes sl table st' (seen ++ rest).
Proof.
  revert seen st. induction rest as [|enc rest IH]; intros seen st Hinv Hnd H;
    simpl in H.
  - inversion H; subst. by rewrite app_nil_r.
  - apply bind_Ok in H as (st1 & Hstep & H).
    replace (seen ++ enc :: rest) with ((seen ++ [enc]) ++ rest) in *
      by (by rewrite <- app_assoc).
    apply (IH (seen ++ [enc]) st1); [|done|done].
    apply (catalog_step_inv nshapes sl table st seen enc); [done| |done].
    rewrite !map_app in Hnd. apply NoDup_app in Hnd as [Hnd _].
    apply NoDup_app in Hnd as (_ & Hdis & _).
    intros Hin. apply (Hdis _ Hin). simpl. by left.
Qed.

(** What [phase1_shapes] has built when it returns. *)
Lemma phase1_catalog nshapes sl table shapeTags tagSets :
  phase1_shapes nshapes sl table = Ok (shapeTags, tagSets) ->
  unknowns sl = 0%nat
  /\ catalog_inv nshapes sl table (shapeTags, tagSets)
       (encodingspec_to_iter (map element_of (rev sl))).
Proof.
  unfold phase1_shapes. intros H.
  apply bind_Ok in H as (fs & Hfs & H).
  assert (Hres : unknowns sl = 0%nat).
  { destruct (decide (unknowns sl = 0%nat)) as [|Hne]; [done|].
    unfold asFieldSpec, enumerate in Hfs.
    rewrite rmap_letters_unknown in Hfs; [done|done|].
    intros Hall. by apply Hne, unknowns_0. }
  split; [done|].
  rewrite asFieldSpec_resolved in Hfs by done. inversion Hfs; subst fs.
  apply (catalog_loop_inv nshapes sl table _ [] _ _
           (catalog_init_inv nshapes sl table)) in H; [done|].
  simpl.
  assert (Htags : Forall (fun t => t <> Unknown) (rev sl)).
  { apply unknowns_0 in Hres. rewrite Forall_forall in Hres |- *.
    intros t Ht. apply Hres. by rewrite (Permutation_rev sl). }
  destruct (enumerated_slices (rev sl) Htags) as [Hsl _].
  change (significantSlice sl) with (slice_msb (rev sl)).
  rewrite Hsl. apply NoDup_all_bits.
Qed.

(** X23. When [phase1_shapes] returns, the sensitivity list has no ['?'],
    the catalog [shapeTags] has an entry for exactly the patterns of
    [entropy] bits, the entry of the slice of an enumerated encoding is
    that encoding's table value, every id in the catalog is one of the
    [nshapes] ids, and [tagSets] groups the patterns by id: a pattern is
    in the set of [n] exactly when the catalog maps it to [n]. (The
    enumerator is the one modelled above from its description.) *)
Theorem phase1_builds_catalog (nshapes : nat) (sl : list tag)
    (table : list (option Z))
    (shapeTags : gmap (list bool) Z) (tagSets : gmap Z (gset (list bool))) :
  phase1_shapes nshapes sl table = Ok (shapeTags, tagSets) ->
  unknowns sl = 0%nat
  /\ (forall pat, is_Some (shapeTags !! pat) <-> length pat = entropy sl)
  /\ (forall enc n,
        enc ∈ encodingspec_to_iter (map element_of (rev sl)) ->
        (shapeTags !! significantSlice sl enc = Some n
         <-> py_getitem table (uint enc) = Ok (Some n)))
  /\ (forall pat n, shapeTags !! pat = Some n -> 0 <= n < Z.of_nat nshapes)
  /\ (forall n pat,
        (exists tags, tagSets !! n = Some tags /\ pat ∈ tags)
        <-> shapeTags !! pat = Some n).
Proof.
  intros H. apply phase1_catalog in H as [Hres [K1 K2 K3 K4]]. simpl in *.
  assert (Htags : Forall (fun t => t <> Unknown) (rev sl)).
  { apply unknowns_0 in Hres. rewrite Forall_forall in Hres |- *.
    intros t Ht. apply Hres. by rewrite (Permutation_rev sl). }
  destruct (enumerated_slices (rev sl) Htags) as [Hsl _].
  rewrite entropy_rev in Hsl.
  set (encs := encodingspec_to_iter (map element_of (rev sl))) in *.
  assert (Hinj : forall e1 e2, e1 ∈ encs -> e2 ∈ encs ->
            significantSlice sl e1 = significantSlice sl e2 -> e1 = e2).
  { intros e1 e2 H1 H2. apply (NoDup_fmap_inj_on _ encs); [|done..].
    change (significantSlice sl) with (slice_msb (rev sl)).
    rewrite Hsl. apply NoDup_all_bits. }
  split; [done|]. split; [|split; [|split; [|done]]].
  - intros pat. rewrite <- elem_of_all_bits, <- Hsl. split.
    + intros [n Hn]. apply K1 in Hn as (enc & He & Hs & _).
      apply list_elem_of_fmap. exists enc. done.
    + intros Hin. apply list_elem_of_fmap in Hin as (enc & -> & He).
      by apply K4.
  - intros enc n He. rewrite K1. split.
    + intros (e & He' & Hs & Ht). by rewrite <- (Hinj e enc He' He Hs).
    + intros Ht. eauto.
  - intros pat n Hn. apply K2. apply K3 in Hn as (t & Ht & _). eauto.
Qed.

Lemma phase1_builds_catalog_witness :
  exists shapeTags tagSets,
    phase1_shapes 2 [Irrelevant; Relevant] tablePA = Ok (shapeTags, tagSets)
    /\ unknowns [Irrelevant; Relevant] = 0%nat.
Proof.
  destruct (phase1_shapes 2 [Irrelevant; Relevant] tablePA)
    as [[shapeTags tagSets]|] eqn:H; [|vm_compute in H; discriminate].
  exists shapeTags, tagSets. split; [reflexivity|].
  exact (proj1 (phase1_builds_catalog 2 [Irrelevant; Relevant] tablePA
                  shapeTags tagSets H)).
Defined.

Lemma catalog_loop_total nshapes sl table encs st :
  (forall n, is_Some (snd st !! n) <-> 0 <= n < Z.of_nat nshapes) ->
  (forall enc, enc ∈ encs ->
     exists n, py_getitem table (uint enc) = Ok (Some n)
               /\ 0 <= n < Z.of_nat nshapes) ->
  exists st', rfold (catalog_step sl table) encs st = Ok st'.
Proof.
  revert st. induction encs as [|enc encs IH]; intros st Hids Hall;
    [by eexists|].
  destruct (Hall enc) as (n & Hn & Hran); [by left|].
  destruct (proj2 (Hids n) Hran) as [tags Htags].
  cbn [rfold]. unfold catalog_step at 2. rewrite Hn. cbn [mbind result_bind].
  rewrite Htags. cbn [mbind result_bind]. apply IH.
  - intros m. cbn [snd]. rewrite <- Hids.
    destruct (decide (n = m)) as [<-|Hne].
    + rewrite lookup_insert_eq, Htags. split; eauto.
    + by rewrite lookup_insert_ne.
  - intros e He. apply Hall. by right.
Qed.

(** X24. From the table to the search, for a table [P] of width at least
    two whose entries are ids below [nshapes]: the sensitivity list is
    computed, [phase1_shapes] on it returns, the catalog it builds maps
    the significant slice of every encoding (not only of the enumerated
    ones) to that encoding's shape id, and [find_flockings] on this
    catalog runs to its end. (The enumerator is the one modelled above
    from its description.) *)
Theorem catalog_of_sensitivity (W nshapes : nat) (P : Z -> Z)
    (table : list (option Z)) (check : Flock.solver) :
  (2 <= W)%nat ->
  (forall k, 0 <= k < 2 ^ Z.of_nat W ->
     py_getitem table k = Ok (Some (P k)) /\ 0 <= P k < Z.of_nat nshapes) ->
  exists self' shapeTags tagSets,
    guess (SensitivityList_init W) (py_getitem table) = Ok self'
    /\ phase1_shapes nshapes (slist self') table = Ok (shapeTags, tagSets)
    /\ (forall v, 0 <= v < 2 ^ Z.of_nat W ->
          shapeTags !! significantSlice (slist self') (Bits_uint v W)
          = Some (P v))
    /\ exists ys, find_flockings check shapeTags (slist self') = Ok ys.
Proof.
  intros HW Htab.
  assert (Hp : forall k, 0 <= k < 2 ^ Z.of_nat W ->
                 py_getitem table k = Ok (Some (P k))).
  { intros k Hk. by apply Htab. }
  destruct (guess_matches_ground_truth W P (py_getitem table) HW Hp)
    as (s & Hs & Hlen & _).
  pose proof (guess_no_unknown _ _ _ Hs) as Hres.
  assert (Htags : Forall (fun t => t <> Unknown) (rev (slist s))).
  { apply unknowns_0 in Hres. rewrite Forall_forall in Hres |- *.
    intros t Ht. apply Hres. by rewrite (Permutation_rev (slist s)). }
  destruct (enumerated_slices (rev (slist s)) Htags) as [Hsl Hlens].
  rewrite entropy_rev in Hsl. rewrite length_rev, Hlen in Hlens.
  rewrite Forall_forall in Hlens.
  set (encs := encodingspec_to_iter (map element_of (rev (slist s)))) in *.
  assert (Hrun : exists st, phase1_shapes nshapes (slist s) table = Ok st).
  { unfold phase1_shapes. rewrite asFieldSpec_resolved by done.
    cbn [mbind result_bind]. apply (catalog_loop_total nshapes).
    - intros n. cbn [snd]. split.
      + intros [t Ht]. by apply empty_sets_lookup in Ht as [_ ?].
      + apply empty_sets_defined.
    - intros enc He. exists (P (uint enc)). apply Htab.
      rewrite <- (Hlens enc He). apply uint_range. }
  destruct Hrun as [[shapeTags tagSets] Hrun].
  exists s, shapeTags, tagSets. split; [done|]. split; [done|].
  destruct (phase1_catalog _ _ _ _ _ Hrun) as [_ [K1 K2 K3 K4]].
  cbn [fst snd] in *.
  assert (Hcover : forall pat, length pat = entropy (slist s) ->
            exists enc, enc ∈ encs /\ significantSlice (slist s) enc = pat).
  { intros pat Hpat. apply elem_of_all_bits in Hpat. rewrite <- Hsl in Hpat.
    apply list_elem_of_fmap in Hpat as (enc & -> & He). eauto. }
  split.
  - intros v Hv.
    assert (Hlpat : length (significantSlice (slist s) (Bits_uint v W))
                    = entropy (slist s)).
    { change (significantSlice (slist s)) with (slice_msb (rev (slist s))).
      rewrite slice_msb_length, entropy_rev; [done|].
      by rewrite Bits_uint_length, length_rev. }
    destruct (Hcover _ Hlpat) as (enc & He & Hslice).
    pose proof (Hlens enc He) as Hle.
    assert (Hu : 0 <= uint enc < 2 ^ Z.of_nat W).
    { rewrite <- Hle. apply uint_range. }
    apply K1. exists enc. split; [done|]. split; [done|].
    rewrite Hp by done. do 2 f_equal.
    apply (irrelevant_walk W P); [done|done|].
    intros i Hi.
    destruct (guess_letter W P _ s i HW Hp Hs Hi) as [[_ Hirr]|[Hrel _]];
      [by right|left].
    change (significantSlice (slist s)) with (slice_msb (rev (slist s)))
      in Hslice.
    pose proof (proj1 (slice_msb_agree (rev (slist s)) enc (Bits_uint v W)
                         ltac:(by rewrite length_rev, Hlen)
                         ltac:(by rewrite Bits_uint_length, length_rev, Hlen))
                  Hslice (W - S i)%nat) as Hk.
    clear Hslice. rename Hk into Hslice.
    rewrite rev_lookup in Hslice by lia.
    replace (length (slist s) - S (W - S i))%nat with i in Hslice by lia.
    specialize (Hslice Hrel).
    rewrite <- (Bits_uint_uint enc), Hle in Hslice.
    rewrite !Bits_uint_lookup in Hslice by done. congruence.
  - apply find_flockings_total. intros pat Hpat.
    destruct (Hcover pat Hpat) as (enc & He & <-). by apply K4.
Qed.

Lemma catalog_of_sensitivity_witness :
  exists self' shapeTags tagSets,
    guess (SensitivityList_init 2) (py_getitem tablePA) = Ok self'
    /\ phase1_shapes 2 (slist self') tablePA = Ok (shapeTags, tagSets)
    /\ (forall v, 0 <= v < 2 ^ Z.of_nat 2 ->
          shapeTags !! significantSlice (slist self') (Bits_uint v 2)
          = Some (v / 2))
    /\ exists ys, find_flockings checkC shapeTags (slist self') = Ok ys.
Proof.
  apply (catalog_of_sensitivity 2 2 (fun v => v / 2) tablePA checkC); [lia|].
  intros k Hk.
  assert (Hc : k = 0 \/ k = 1 \/ k = 2 \/ k = 3) by (simpl in Hk; lia).
  destruct Hc as [-> | [-> | [-> | ->]]]; vm_compute; repeat split; congruence.
Defined.

(** ** Counting the shapes *)

Lemma sweep_step_sigs encodingInt st seen res st' :
  sigs_inv st seen ->
  sweep_step encodingInt st res = Ok st' ->
  sigs_inv st' (seen ++ [res]).
Proof.
  intros [I1 I2 I3 I4 I5] Hstep. unfold sweep_step in Hstep.
  apply bind_Ok in Hstep as (i & Hi & Hstep).
  destruct (in_specimens (r_sig res) (st_specimens st)) eqn:Hin;
    cbn [negb] in Hstep.
  - destruct (st_shapeIndices st !! r_sig res) as [shape|]; [|discriminate].
    apply bind_Ok in Hstep as (P' & HP & Hstep).
    apply bind_Ok in Hstep as (OPS' & HO & Hstep).
    inversion Hstep; subst; clear Hstep. split; simpl; try done.
    intros sig. rewrite map_app, elem_of_app, <- I5. simpl.
    rewrite list_elem_of_singleton. split; [by left|].
    intros [H| ->]; [done|].
    unfold in_specimens in Hin. by apply bool_decide_eq_true in Hin.
  - cbn [st_shapeIndices st_P st_OPS st_specimens st_shapes st_k] in Hstep.
    rewrite lookup_insert_eq in Hstep.
    apply bind_Ok in Hstep as (P' & HP & Hstep).
    apply bind_Ok in Hstep as (OPS' & HO & Hstep).
    inversion Hstep; subst; clear Hstep.
    assert (Hnew : r_sig res ∉ (st_specimens st).*1).
    { unfold in_specimens in Hin. by apply bool_decide_eq_false in Hin. }
    split; simpl.
    + rewrite fmap_app. apply NoDup_app. split; [done|]. split.
      * intros x Hx Hx'. apply list_elem_of_singleton in Hx' as ->. done.
      * apply NoDup_singleton.
    + rewrite length_app. simpl. lia.
    + rewrite length_app. simpl. rewrite map_size_insert_None, I3; [lia|].
      destruct (st_shapes st !! st_k st) as [s0|] eqn:Hk0; [|done].
      assert (0 <= st_k st < st_k st) by (apply I4; eauto). lia.
    + intros j. destruct (decide (st_k st = j)) as [<-|Hne]; [lia|].
      rewrite lookup_insert_ne by done. intros Hj. apply I4 in Hj. lia.
    + intros sig. rewrite fmap_app, map_app, !elem_of_app, I5. done.
Qed.

Lemma sweep_loop_sigs encodingInt rest seen st st' :
  sigs_inv st seen ->
  rfold (sweep_step encodingInt) rest st = Ok st' ->
  sigs_inv st' (seen ++ rest).
Proof.
  revert seen st. induction rest as [|r rest IH]; intros seen st Hinv H;
    simpl in H.
  - inversion H; subst. by rewrite app_nil_r.
  - apply bind_Ok in H as (st1 & Hstep & H).
    replace (seen ++ r :: rest) with ((seen ++ [r]) ++ rest)
      by (by rewrite <- app_assoc).
    apply (IH (seen ++ [r]) st1); [|done].
    by apply (sweep_step_sigs encodingInt st seen r).
Qed.

Lemma sweep_sigs encodingInt entropy results st :
  sweep_collect encodingInt entropy results = Ok st ->
  sigs_inv st results.
Proof.
  intros H. unfold sweep_collect in H.
  apply (sweep_loop_sigs encodingInt results [] (sweep_init entropy)); [|done].
  split; simpl; try done.
  - constructor.
  - intros j [s Hs]. by rewrite lookup_empty in Hs.
Qed.

(** X25. The number of shapes is the number of different signatures among
    the results, whatever else the sweep read. So [isRegular] holds
    exactly when there was a result and all results have one signature,
    and [isFork] exactly when two different signatures occur and no
    third. *)
Theorem shapes_count_signatures (encodingInt : list bool -> result Z)
    (entropy : nat) (results : list sweep_result) (st : sweep_state) :
  sweep_collect encodingInt entropy results = Ok st ->
  size (st_shapes st) = length (remove_dups (map r_sig results))
  /\ (isRegular st = true
      <-> results <> []
          /\ forall r1 r2, r1 ∈ results -> r2 ∈ results ->
               r_sig r1 = r_sig r2)
  /\ (isFork st = true
      <-> exists s1 s2, s1 <> s2
            /\ s1 ∈ map r_sig results /\ s2 ∈ map r_sig results
            /\ forall r, r ∈ results -> r_sig r = s1 \/ r_sig r = s2).
Proof.
  intros H. apply sweep_sigs in H as [I1 I2 I3 I4 I5].
  set (keys := (st_specimens st).*1) in *.
  assert (Hsize : size (st_shapes st) = length keys).
  { subst keys. by rewrite length_fmap. }
  assert (Hsig : forall r, r ∈ results -> r_sig r ∈ keys).
  { intros r Hr. apply I5. apply list_elem_of_fmap. eauto. }
  split; [|split].
  - rewrite Hsize. apply Permutation_length.
    apply NoDup_Permutation; [done|apply NoDup_remove_dups|].
    intros sig. by rewrite elem_of_remove_dups, I5.
  - unfold isRegular. rewrite Nat.eqb_eq, Hsize. split.
    + intros Hone. destruct keys as [|s [|? ?]] eqn:Hk; try done.
      split.
      * intros ->. assert (Hs : s ∈ @nil string).
        { change (@nil string) with (map r_sig []). apply I5. by left. }
        by apply elem_of_nil in Hs.
      * intros r1 r2 H1 H2. apply Hsig in H1, H2.
        apply list_elem_of_singleton in H1, H2. congruence.
    + intros [Hne Hall]. destruct results as [|r0 results]; [done|].
      assert (Hperm : keys ≡ₚ [r_sig r0]).
      { apply NoDup_Permutation; [done|apply NoDup_singleton|].
        intros sig. rewrite I5, list_elem_of_singleton. split.
        - intros Hin. apply list_elem_of_fmap in Hin as (r & -> & Hr).
          apply Hall; [done|by left].
        - intros ->. apply list_elem_of_fmap. exists r0. split; [done|by left]. }
      by rewrite Hperm.
  - unfold isFork. rewrite Nat.eqb_eq, Hsize. split.
    + intros Htwo. destruct keys as [|s1 [|s2 [|? ?]]] eqn:Hk; try done.
      exists s1, s2. split; [|split; [|split]].
      * apply NoDup_cons in I1 as [Hn _]. intros ->. apply Hn. by left.
      * apply I5. by left.
      * apply I5. right. by left.
      * intros r Hr. apply Hsig in Hr.
        apply elem_of_cons in Hr as [Hr|Hr]; [by left|right].
        by apply list_elem_of_singleton in Hr.
    + intros (s1 & s2 & Hne & H1 & H2 & Hall).
      assert (Hperm : keys ≡ₚ [s1; s2]).
      { apply NoDup_Permutation; [done| |].
        - apply NoDup_cons. split; [|apply NoDup_singleton].
          intros Hin. by apply list_elem_of_singleton in Hin.
        - intros sig. rewrite I5. split.
          + intros Hin. apply list_elem_of_fmap in Hin as (r & -> & Hr).
            destruct (Hall r Hr) as [-> | ->]; [by left|right; by left].
          + intros Hin. apply elem_of_cons in Hin as [->|Hin]; [done|].
            by apply list_elem_of_singleton in Hin as ->. }
      by rewrite Hperm.
Qed.

Lemma shapes_count_signatures_witness :
  exists st,
    sweep_collect encodingIntA 2 sweepA = Ok st
    /\ size (st_shapes st) = length (remove_dups (map r_sig sweepA)).
Proof.
  destruct (sweep_collect encodingIntA 2 sweepA) as [st|] eqn:Hst;
    [|vm_compute in Hst; discriminate].
  exists st. split; [reflexivity|].
  exact (proj1 (shapes_count_signatures encodingIntA 2 sweepA st Hst)).
Defined.

(** ** The visitors of VEX terms *)

Lemma irnode_induction (P : irnode -> Prop)
    (HIMark : forall a l d, P (IMark a l d))
    (HWrTmp : forall tmp d, P d -> P (WrTmp tmp d))
    (HPut : forall d o, P d -> P (Put d o))
    (HGet : forall o ty, P (Get o ty))
    (HBinop : forall op args, Forall P args -> P (Binop op args))
    (HUnop : forall op args, Forall P args -> P (Unop op args))
    (HRdTmp : forall tmp, P (RdTmp tmp))
    (HConst : forall c, P c -> P (Const c))
    (HU32 : forall v, P (U32 v))
    (HExit : forall g d jk o, P g -> P d -> P (Exit g d jk o))
    (HOther : forall n, P (OtherNode n)) :
  forall t, P t.
Proof.
  fix IH 1. intros [a l d|tmp d|d o|o ty|op args|op args|tmp|c|v|g d jk o|n].
  - apply HIMark.
  - apply HWrTmp, IH.
  - apply HPut, IH.
  - apply HGet.
  - apply HBinop. induction args as [|x r IHr]; constructor; [apply IH|exact IHr].
  - apply HUnop. induction args as [|x r IHr]; constructor; [apply IH|exact IHr].
  - apply HRdTmp.
  - apply HConst, IH.
  - apply HU32.
  - apply HExit; apply IH.
  - apply HOther.
Qed.

Lemma pyval_induction (P : pyval -> Prop)
    (HNone : P PNone) (HInt : forall z, P (PInt z))
    (HStr : forall s, P (PStr s))
    (HList : forall l, Forall P l -> P (PList l))
    (HTuple : forall l, Forall P l -> P (PTuple l)) :
  forall v, P v.
Proof.
  fix IH 1. intros [|z|s|l|l].
  - apply HNone.
  - apply HInt.
  - apply HStr.
  - apply HList. induction l as [|x r IHr]; constructor; [apply IH|exact IHr].
  - apply HTuple. induction l as [|x r IHr]; constructor; [apply IH|exact IHr].
Qed.

Lemma rmap_Forall {A B} (f : A -> result B) (Q : B -> Prop) xs ys :
  Forall (fun x => forall y, f x = Ok y -> Q y) xs ->
  rmap f xs = Ok ys -> Forall Q ys.
Proof.
  intros HF. revert ys. induction HF as [|x xs Hx HF IH]; intros ys H;
    simpl in H.
  - inversion H. constructor.
  - apply bind_Ok in H as (y & Hy & H). apply bind_Ok in H as (ys' & Hys & H).
    inversion H; subst. constructor; [by apply Hx|by apply IH].
Qed.

Lemma termShape_head dot t s :
  termShape dot t = Ok s -> exists rest, s = PTuple (PStr (class_name t) :: rest).
Proof.
  destruct t; simpl; intros H;
    repeat (apply bind_Ok in H as (? & ? & H));
    inversion H; subst; eauto.
Qed.

Lemma shape_kernel_list dot (args1 : list irnode) :
  Forall (fun t1 => forall t2,
            differ_only_in_constants t1 t2 = true
            <-> exists s, termShape dot t1 = Ok s /\ termShape dot t2 = Ok s)
         args1 ->
  forall args2,
    forall2b differ_only_in_constants args1 args2 = true
    <-> exists ss, rmap (termShape dot) args1 = Ok ss
                   /\ rmap (termShape dot) args2 = Ok ss.
Proof.
  induction 1 as [|x r Hx HF IH]; intros [|y r']; simpl.
  - split; [eauto|done].
  - split; [done|]. intros (ss & [= <-] & H).
    apply bind_Ok in H as (? & ? & H). apply bind_Ok in H as (? & ? & H).
    discriminate.
  - split; [done|]. intros (ss & H & [= <-]).
    apply bind_Ok in H as (? & ? & H). apply bind_Ok in H as (? & ? & H).
    discriminate.
  - rewrite andb_true_iff, Hx, IH. split.
    + intros [(s & H1 & H2) (ss & H3 & H4)]. exists (s :: ss).
      rewrite H1, H2, H3, H4. done.
    + intros (ss & H1 & H2).
      apply bind_Ok in H1 as (s1 & Hs1 & H1).
      apply bind_Ok in H1 as (ss1 & Hss1 & H1).
      apply bind_Ok in H2 as (s2 & Hs2 & H2).
      apply bind_Ok in H2 as (ss2 & Hss2 & H2).
      inversion H1; subst. inversion H2; subst. split; eauto.
Qed.

Ltac shape_mismatch :=
  split; [discriminate|];
  let s := fresh "s" in let H1 := fresh "H1" in let H2 := fresh "H2" in
  intros (s & H1 & H2);
  try (simpl in H1; discriminate); try (simpl in H2; discriminate);
  apply termShape_head in H1 as [? ->];
  apply termShape_head in H2 as [? H2];
  simpl in H2; discriminate.

(** Two terms have the same shape exactly when they differ only in leaf
    constants. *)
Lemma shape_kernel dot (t1 t2 : irnode) :
  differ_only_in_constants t1 t2 = true
  <-> exists s, termShape dot t1 = Ok s /\ termShape dot t2 = Ok s.
Proof.
  revert t2. induction t1 as [a l d|tmp d IH|d o IH|o ty|op args IH|op args IH
                              |tmp|c IH|v|g d jk o IHg IHd|n]
    using irnode_induction;
    intros [a' l' d'|tmp' d'|d' o'|o' ty'|op' args'|op' args'|tmp'|c'|v'
            |g' d' jk' o'|n'];
    try (cbn [differ_only_in_constants]; shape_mismatch);
    cbn [differ_only_in_constants termShape].
  - split; [eauto|done].
  - rewrite andb_true_iff, bool_decide_eq_true, IH. split.
    + intros [-> (s & H1 & H2)]. rewrite H1, H2. simpl. eauto.
    + intros (s & H1 & H2).
      apply bind_Ok in H1 as (s1 & Hs1 & H1).
      apply bind_Ok in H2 as (s2 & Hs2 & H2).
      inversion H1; subst. inversion H2; subst. eauto.
  - rewrite IH. split.
    + intros (s & H1 & H2). rewrite H1, H2. simpl. eauto.
    + intros (s & H1 & H2).
      apply bind_Ok in H1 as (s1 & Hs1 & H1).
      apply bind_Ok in H2 as (s2 & Hs2 & H2).
      inversion H1; subst. inversion H2; subst. eauto.
  - rewrite bool_decide_eq_true. split.
    + intros ->. eauto.
    + intros (s & [= <-] & [= ->]). done.
  - rewrite andb_true_iff, bool_decide_eq_true, (shape_kernel_list dot args IH).
    split.
    + intros [-> (ss & H1 & H2)]. rewrite H1, H2. simpl. eauto.
    + intros (s & H1 & H2).
      apply bind_Ok in H1 as (s1 & Hs1 & H1).
      apply bind_Ok in H2 as (s2 & Hs2 & H2).
      inversion H1; subst. inversion H2; subst. eauto.
  - rewrite andb_true_iff, bool_decide_eq_true, (shape_kernel_list dot args IH).
    split.
    + intros [-> (ss & H1 & H2)]. rewrite H1, H2. simpl. eauto.
    + intros (s & H1 & H2).
      apply bind_Ok in H1 as (s1 & Hs1 & H1).
      apply bind_Ok in H2 as (s2 & Hs2 & H2).
      inversion H1; subst. inversion H2; subst. eauto.
  - rewrite bool_decide_eq_true. split.
    + intros ->. eauto.
    + intros (s & [= <-] & [= ->]). done.
  - rewrite IH. split.
    + intros (s & H1 & H2). rewrite H1, H2. simpl. eauto.
    + intros (s & H1 & H2).
      apply bind_Ok in H1 as (s1 & Hs1 & H1).
      apply bind_Ok in H2 as (s2 & Hs2 & H2).
      inversion H1; subst. inversion H2; subst. eauto.
  - split; [eauto|done].
  - rewrite !andb_true_iff, bool_decide_eq_true, IHg, IHd. split.
    + intros [[(s & H1 & H2) (s' & H3 & H4)] ->].
      rewrite H1, H2, H3, H4. simpl. eauto.
    + intros (s & H1 & H2).
      apply bind_Ok in H1 as (s1 & Hs1 & H1).
      apply bind_Ok in H1 as (s1' & Hs1' & H1).
      apply bind_Ok in H2 as (s2 & Hs2 & H2).
      apply bind_Ok in H2 as (s2' & Hs2' & H2).
      inversion H1; subst. inversion H2; subst. split; [split|]; eauto.
Qed.

Lemma shape_kernel_stmts dot (s1 s2 : list irnode) :
  forall2b differ_only_in_constants s1 s2 = true
  <-> exists ss, rmap (termShape dot) s1 = Ok ss
                 /\ rmap (termShape dot) s2 = Ok ss.
Proof.
  apply shape_kernel_list. apply Forall_forall. intros t _ t2.
  apply shape_kernel.
Qed.

(** X26. Two terms get the same shape exactly when they differ only in
    their leaf constants: the fields of an [IMark], the offsets of [Get]
    and [Put], the value of a [U32] and the offset of an [Exit]; and so
    for the lists of statements of two blocks. Temporaries, types,
    operators and jump kinds are part of the shape. *)
Theorem same_shape_iff_constants_differ (CenteredDot : pyval)
    (t1 t2 : irnode) (stmts1 stmts2 : list irnode) :
  (differ_only_in_constants t1 t2 = true
   <-> exists s, termShape CenteredDot t1 = Ok s
                 /\ termShape CenteredDot t2 = Ok s)
  /\ (forall2b differ_only_in_constants stmts1 stmts2 = true
      <-> exists sig, rmap (termShape CenteredDot) stmts1 = Ok sig
                      /\ rmap (termShape CenteredDot) stmts2 = Ok sig).
Proof. split; [apply shape_kernel|apply shape_kernel_stmts]. Qed.

(** *** The constants *)

Lemma filter_not_None (cs : list pyval) :
  Forall (fun c => c <> PNone) cs ->
  filter (fun x => not_None x = true) cs = cs.
Proof.
  induction 1 as [|c cs Hc HF IH]; [done|].
  rewrite filter_cons. destruct (decide (not_None c = true)) as [|Hn].
  - by rewrite IH.
  - by destruct c.
Qed.

Lemma Forall_flat_map {A B} (f : A -> list B) (Q : B -> Prop) (l : list A) :
  Forall (fun x => Forall Q (f x)) l -> Forall Q (flat_map f l).
Proof.
  induction 1 as [|x l Hx HF IH]; simpl; [constructor|].
  apply Forall_app. done.
Qed.

(** The constants of a term are never [None], and flattened they are
    integers. *)
Lemma termConstants_ints (t : irnode) :
  forall c, termConstants t = Ok c ->
    c <> PNone /\ Forall (fun v => is_int v = true) (flatten_item c).
Proof.
  induction t as [a l d|tmp d IH|d o IH|o ty|op args IH|op args IH
                  |tmp|c0 IH|v|g d jk o IHg IHd|n]
    using irnode_induction; intros c H; cbn [termConstants] in H;
    try discriminate;
    try (by inversion H; subst; split; [done|simpl; repeat constructor]);
    try (by apply IH).
  - apply bind_Ok in H as (cs & Hcs & H). inversion H; subst; clear H.
    pose proof (rmap_Forall _ _ _ _ IH Hcs) as HF.
    split; [done|]. rewrite filter_not_None.
    + cbn [flatten_item]. apply Forall_flat_map.
      eapply Forall_impl; [exact HF|]. by intros c [_ ?].
    + eapply Forall_impl; [exact HF|]. by intros c [? _].
  - apply bind_Ok in H as (cs & Hcs & H). inversion H; subst; clear H.
    pose proof (rmap_Forall _ _ _ _ IH Hcs) as HF.
    split; [done|]. rewrite filter_not_None.
    + cbn [flatten_item]. apply Forall_flat_map.
      eapply Forall_impl; [exact HF|]. by intros c [_ ?].
    + eapply Forall_impl; [exact HF|]. by intros c [? _].
Qed.

Lemma termConstants_list_not_None (args : list irnode) (cs : list pyval) :
  rmap termConstants args = Ok cs ->
  filter (fun x => not_None x = true) cs = cs.
Proof.
  intros H. apply filter_not_None.
  apply (rmap_Forall termConstants _ args); [|done].
  apply Forall_forall. intros t _ c Hc.
  by apply termConstants_ints in Hc as [? _].
Qed.

Lemma count_list (args1 : list irnode) :
  Forall (fun t1 => forall t2 c1 c2,
            differ_only_in_constants t1 t2 = true ->
            termConstants t1 = Ok c1 -> termConstants t2 = Ok c2 ->
            length (flatten_item c1) = length (flatten_item c2)) args1 ->
  forall args2 cs1 cs2,
    forall2b differ_only_in_constants args1 args2 = true ->
    rmap termConstants args1 = Ok cs1 -> rmap termConstants args2 = Ok cs2 ->
    length (flat_map flatten_item cs1) = length (flat_map flatten_item cs2).
Proof.
  induction 1 as [|x r Hx HF IH]; intros [|y r'] cs1 cs2 Hd H1 H2;
    simpl in Hd; try done.
  - simpl in H1, H2. by inversion H1; inversion H2.
  - apply andb_true_iff in Hd as [Hxy Hr].
    simpl in H1, H2.
    apply bind_Ok in H1 as (c1 & Hc1 & H1).
    apply bind_Ok in H1 as (cr1 & Hcr1 & H1).
    apply bind_Ok in H2 as (c2 & Hc2 & H2).
    apply bind_Ok in H2 as (cr2 & Hcr2 & H2).
    inversion H1; subst. inversion H2; subst. simpl.
    rewrite !length_app. f_equal; [by eapply Hx|by eapply IH].
Qed.

(** Terms of one shape have the same number of constants. *)
Lemma count_alike (t1 : irnode) :
  forall t2 c1 c2,
    differ_only_in_constants t1 t2 = true ->
    termConstants t1 = Ok c1 -> termConstants t2 = Ok c2 ->
    length (flatten_item c1) = length (flatten_item c2).
Proof.
  induction t1 as [a l d|tmp d IH|d o IH|o ty|op args IH|op args IH
                   |tmp|c0 IH|v|g d jk o IHg IHd|n]
    using irnode_induction;
    intros [a' l' d'|tmp' d'|d' o'|o' ty'|op' args'|op' args'|tmp'|c'|v'
            |g' d' jk' o'|n'] c1 c2 Hd H1 H2;
    cbn [differ_only_in_constants] in Hd; try discriminate;
    cbn [termConstants] in H1, H2;
    try (by inversion H1; inversion H2).
  - apply andb_true_iff in Hd as [_ Hd]. by eapply IH.
  - apply andb_true_iff in Hd as [_ Hd].
    apply bind_Ok in H1 as (cs1 & Hcs1 & H1).
    apply bind_Ok in H2 as (cs2 & Hcs2 & H2).
    inversion H1; subst. inversion H2; subst.
    rewrite (termConstants_list_not_None _ _ Hcs1),
      (termConstants_list_not_None _ _ Hcs2).
    cbn [flatten_item]. by eapply count_list.
  - apply andb_true_iff in Hd as [_ Hd].
    apply bind_Ok in H1 as (cs1 & Hcs1 & H1).
    apply bind_Ok in H2 as (cs2 & Hcs2 & H2).
    inversion H1; subst. inversion H2; subst.
    rewrite (termConstants_list_not_None _ _ Hcs1),
      (termConstants_list_not_None _ _ Hcs2).
    cbn [flatten_item]. by eapply count_list.
  - by eapply IH.
Qed.

(** X27. Two blocks whose statements have the same shapes have the same
    number of operands, and the operands are integers: an operand index
    that is in range for one instance of a shape is in range for all of
    them. *)
Theorem same_shape_same_operand_count (CenteredDot : pyval)
    (stmts1 stmts2 : list irnode) (sig ops1 ops2 : list pyval) :
  vexSignature CenteredDot stmts1 = Ok (sig, ops1) ->
  vexSignature CenteredDot stmts2 = Ok (sig, ops2) ->
  length ops1 = length ops2
  /\ Forall (fun v => is_int v = true) ops1.
Proof.
  unfold vexSignature. intros H1 H2.
  apply bind_Ok in H1 as (sig1 & Hs1 & H1).
  apply bind_Ok in H1 as (cs1 & Hc1 & H1).
  apply bind_Ok in H2 as (sig2 & Hs2 & H2).
  apply bind_Ok in H2 as (cs2 & Hc2 & H2).
  inversion H1; subst. inversion H2; subst. unfold flatten. split.
  - apply (count_list stmts1) with (args2 := stmts2); [| |done|done].
    2:{ apply (shape_kernel_stmts CenteredDot). eauto. }
    apply Forall_forall. intros t _. apply count_alike.
  - apply Forall_flat_map.
    apply (rmap_Forall termConstants _ stmts1); [|done].
    apply Forall_forall. intros t _ c Hc.
    by apply termConstants_ints in Hc as [_ ?].
Qed.

Lemma same_shape_same_operand_count_witness :
  length [PInt 4096; PInt 4; PInt 0; PInt 16; PInt 65536; PInt 28]
  = length [PInt 4096; PInt 4; PInt 0; PInt 20; PInt 7; PInt 12]
  /\ Forall (fun v => is_int v = true)
            [PInt 4096; PInt 4; PInt 0; PInt 16; PInt 65536; PInt 28].
Proof.
  apply (same_shape_same_operand_count dotA
           (addis 16 65536 28) (addis 20 7 12)
           [PTuple [PStr "IMark"; dotA; dotA; dotA];
            PTuple [PStr "WrTmp"; PInt 0;
                    PTuple [PStr "Binop"; PStr "Iop_Add32";
                            PTuple [PStr "Get"; PStr "Ity_I32"; dotA];
                            PTuple [PStr "Const"; PTuple [PStr "U32"; dotA]]]];
            PTuple [PStr "Put"; dotA; PTuple [PStr "RdTmp"; PInt 0]]]);
    reflexivity.
Defined.

Lemma constant_free_list (args1 : list irnode) :
  Forall (fun t1 => forall t2, constant_free t1 = true ->
            differ_only_in_constants t1 t2 = true -> t1 = t2) args1 ->
  forall args2, forallb constant_free args1 = true ->
    forall2b differ_only_in_constants args1 args2 = true -> args1 = args2.
Proof.
  induction 1 as [|x r Hx HF IH]; intros [|y r'] Hcf Hd; simpl in Hcf, Hd;
    try done.
  apply andb_true_iff in Hcf as [Hc Hcr]. apply andb_true_iff in Hd as [Hxy Hr].
  f_equal; [by apply Hx|by apply IH].
Qed.

(** Terms without constants that differ only in constants are equal. *)
Lemma constant_free_eq (t1 : irnode) :
  forall t2, constant_free t1 = true ->
    differ_only_in_constants t1 t2 = true -> t1 = t2.
Proof.
  induction t1 as [a l d|tmp d IH|d o IH|o ty|op args IH|op args IH
                   |tmp|c0 IH|v|g d jk o IHg IHd|n]
    using irnode_induction;
    intros [a' l' d'|tmp' d'|d' o'|o' ty'|op' args'|op' args'|tmp'|c'|v'
            |g' d' jk' o'|n'] Hcf Hd;
    cbn [differ_only_in_constants] in Hd; cbn [constant_free] in Hcf;
    try discriminate.
  - apply andb_true_iff in Hd as [Ht Hd]. apply bool_decide_eq_true in Ht.
    f_equal; [done|by apply IH].
  - apply andb_true_iff in Hd as [Ht Hd]. apply bool_decide_eq_true in Ht.
    f_equal; [done|by apply constant_free_list].
  - apply andb_true_iff in Hd as [Ht Hd]. apply bool_decide_eq_true in Ht.
    f_equal; [done|by apply constant_free_list].
  - apply bool_decide_eq_true in Hd. by f_equal.
  - f_equal. by apply IH.
Qed.

Lemma transparent_list (args1 : list irnode) :
  Forall (fun t1 => forall t2 c1 c2, transparent t1 = true ->
            differ_only_in_constants t1 t2 = true ->
            termConstants t1 = Ok c1 -> termConstants t2 = Ok c2 ->
            flatten_item c1 = flatten_item c2 -> t1 = t2) args1 ->
  forall args2 cs1 cs2, forallb transparent args1 = true ->
    forall2b differ_only_in_constants args1 args2 = true ->
    rmap termConstants args1 = Ok cs1 -> rmap termConstants args2 = Ok cs2 ->
    flat_map flatten_item cs1 = flat_map flatten_item cs2 ->
    args1 = args2.
Proof.
  induction 1 as [|x r Hx HF IH]; intros [|y r'] cs1 cs2 Htr Hd H1 H2 Heq;
    simpl in Htr, Hd; try done.
  apply andb_true_iff in Htr as [Hc Hcr]. apply andb_true_iff in Hd as [Hxy Hr].
  simpl in H1, H2.
  apply bind_Ok in H1 as (c1 & Hc1 & H1).
  apply bind_Ok in H1 as (cr1 & Hcr1 & H1).
  apply bind_Ok in H2 as (c2 & Hc2 & H2).
  apply bind_Ok in H2 as (cr2 & Hcr2 & H2).
  inversion H1; subst. inversion H2; subst. simpl in Heq.
  apply app_inj_1 in Heq as [Hh Ht]; [|by eapply count_alike].
  f_equal; [by eapply Hx|by eapply IH].
Qed.

(** A transparent term is fixed by its shape and its constants. *)
Lemma transparent_eq (t1 : irnode) :
  forall t2 c1 c2, transparent t1 = true ->
    differ_only_in_constants t1 t2 = true ->
    termConstants t1 = Ok c1 -> termConstants t2 = Ok c2 ->
    flatten_item c1 = flatten_item c2 -> t1 = t2.
Proof.
  induction t1 as [a l d|tmp d IH|d o IH|o ty|op args IH|op args IH
                   |tmp|c0 IH|v|g d jk o IHg IHd|n]
    using irnode_induction;
    intros [a' l' d'|tmp' d'|d' o'|o' ty'|op' args'|op' args'|tmp'|c'|v'
            |g' d' jk' o'|n'] c1 c2 Htr Hd H1 H2 Heq;
    cbn [differ_only_in_constants] in Hd; cbn [transparent] in Htr;
    try discriminate; cbn [termConstants] in H1, H2.
  - inversion H1; subst. inversion H2; subst. simpl in Heq. congruence.
  - apply andb_true_iff in Hd as [Ht Hd]. apply bool_decide_eq_true in Ht.
    f_equal; [done|by eapply IH].
  - inversion H1; subst. inversion H2; subst. simpl in Heq.
    f_equal; [by apply constant_free_eq|congruence].
  - apply bool_decide_eq_true in Hd.
    inversion H1; subst. inversion H2; subst. simpl in Heq. congruence.
  - apply andb_true_iff in Hd as [Ht Hd]. apply bool_decide_eq_true in Ht.
    apply bind_Ok in H1 as (cs1 & Hcs1 & H1).
    apply bind_Ok in H2 as (cs2 & Hcs2 & H2).
    inversion H1; subst. inversion H2; subst.
    rewrite (termConstants_list_not_None _ _ Hcs1),
      (termConstants_list_not_None _ _ Hcs2) in Heq.
    cbn [flatten_item] in Heq. f_equal. by eapply transparent_list.
  - apply andb_true_iff in Hd as [Ht Hd]. apply bool_decide_eq_true in Ht.
    apply bind_Ok in H1 as (cs1 & Hcs1 & H1).
    apply bind_Ok in H2 as (cs2 & Hcs2 & H2).
    inversion H1; subst. inversion H2; subst.
    rewrite (termConstants_list_not_None _ _ Hcs1),
      (termConstants_list_not_None _ _ Hcs2) in Heq.
    cbn [flatten_item] in Heq. f_equal. by eapply transparent_list.
  - apply bool_decide_eq_true in Hd. by f_equal.
  - f_equal. by eapply IH.
  - inversion H1; subst. inversion H2; subst. simpl in Heq. congruence.
Qed.

(** X28. The signature identifies the block as long as [termConstants]
    reaches every constant: two lists of statements with the same shapes
    and the same flattened constants are equal when the first has no
    [Exit] and nothing with constants under a [Put]. *)
Theorem signature_determines_block (CenteredDot : pyval)
    (stmts1 stmts2 : list irnode) (r : list pyval * list pyval) :
  forallb transparent stmts1 = true ->
  vexSignature CenteredDot stmts1 = Ok r ->
  vexSignature CenteredDot stmts2 = Ok r ->
  stmts1 = stmts2.
Proof.
  unfold vexSignature. intros Htr H1 H2.
  apply bind_Ok in H1 as (sig1 & Hs1 & H1).
  apply bind_Ok in H1 as (cs1 & Hc1 & H1).
  apply bind_Ok in H2 as (sig2 & Hs2 & H2).
  apply bind_Ok in H2 as (cs2 & Hc2 & H2).
  inversion H1; subst. inversion H2 as [[Hsig Hops]]; subst.
  apply (transparent_list stmts1) with (cs1 := cs1) (cs2 := cs2); try done.
  - apply Forall_forall. intros t _. apply transparent_eq.
  - apply (shape_kernel_stmts CenteredDot). eauto.
Qed.

Lemma signature_determines_block_witness :
  addis 16 65536 28
  = [ IMark 4096 4 0;
      WrTmp 0 (Binop "Iop_Add32" [Get (8 + 8) "Ity_I32"; Const (U32 65536)]);
      Put (RdTmp 0) 28 ].
Proof.
  apply (signature_determines_block dotA _ _
           ([PTuple [PStr "IMark"; dotA; dotA; dotA];
             PTuple [PStr "WrTmp"; PInt 0;
                     PTuple [PStr "Binop"; PStr "Iop_Add32";
                             PTuple [PStr "Get"; PStr "Ity_I32"; dotA];
                             PTuple [PStr "Const"; PTuple [PStr "U32"; dotA]]]];
             PTuple [PStr "Put"; dotA; PTuple [PStr "RdTmp"; PInt 0]]],
            [PInt 4096; PInt 4; PInt 0; PInt 16; PInt 65536; PInt 28]));
    reflexivity.
Defined.

(** X29. What the signature does not see: [termConstants] stops at a
    [Put] and at an [Exit]. Replacing the data of a [Put], or the guard,
    the target and the offset of an [Exit], by others that differ only in
    constants changes neither the shapes nor the operands of the block. *)
Theorem signature_blind_below_put_and_exit (CenteredDot : pyval)
    (pre post : list irnode) (d d' g g' : irnode) (offset o o' : Z)
    (jk : string) :
  differ_only_in_constants d d' = true ->
  differ_only_in_constants g g' = true ->
  vexSignature CenteredDot (pre ++ Put d offset :: post)
  = vexSignature CenteredDot (pre ++ Put d' offset :: post)
  /\ vexSignature CenteredDot (pre ++ Exit g d jk o :: post)
     = vexSignature CenteredDot (pre ++ Exit g' d' jk o' :: post).
Proof.
  intros Hd Hg.
  apply (shape_kernel CenteredDot) in Hd as (s & Hs1 & Hs2).
  apply (shape_kernel CenteredDot) in Hg as (s' & Hg1 & Hg2).
  unfold vexSignature. rewrite !rmap_app. cbn [rmap termShape termConstants].
  by rewrite Hs1, Hs2, Hg1, Hg2.
Qed.

Lemma signature_blind_below_put_and_exit_witness :
  vexSignature dotA ([] ++ Put (Const (U32 5)) 28 :: [])
  = vexSignature dotA ([] ++ Put (Const (U32 6)) 28 :: []).
Proof.
  refine (proj1 (signature_blind_below_put_and_exit dotA [] []
                   (Const (U32 5)) (Const (U32 6)) (RdTmp 1) (RdTmp 1)
                   28 0 0 "Ijk_Boring" _ _)); reflexivity.
Defined.

(** *** [flatten] *)

Lemma flatten_item_leaves (v : pyval) :
  Forall (fun x => is_leaf x = true) (flatten_item v).
Proof.
  induction v as [|z|s|l IH|l IH] using pyval_induction;
    cbn [flatten_item]; try (by repeat constructor);
    by apply Forall_flat_map.
Qed.

Lemma flatten_of_leaves (l : list pyval) :
  Forall (fun x => is_leaf x = true) l -> flatten l = l.
Proof.
  unfold flatten. induction 1 as [|x l Hx HF IH]; [done|].
  simpl. rewrite IH. by destruct x.
Qed.

(** X30. [flatten] returns a list without lists and tuples, leaves a list
    that has none as it is, goes through concatenation, and flattening
    twice is flattening once. *)
Theorem flatten_flattens (l l' : list pyval) :
  Forall (fun x => is_leaf x = true) (flatten l)
  /\ (Forall (fun x => is_leaf x = true) l -> flatten l = l)
  /\ flatten (l ++ l') = flatten l ++ flatten l'
  /\ flatten [PList l; PTuple l'] = flatten l ++ flatten l'
  /\ flatten (flatten l) = flatten l.
Proof.
  assert (Hleaves : Forall (fun x => is_leaf x = true) (flatten l)).
  { unfold flatten. apply Forall_flat_map. apply Forall_forall.
    intros v _. apply flatten_item_leaves. }
  split; [done|]. split; [apply flatten_of_leaves|].
  split; [apply flat_map_app|]. split.
  - unfold flatten. simpl. by rewrite app_nil_r.
  - by apply flatten_of_leaves.
Qed.

(** * The flock search and the operand formulas *)

(** ** The accepting model and the interleaved pattern *)

(** C2. When [factorize_flock(mask)] returns a classifier, the solver
    answered [sat] with a model of which the classifier is the
    interpretation of [s]; and in that model, for every left value [l] and
    right value [r], the catalog has an entry for the pattern that
    interleaves the bits of [l] and of [r] along the mask (the next bit of
    [r] where the mask is set, the next bit of [l] elsewhere), and that
    entry is [f(t(l), s(r))]. The solver is taken to be sound: its models
    satisfy what was asserted. *)
Theorem flock_soundness (check : Flock.solver)
    (shapeTags : gmap (list bool) Z) (mask : list bool)
    (cl : Flock.FuncInterp) :
  Flock.sound check ->
  factorize_flock check shapeTags mask = Ok (Some cl) ->
  exists asserts m,
    flock_query shapeTags mask = Ok asserts
    /\ check asserts = Z3.Sat m
    /\ cl = Flock.s m
    /\ forall l r,
         0 <= l < 2 ^ Z.of_nat (count0 mask) ->
         0 <= r < 2 ^ Z.of_nat (count1 mask) ->
         exists shape,
           shapeTags !! interleave mask (Bits_uint l (count0 mask))
                                        (Bits_uint r (count1 mask))
           = Some shape
           /\ Flock.f m (Flock.t m l) (Flock.apply cl r) = shape.
Proof.
  intros Hsound H.
  destruct (accepting_model_facts check shapeTags mask cl Hsound H)
    as (asserts & m & Hq & Hc & Hcl & Hall).
  exists asserts, m. split; [done|]. split; [done|]. split; [done|].
  intros l r Hl Hr.
  destruct (Hall l r Hl Hr) as (shape & Hshape & Hf).
  exists shape. split; [|done].
  destruct (proj1 (flock_query_Ok_iff shapeTags mask)) as (H0 & H1 & _);
    [eauto|].
  rewrite true_shape_key, (flock_key_interleave mask l r H0 H1) in Hshape.
  cbn [mbind result_bind] in Hshape.
  destruct (shapeTags !! _) as [sh|]; [|discriminate].
  by inversion Hshape.
Qed.

Lemma flock_soundness_witness :
  factorize_flock checkE shapeTagsE [false; true; false]
  = Ok (Some {| Flock.entries := [(1, true)]; Flock.else_value := false |})
  /\ exists m shape,
       shapeTagsE !! interleave [false; true; false]
                       (Bits_uint 2 2) (Bits_uint 1 1) = Some shape
       /\ Flock.f m (Flock.t m 2)
            (Flock.apply {| Flock.entries := [(1, true)];
                            Flock.else_value := false |} 1) = shape.
Proof.
  split; [vm_compute; reflexivity|].
  destruct (flock_soundness checkE shapeTagsE [false; true; false]
              {| Flock.entries := [(1, true)]; Flock.else_value := false |}
              (flock_try_sound [modelE]))
    as (asserts & m & _ & _ & _ & Hall).
  - vm_compute. reflexivity.
  - destruct (Hall 2 1) as (shape & Hs & Hf); 
      [vm_compute; split; [discriminate|reflexivity]
      |vm_compute; split; [discriminate|reflexivity]|].
    exists m, shape. split; [exact Hs|exact Hf].
Defined.

(** ** The order of the search *)

Lemma rfold_first_raise check shapeTags pre c post err st :
  (forall c', c' ∈ pre -> exists r, factorize_flock check shapeTags c' = Ok r) ->
  factorize_flock check shapeTags c = Raise err ->
  rfold (find_flockings_step check shapeTags) (pre ++ c :: post) st
  = Raise err.
Proof.
  revert st. induction pre as [|p pre IH]; intros st Hpre Hc.
  - cbn [app rfold]. unfold find_flockings_step. by rewrite Hc.
  - destruct (Hpre p) as [r Hr]; [by left|].
    cbn [app rfold]. unfold find_flockings_step at 2. rewrite Hr.
    cbn [mbind result_bind].
    destruct r; cbn [mbind result_bind]; apply IH; try done;
      intros c' Hc'; apply Hpre; by right.
Qed.

(** C3. The candidates of [find_flockings] are the masks of length
    [entropy] other than all-zero and all-one, each once, in ascending
    order of their number of set bits, so a mask with fewer set bits
    stands before every mask with more. The loop goes through them in
    that order and calls [factorize_flock] on each: when every call
    returns, the loop has tried the whole list in order and yielded, in
    that order, exactly the masks for which a classifier came back; and
    when a call raises, all calls before it in the list having returned,
    the search ends with that exception. *)
Theorem candidates_by_weight (e : nat) :
  NoDup (flocking_candidates e)
  /\ (forall m, m ∈ flocking_candidates e <->
        length m = e /\ m <> replicate e false /\ m <> replicate e true)
  /\ ascending count1 (flocking_candidates e)
  /\ (forall i j mi mj,
        flocking_candidates e !! i = Some mi ->
        flocking_candidates e !! j = Some mj ->
        (count1 mi < count1 mj)%nat -> (i < j)%nat)
  /\ (forall check shapeTags sl,
        entropy sl = e ->
        ((forall c, c ∈ flocking_candidates e ->
            exists r, factorize_flock check shapeTags c = Ok r) ->
         exists ys,
           find_flockings_trace check shapeTags sl
           = Ok (ys, flocking_candidates e))
        /\ (forall ys tried,
              find_flockings_trace check shapeTags sl = Ok (ys, tried) ->
              tried = flocking_candidates e
              /\ ys.*1 `sublist_of` flocking_candidates e
              /\ forall c cl,
                   (c, cl) ∈ ys
                   <-> c ∈ flocking_candidates e
                       /\ factorize_flock check shapeTags c = Ok (Some cl))
        /\ (forall pre c post err,
              flocking_candidates e = pre ++ c :: post ->
              (forall c', c' ∈ pre ->
                 exists r, factorize_flock check shapeTags c' = Ok r) ->
              factorize_flock check shapeTags c = Raise err ->
              find_flockings_trace check shapeTags sl = Raise err)).
Proof.
  assert (Hpow : 0 < 2 ^ Z.of_nat e) by (apply Z.pow_pos_nonneg; lia).
  split; [|split; [|split; [|split]]].
  - unfold flocking_candidates.
    rewrite sort_by_perm. apply NoDup_fmap_2_strong; [|apply NoDup_range2].
    intros k k' Hk Hk' H. apply elem_of_range2 in Hk, Hk'.
    apply (Bits_uint_inj k k' e); [lia|lia|done].
  - apply elem_of_candidates.
  - apply sort_by_ascending.
  - intros i j mi mj Hi Hj Hlt.
    destruct (decide (i < j)%nat) as [|Hge]; [done|]. exfalso.
    destruct (decide (i = j)) as [->|Hne].
    + rewrite Hi in Hj. inversion Hj; subst. lia.
    + pose proof (sort_by_ascending count1
                    (map (fun k => Bits_uint k e)
                         (range2 1 (2 ^ Z.of_nat e - 1)))
                    j i mj mi ltac:(lia) Hj Hi). lia.
  - intros check shapeTags sl He. unfold find_flockings_trace. rewrite He.
    split; [|split].
    + intros Hall.
      destruct (rfold_all_Ok check shapeTags (flocking_candidates e) ([], []))
        as [[ys tried] Hst]; [done|].
      exists ys. rewrite Hst. f_equal. f_equal.
      by apply rfold_tried in Hst.
    + intros ys tried H. split; [by apply rfold_tried in H|].
      apply find_flockings_loop in H as (found & -> & Hsub & Hin & Hall).
      cbn [app]. split; [done|].
      intros c cl. split; [apply Hin|].
      intros [Hc Hf]. destruct (Hall c Hc) as (r & Hr & Hyield).
      apply Hyield. congruence.
    + intros pre c post err -> Hpre Hc. by apply rfold_first_raise.
Qed.

Lemma candidates_by_weight_witness :
  find_flockings_trace checkE shapeTagsE [Relevant; Relevant; Relevant]
  = Ok ([([false; true; false],
          {| Flock.entries := [(1, true)]; Flock.else_value := false |})],
        [[false; false; true]; [false; true; false]; [true; false; false];
         [false; true; true]; [true; false; true]; [true; true; false]])
  /\ [[false; false; true]; [false; true; false]; [true; false; false];
      [false; true; true]; [true; false; true]; [true; true; false]]
     = flocking_candidates 3
  /\ flocking_candidates 3 !! 1%nat = Some [false; true; false]
  /\ flocking_candidates 3 !! 3%nat = Some [false; true; true]
  /\ (1 < 3)%nat.
Proof.
  assert (Hrun :
    find_flockings_trace checkE shapeTagsE [Relevant; Relevant; Relevant]
    = Ok ([([false; true; false],
            {| Flock.entries := [(1, true)]; Flock.else_value := false |})],
          [[false; false; true]; [false; true; false]; [true; false; false];
           [false; true; true]; [true; false; true]; [true; true; false]]))
    by (vm_compute; reflexivity).
  split; [exact Hrun|]. split.
  - refine (proj1
              (proj1 (proj2
                 (proj2 (proj2 (proj2 (proj2 (candidates_by_weight 3))))
                    checkE shapeTagsE [Relevant; Relevant; Relevant]
                    eq_refl))
                 _ _ Hrun)).
  - split; [vm_compute; reflexivity|]. split; [vm_compute; reflexivity|].
    refine (proj1 (proj2 (proj2 (proj2 (candidates_by_weight 3))))
              1%nat 3%nat [false; true; false] [false; true; true] _ _ _);
      vm_compute; reflexivity.
Defined.

(** ** [formulaFor] *)




(** With a sound solver, a formula handed back by the last lines fits
    every point it was given. *)
Lemma fit_verdict_exact (check : Affine.solver) desc recorded width d a b :
  Affine.sound check ->
  fit_verdict check desc recorded width = Ok (d, a, b) ->
  forall x y, (x, y) ∈ recorded -> 0 <= x < 2 ^ width -> a * x + b = y.
Proof.
  intros Hsound H x y Hin Hx. unfold fit_verdict in H.
  destruct (check _) as [m| |] eqn:Hc; try discriminate.
  inversion H; subst. apply Hsound in Hc.
  by apply (affine_query_holds m recorded width).
Qed.




